(** * FAQ retrieval core of myleo-legal: shallow embedding and verified properties

    Part I embeds the retrieval pipeline of the chatbot service:

    - [JsString], [JsMap], [Js] : the JavaScript primitives the code
      relies on (string methods, [Map], truthiness and [||], lookup in
      an object literal, [Set], [sort]);
    - [Stemmer], [Database], [ChatStemmer] : the two [stemWord] methods
      (service/server.js and service/services/cacheService.js) and
      [normalizeSearchTerm];
    - [CacheService] : the bounded cache (cacheService.js);
    - [Faq] : the rows returned by the candidate store;
    - [RagSearchService] : the retrieval orchestrator (server.js);
    - [ChatService] : the answer matcher (cacheService.js);
    - [Claimed], [Scoring], [Merging], [Weights], [Outage], [Matching],
      [Sample] : the vocabulary of the statements and sample inputs;
    - [CacheMore] : the other operations of the cache ([has], [clear],
      [keys], [cleanup], the FAQ helpers) and sequences of calls;
    - [DatabaseSearch] : the store's post-processing of the rows it
      found ([deduplicateAndScore], [calculateEnhancedRelevance],
      [extractSearchWords], [buildWordRegex]);
    - [TextSimilarity], [ChatQuery] : the earlier similarity measure and
      the chat service's own [normalizeQuery] (cacheService.js);
    - [BestMatch], [Ranking], [Fallback], [CacheSample] : further
      vocabulary and sample inputs;
    - [Utf16] : the query normalization on strings given by their
      UTF-16 code units.

    Part II holds the lemmas and the theorems about the specification's
    statements; Part III holds further properties of the code.

    Conventions.

    - A JavaScript string is a [string] whose characters are code units
      in the range 0..255 (ISO 8859-1, which covers the accented French
      letters): [String.length] is then the JavaScript [length], and
      [toLowerCase] maps A-Z and the accented capitals U+00C0..U+00DE
      (but U+00D7).  The query normalization is also given on arbitrary
      strings, as lists of UTF-16 code units ([Utf16]), where
      [toLowerCase] turns U+0130 and U+212A into ASCII letters; the two
      agree on the range 0..255.
    - A JavaScript number used as a score, weight or threshold is an
      exact rational ([Q]); rounding of doubles, NaN and the infinities
      are left out.  A count or a limit read from a configuration
      ([maxQueryVariants], [topKResults], [maxCandidatesPerVariant],
      [fallbackLimit], [maxEntries]) is a rational too: [x || d] keeps
      every number but 0, negative or fractional.  Lengths and ranks are
      [nat], identifiers and millisecond time stamps are [Z].
    - [undefined] and [null] are [None]; truthiness is written out.
    - [Date.now()] is an explicit argument: the readings taken during
      one cache operation, and during the handling of one variant by
      [retrieve], count as one instant.
    - An awaited call to the candidate store is a function of its
      arguments whose outcome says whether the call threw. *)

From Stdlib Require Import Bool List Arith NArith ZArith QArith Qminmax Qround.
From Stdlib Require Import Lia Lqa.
From Stdlib Require Import Ascii String Permutation Sorted DecimalString.
Import ListNotations.

Close Scope Q_scope.
Local Open Scope string_scope.
Local Open Scope list_scope.
Local Open Scope nat_scope.

(* ================================================================== *)
(** * Part I: definitions                                              *)
(* ================================================================== *)

(** ** JavaScript string primitives *)

Module JsString.

Definition code (c : ascii) : nat := nat_of_ascii c.

(** [\s] and the characters removed by [trim]: TAB, LF, VT, FF, CR,
    space and the no-break space. *)
Definition isSpace (c : ascii) : bool :=
  let n := code c in
  ((9 <=? n) && (n <=? 13)) || (n =? 32) || (n =? 160).

(** [\w] without the unicode flag: A-Z, a-z, 0-9 and underscore. *)
Definition isWordChar (c : ascii) : bool :=
  let n := code c in
  ((48 <=? n) && (n <=? 57)) || ((65 <=? n) && (n <=? 90))
  || (n =? 95) || ((97 <=? n) && (n <=? 122)).

Definition isUpper (c : ascii) : bool :=
  let n := code c in
  ((65 <=? n) && (n <=? 90))
  || ((192 <=? n) && (n <=? 222) && negb (n =? 215)).

Definition lowerChar (c : ascii) : ascii :=
  if isUpper c then ascii_of_nat (code c + 32) else c.

Fixpoint mapChars (f : ascii -> ascii) (s : string) : string :=
  match s with
  | EmptyString => EmptyString
  | String c s' => String (f c) (mapChars f s')
  end.

Definition toLowerCase (s : string) : string := mapChars lowerChar s.

Fixpoint trimStart (s : string) : string :=
  match s with
  | EmptyString => EmptyString
  | String c s' => if isSpace c then trimStart s' else s
  end.

Fixpoint trimEnd (s : string) : string :=
  match s with
  | EmptyString => EmptyString
  | String c s' =>
      match trimEnd s' with
      | EmptyString => if isSpace c then EmptyString else String c EmptyString
      | t => String c t
      end
  end.

Definition trim (s : string) : string := trimEnd (trimStart s).

(** [s.startsWith(p)] *)
Fixpoint startsWith (s p : string) : bool :=
  match p, s with
  | EmptyString, _ => true
  | String _ _, EmptyString => false
  | String a p', String c s' => Ascii.eqb a c && startsWith s' p'
  end.

(** [s.includes(p)] *)
Fixpoint includes (s p : string) : bool :=
  startsWith s p
  || match s with
     | EmptyString => false
     | String _ s' => includes s' p
     end.

(** [s.endsWith(p)] *)
Fixpoint endsWith (s p : string) : bool :=
  String.eqb s p
  || match s with
     | EmptyString => false
     | String _ s' => endsWith s' p
     end.

(** [s.slice(0, -n)] for [0 < n]: the string without its last [n]
    characters (empty when [n] exceeds the length). *)
Definition dropLast (n : nat) (s : string) : string :=
  String.substring 0 (String.length s - n) s.

(** [s.replace(/[^\w\s]/g, ' ')] *)
Definition blankNonWord (c : ascii) : ascii :=
  if isWordChar c || isSpace c then c else " "%char.

Definition replaceNonWord (s : string) : string := mapChars blankNonWord s.

(** [s.replace(/\s+/g, ' ')]; [inRun] tells that the previous character
    belonged to the run of white space being replaced. *)
Fixpoint collapseFrom (inRun : bool) (s : string) : string :=
  match s with
  | EmptyString => EmptyString
  | String c s' =>
      if isSpace c
      then (if inRun then collapseFrom true s'
            else String " " (collapseFrom true s'))
      else String c (collapseFrom false s')
  end.

Definition collapseSpaces (s : string) : string := collapseFrom false s.

Definition consHead (c : ascii) (fs : list string) : list string :=
  match fs with
  | [] => [String c EmptyString]
  | f :: fs' => String c f :: fs'
  end.

(** [s.split(/\s+/)]: the pieces between maximal runs of white space;
    the first and the last piece are empty when [s] starts or ends
    with white space. *)
Fixpoint fieldsFrom (inRun : bool) (s : string) : list string :=
  match s with
  | EmptyString => [EmptyString]
  | String c s' =>
      if isSpace c
      then (if inRun then fieldsFrom true s'
            else EmptyString :: fieldsFrom true s')
      else consHead c (fieldsFrom false s')
  end.

Definition splitSpaces (s : string) : list string := fieldsFrom false s.

(** [s.split(' ')]: every single space separates two pieces. *)
Fixpoint splitOn (sep : ascii) (s : string) : list string :=
  match s with
  | EmptyString => [EmptyString]
  | String c s' =>
      if Ascii.eqb c sep then EmptyString :: splitOn sep s'
      else consHead c (splitOn sep s')
  end.

(** [parts.join(sep)] *)
Fixpoint join (sep : string) (parts : list string) : string :=
  match parts with
  | [] => EmptyString
  | [p] => p
  | p :: rest => p ++ sep ++ join sep rest
  end.

(** [s.replace(pat, rep)] with a string pattern: only the first
    occurrence is replaced ([rep] holds no [$] pattern here). *)
Fixpoint dropChars (n : nat) (s : string) : string :=
  match n, s with
  | O, _ => s
  | S _, EmptyString => EmptyString
  | S n', String _ s' => dropChars n' s'
  end.

Fixpoint replaceFirst (pat rep s : string) : string :=
  if startsWith s pat then rep ++ dropChars (String.length pat) s
  else match s with
       | EmptyString => EmptyString
       | String c s' => String c (replaceFirst pat rep s')
       end.

Definition isEmpty (s : string) : bool :=
  match s with EmptyString => true | _ => false end.

Definition notEmpty (f : string) : bool := negb (isEmpty f).

(** The non-empty pieces of [splitSpaces]: the words of [s]. *)
Definition wordsOf (s : string) : list string :=
  filter notEmpty (splitSpaces s).

Fixpoint allSpace (s : string) : bool :=
  match s with
  | EmptyString => true
  | String c s' => isSpace c && allSpace s'
  end.

(** All the pieces of a list but possibly the last one are non-empty. *)
Fixpoint filledButLast (l : list string) : Prop :=
  match l with
  | [] => True
  | x :: rest =>
      match rest with
      | [] => True
      | _ :: _ => x <> EmptyString /\ filledButLast rest
      end
  end.

Fixpoint forallChars (p : ascii -> bool) (s : string) : bool :=
  match s with
  | EmptyString => true
  | String c s' => p c && forallChars p s'
  end.

Definition noSpace (s : string) : bool :=
  forallChars (fun c => negb (isSpace c)) s.

End JsString.

(** ** The stemmers *)

Module Stemmer.
Import JsString.

(** The loop shared by both [stemWord] methods: the first suffix of the
    table, in table order, that ends the word and leaves more than two
    characters is removed, and the loop stops ([break]). *)
Fixpoint stemWith (table : list string) (word : string) : string :=
  match table with
  | [] => word
  | suffix :: rest =>
      if endsWith word suffix
         && (String.length suffix + 2 <? String.length word)
      then dropLast (String.length suffix) word
      else stemWith rest word
  end.


(** A suffix is applicable to a word when it ends the word and the
    guard [word.length > suffix.length + 2] holds. *)
Definition applicable (word suffix : string) : Prop :=
  exists stem, word = (stem ++ suffix)%string /\ 3 <= String.length stem.

End Stemmer.

Module Database.

(** [frenchSuffixes] of Database.stemWord (every replacement is the
    empty string). *)
Definition frenchSuffixes : list string :=
  [ "ation"; "tion"; "sion"; "ment"; "ique"; "able"; "ible"; "eur";
    "euse"; "ant"; "ent"; "er"; "ir"; "oir"; "ez"; "ons"; "ont"; "ais";
    "ait"; "es"; "s" ].

Definition stemWord (word : string) : string :=
  Stemmer.stemWith frenchSuffixes word.

(** [normalizeSearchTerm(searchTerm)] *)
Definition normalizeSearchTerm (searchTerm : string) : string :=
  JsString.trim
    (JsString.collapseSpaces
       (JsString.replaceNonWord
          (JsString.toLowerCase (JsString.trim searchTerm)))).

End Database.

Module ChatStemmer.

(** [frenchSuffixes] of ChatService.stemWord. *)
Definition frenchSuffixes : list string :=
  [ "tion"; "sion"; "ment"; "ique"; "able"; "ible"; "eur"; "euse";
    "ant"; "ent"; "ais"; "ait"; "ons"; "ez"; "ont"; "er"; "ir"; "oir" ].

Definition stemWord (word : string) : string :=
  Stemmer.stemWith frenchSuffixes word.

End ChatStemmer.

(** ** JavaScript [Map]: keys in insertion order *)

Module JsMap.
Section WithKey.
Context {K V : Type}.
Variable keq : K -> K -> bool.

Fixpoint get (k : K) (m : list (K * V)) : option V :=
  match m with
  | [] => None
  | (k', v) :: m' => if keq k k' then Some v else get k m'
  end.

Definition has (k : K) (m : list (K * V)) : bool :=
  match get k m with Some _ => true | None => false end.

(** [map.set(k, v)]: an existing key keeps its position. *)
Fixpoint set (k : K) (v : V) (m : list (K * V)) : list (K * V) :=
  match m with
  | [] => [(k, v)]
  | (k', v') :: m' =>
      if keq k k' then (k', v) :: m' else (k', v') :: set k v m'
  end.

Fixpoint delete (k : K) (m : list (K * V)) : list (K * V) :=
  match m with
  | [] => []
  | (k', v') :: m' =>
      if keq k k' then m' else (k', v') :: delete k m'
  end.

End WithKey.
End JsMap.

(** ** The bounded cache (class CacheService)

    Cached values are immutable here, so [deepClone] ([config.useClone])
    is the identity; the periodic [cleanup] is not among the operations
    below. *)

Module CacheService.
Section WithValue.
Variable V : Type.

Record Entry := mkEntry { value : V; expires : Z; created : Z }.

Record Stats := mkStats
  { hits : nat; misses : nat; sets : nat; deletes : nat; evictions : nat }.

Record t := mkCache
  { cache : list (string * Entry);
    accessOrder : list (string * Z);
    maxEntries : Q;
    ttl : Z;
    stats : Stats }.

(** [config.maxEntries || 1000], [config.ttl || 300000]: any number
    but 0 is kept, a negative or a fractional one too. *)
Definition create (cfgMaxEntries : option Q) (cfgTtl : option Z) : t :=
  {| cache := [];
     accessOrder := [];
     maxEntries := match cfgMaxEntries with
                   | Some q => if Qeq_bool q 0 then 1000%Q else q
                   | None => 1000%Q
                   end;
     ttl := match cfgTtl with
            | Some z => if (z =? 0)%Z then 300000%Z else z
            | None => 300000%Z
            end;
     stats := mkStats 0 0 0 0 0 |}.

Definition size (c : t) : nat := List.length (cache c).

(** [this.cache.size] as the number that is compared with [maxEntries]. *)
Definition sizeQ (c : t) : Q := inject_Z (Z.of_nat (size c)).

Definition withStats (f : Stats -> Stats) (c : t) : t :=
  mkCache (cache c) (accessOrder c) (maxEntries c) (ttl c) (f (stats c)).

Definition countMiss (s : Stats) : Stats :=
  mkStats (hits s) (S (misses s)) (sets s) (deletes s) (evictions s).
Definition countHit (s : Stats) : Stats :=
  mkStats (S (hits s)) (misses s) (sets s) (deletes s) (evictions s).
Definition countSet (s : Stats) : Stats :=
  mkStats (hits s) (misses s) (S (sets s)) (deletes s) (evictions s).
Definition countDelete (s : Stats) : Stats :=
  mkStats (hits s) (misses s) (sets s) (S (deletes s)) (evictions s).
Definition countEviction (s : Stats) : Stats :=
  mkStats (hits s) (misses s) (sets s) (deletes s) (S (evictions s)).

(** [delete(key)] *)
Definition delete (key : string) (c : t) : t * bool :=
  if JsMap.has String.eqb key (cache c)
  then (mkCache (JsMap.delete String.eqb key (cache c))
                (JsMap.delete String.eqb key (accessOrder c))
                (maxEntries c) (ttl c) (countDelete (stats c)),
        true)
  else (c, false).

(** [get(key)], read at time [now] *)
Definition get (now : Z) (key : string) (c : t) : t * option V :=
  match JsMap.get String.eqb key (cache c) with
  | None => (withStats countMiss c, None)
  | Some entry =>
      if (now >? expires entry)%Z
      then (withStats countMiss (fst (delete key c)), None)
      else (mkCache (cache c)
                    (JsMap.set String.eqb key now (accessOrder c))
                    (maxEntries c) (ttl c) (countHit (stats c)),
            Some (value entry))
  end.

(** The loop of [evictOldest]: the first key whose access time is
    strictly below every earlier candidate, starting from [Date.now()]. *)
Fixpoint findOldest (order : list (string * Z))
         (oldestKey : option string) (oldestTime : Z)
  : option string :=
  match order with
  | [] => oldestKey
  | (key, accessTime) :: rest =>
      if (accessTime <? oldestTime)%Z
      then findOldest rest (Some key) accessTime
      else findOldest rest oldestKey oldestTime
  end.

(** [evictOldest()], run at time [now]; [if (oldestKey)] is false for
    [null] and for the empty string. *)
Definition evictOldest (now : Z) (c : t) : t :=
  match accessOrder c with
  | [] => c
  | _ =>
      match findOldest (accessOrder c) None now with
      | Some key =>
          if JsString.isEmpty key then c
          else withStats countEviction (fst (delete key c))
      | None => c
      end
  end.

(** [set(key, value, customTtl)], run at time [now] *)
Definition set (now : Z) (key : string) (v : V) (customTtl : option Z)
           (c : t) : t :=
  let ttl' := match customTtl with
              | Some z => if (z =? 0)%Z then ttl c else z
              | None => ttl c
              end in
  let expires' := (now + ttl')%Z in
  let c1 := if Qle_bool (maxEntries c) (sizeQ c)
               && negb (JsMap.has String.eqb key (cache c))
            then evictOldest now c else c in
  mkCache (JsMap.set String.eqb key (mkEntry v expires' now) (cache c1))
          (JsMap.set String.eqb key now (accessOrder c1))
          (maxEntries c1) (ttl c1) (countSet (stats c1)).

End WithValue.

Arguments mkEntry {V}.
Arguments value {V}.
Arguments expires {V}.
Arguments created {V}.
Arguments mkCache {V}.
Arguments cache {V}.
Arguments accessOrder {V}.
Arguments maxEntries {V}.
Arguments ttl {V}.
Arguments stats {V}.
Arguments create {V}.
Arguments size {V}.
Arguments sizeQ {V}.
Arguments delete {V}.
Arguments get {V}.
Arguments evictOldest {V}.
Arguments set {V}.

End CacheService.

(** ** FAQ rows, as the candidate store returns them *)

Module Faq.

Record QaData := mkQaData
  { question : option string; answer : option string }.

Record QaEntry := mkQaEntry
  { code : option string; data : option QaData }.

(** [qa_data] after [JSON.parse]: a parse failure, an array of entries
    or a single value; an entry may be [null]. *)
Inductive QaPayload :=
| QaMalformed
| QaList (entries : list (option QaEntry))
| QaSingle (entry : option QaEntry).

(** [last_updated]: falsy, not a date ([getTime()] is NaN), or a date
    with its millisecond time stamp. *)
Inductive DateField :=
| NoDate
| InvalidDate
| DateAt (ms : Z).

Record Row := mkRow
  { id : Z;
    title : option string;
    rubrique : option string;
    product_ref : option string;
    qa_data : QaPayload;
    last_updated : DateField;
    relevance : option Q;
    enhanced_relevance : option Q }.

End Faq.

(** ** Truthiness and [||] defaults *)

Module Js.

Definition truthyStr (o : option string) : bool :=
  match o with
  | Some s => negb (JsString.isEmpty s)
  | None => false
  end.

(** [x || d] for a number [x] *)
Definition orQ (o : option Q) (d : Q) : Q :=
  match o with
  | Some q => if Qeq_bool q 0 then d else q
  | None => d
  end.

(** [ToIntegerOrInfinity] of a number: truncation toward zero. *)
Definition toInteger (x : Q) : Z :=
  if Qle_bool 0 x then Qfloor x else Qceiling x.

(** [l.slice(0, k)]: the first [k] elements, [k] truncated; a negative
    [k] counts from the end. *)
Definition sliceTo {A : Type} (k : Q) (l : list A) : list A :=
  let n := toInteger k in
  if (n <? 0)%Z
  then firstn (Z.to_nat (Z.max (Z.of_nat (List.length l) + n) 0)) l
  else firstn (Z.to_nat n) l.

(** The least natural number that is not below [x]: the length at which
    [length >= x] becomes true. *)
Definition ceilingCount (x : Q) : nat := Z.to_nat (Qceiling x).

(** [x || d] for an integer [x] *)
Definition orZ (o : option Z) (d : Z) : Z :=
  match o with
  | Some z => if (z =? 0)%Z then d else z
  | None => d
  end.

(** [a === b] on optional strings *)
Definition strictEq (a b : option string) : bool :=
  match a, b with
  | Some x, Some y => String.eqb x y
  | None, None => true
  | _, _ => false
  end.

(** The outcome of code that may raise a [TypeError]. *)
Inductive Result (A : Type) :=
| Ok (a : A)
| TypeError.
Arguments Ok {A}.
Arguments TypeError {A}.

Definition bind {A B : Type} (r : Result A) (k : A -> Result B)
  : Result B :=
  match r with
  | Ok a => k a
  | TypeError => TypeError
  end.

(** The property names every object literal inherits from
    [Object.prototype]: [obj[name]] is truthy for them although the
    literal does not list them. *)
Definition objectPrototypeKeys : list string :=
  [ "constructor"; "__defineGetter__"; "__defineSetter__";
    "hasOwnProperty"; "__lookupGetter__"; "__lookupSetter__";
    "isPrototypeOf"; "propertyIsEnumerable"; "toString"; "valueOf";
    "__proto__"; "toLocaleString" ].

Definition inherited (name : string) : bool :=
  existsb (String.eqb name) objectPrototypeKeys.

(** [obj[name]] for an object literal [obj] whose own properties are
    arrays of strings. *)
Inductive Property :=
| OwnArray (items : list string)
| InheritedValue
| Undefined.

Definition lookup (obj : list (string * list string)) (name : string)
  : Property :=
  match JsMap.get String.eqb name obj with
  | Some items => OwnArray items
  | None => if inherited name then InheritedValue else Undefined
  end.

(** [set.add(x)] on a [Set] kept in insertion order *)
Definition setAdd (x : string) (l : list string) : list string :=
  if existsb (String.eqb x) l then l else l ++ [x].

(** Insertion of [x] for [Array.prototype.sort()] on strings (code-unit
    order). *)
Fixpoint insertString (x : string) (l : list string) : list string :=
  match l with
  | [] => [x]
  | y :: l' => if String.leb x y then x :: l else y :: insertString x l'
  end.

Definition sortStrings (l : list string) : list string :=
  fold_right insertString [] l.

End Js.

(** ** The retrieval orchestrator (class RagSearchService) *)

Module RagSearchService.
Import JsString Js Faq.

(** The constructor's [config] argument. *)
Record RawConfig := mkRawConfig
  { raw_maxQueryVariants : option Q;
    raw_maxCandidatesPerVariant : option Q;
    raw_topKResults : option Q;
    raw_minScore : option Q;
    raw_cacheTtl : option Z;
    raw_recencyBoostDays : option Z;
    raw_rubriqueBoost : option Q;
    raw_productBoost : option Q;
    raw_variantDecay : option Q;
    raw_fallbackLimit : option Q }.

Record Config := mkConfig
  { maxQueryVariants : Q;
    maxCandidatesPerVariant : Q;
    topKResults : Q;
    minScore : Q;
    cacheTtl : Z;
    recencyBoostDays : Z;
    rubriqueBoost : Q;
    productBoost : Q;
    variantDecay : Q;
    fallbackLimit : Q }.

(** [this.config] as the constructor fills it: [config.x || d] keeps
    any number but 0, a negative or a fractional one too. *)
Definition configure (raw : RawConfig) : Config :=
  {| maxQueryVariants := orQ (raw_maxQueryVariants raw) 4;
     maxCandidatesPerVariant := orQ (raw_maxCandidatesPerVariant raw) 12;
     topKResults := orQ (raw_topKResults raw) 3;
     minScore := match raw_minScore raw with
                 | Some q => q
                 | None => 0.35%Q
                 end;
     cacheTtl := orZ (raw_cacheTtl raw) 240000;
     recencyBoostDays := orZ (raw_recencyBoostDays raw) 30;
     rubriqueBoost := orQ (raw_rubriqueBoost raw) 0.15;
     productBoost := orQ (raw_productBoost raw) 0.2;
     variantDecay := orQ (raw_variantDecay raw) 0.15;
     fallbackLimit := orQ (raw_fallbackLimit raw) 5 |}.

(** [config = {}] *)
Definition emptyConfig : RawConfig :=
  mkRawConfig None None None None None None None None None None.

Definition synonymMap : list (string * list string) :=
  [ ("horaire", ["heures"; "ouverture"; "fermeture"; "disponibilite"]);
    ("prix", ["tarif"; "cout"; "montant"; "facture"]);
    ("support", ["assistance"; "aide"; "contact"; "service client"]);
    ("produit", ["offre"; "solution"; "service"]);
    ("compte", ["profil"; "espace client"; "identifiant"]);
    ("paiement", ["reglement"; "transaction"; "facturation"]);
    ("inscription", ["adhesion"; "enregistrement"; "creation compte"]) ].

Record Session := mkSession
  { languageCode : option string;
    s_rubrique : option string;
    productCode : option string }.

(** The [filters] object of a variant ([baseFilters] and its copies). *)
Record VariantFilters := mkVariantFilters
  { vf_languageCode : option string;
    vf_rubrique : option string;
    vf_productCode : option string }.

Record Variant := mkVariant
  { query : string;
    weight : Q;
    reason : string;
    filters : VariantFilters;
    allowFallback : bool;
    cacheKey : string }.

(** The filters handed to the candidate store. *)
Record Filters := mkFilters
  { f_languageCode : option string;
    f_rubrique : option string;
    f_productRef : option string;
    f_limit : option Q }.

Record Candidate := mkCandidate
  { faqId : Z;
    row : Row;
    variantReason : string;
    variantWeight : Q;
    score : Q }.

Record Aggregated := mkAggregated
  { a_faqId : Z;
    a_row : Row;
    a_score : Q;
    a_sources : list string }.

Record Ranked := mkRanked
  { entry : Aggregated;
    rank : nat }.

Record Retrieval := mkRetrieval
  { normalizedQuery : string;
    variants : list Variant;
    rankedCandidates : list Ranked;
    topCandidates : list Ranked }.

(** [normalizeQuery(query)] *)
Definition normalizeQuery (query : string) : string :=
  trim (collapseSpaces (replaceNonWord (trim (toLowerCase query)))).

(** [expandSynonyms(query)]: a word that names an inherited property
    passes the truthiness test and has no [forEach]. *)
Fixpoint expandWords (query : string) (words : list string)
         (acc : list string) : Result (list string) :=
  match words with
  | [] => Ok acc
  | word :: rest =>
      match lookup synonymMap word with
      | OwnArray syns =>
          expandWords query rest
            (fold_left (fun set syn => setAdd (replaceFirst word syn query) set)
                       syns acc)
      | InheritedValue => TypeError
      | Undefined => expandWords query rest acc
      end
  end.

Definition expandSynonyms (query : string) : Result (list string) :=
  expandWords query (splitOn " " query) [].

(** [buildCacheKey(query, filters)] *)
Definition filterEntries (f : VariantFilters) : list (string * option string) :=
  [ ("languageCode", vf_languageCode f);
    ("rubrique", vf_rubrique f);
    ("productCode", vf_productCode f) ].

Definition entryText (e : string * option string) : string :=
  fst e ++ ":" ++ match snd e with Some v => v | None => "" end.

Definition buildCacheKey (query : string) (f : VariantFilters) : string :=
  let filterString :=
    join "|"
      (sortStrings
         (map entryText
            (filter (fun e => truthyStr (snd e)) (filterEntries f)))) in
  "rag:" ++ query ++ ":" ++ filterString.

(** [pushVariant] of buildQueryVariants; a variant is given without
    its cache key. *)
Definition pushVariant (cfg : Config) (variants : list Variant)
           (q : string) (w : Q) (r : string) (f : VariantFilters)
           (fallback : bool) : list Variant :=
  if Qle_bool (maxQueryVariants cfg)
              (inject_Z (Z.of_nat (List.length variants)))
  then variants
  else variants ++ [mkVariant q w r f fallback (buildCacheKey q f)].

(** The [forEach] over the synonym variants, with its index. *)
Fixpoint pushSynonyms (cfg : Config) (baseFilters : VariantFilters)
         (index : nat) (keywordVariants : list string)
         (variants : list Variant) : list Variant :=
  match keywordVariants with
  | [] => variants
  | variantQuery :: rest =>
      pushSynonyms cfg baseFilters (S index) rest
        (pushVariant cfg variants variantQuery
           (Qmax 0.3 (1 - inject_Z (Z.of_nat (index + 1)) * variantDecay cfg))
           "synonym" baseFilters (index =? 0))
  end.

Definition isGeneral (o : option string) : bool :=
  strictEq o (Some "general").

(** [buildQueryVariants(query, session)] *)
Definition buildQueryVariants (cfg : Config) (q : string) (session : Session)
  : Result (list Variant) :=
  let baseFilters :=
    mkVariantFilters (languageCode session) (s_rubrique session)
                     (productCode session) in
  let v0 := pushVariant cfg [] q 1 "base" baseFilters true in
  let v1 :=
    match productCode session with
    | Some pc =>
        if truthyStr (Some pc)
        then pushVariant cfg v0 (trim (pc ++ " " ++ q))
               (1 - variantDecay cfg) "product"
               (mkVariantFilters (languageCode session) (s_rubrique session)
                                 (productCode session))
               true
        else v0
    | None => v0
    end in
  let v2 :=
    match s_rubrique session with
    | Some rub =>
        if truthyStr (Some rub) && negb (isGeneral (Some rub))
        then pushVariant cfg v1 (trim (replaceFirst "_" " " rub ++ " " ++ q))
               (1 - variantDecay cfg) "rubrique"
               (mkVariantFilters (languageCode session) (s_rubrique session)
                                 (productCode session))
               false
        else v1
    | None => v1
    end in
  bind (expandSynonyms q)
       (fun keywordVariants =>
          Ok (pushSynonyms cfg baseFilters 0 keywordVariants v2)).

(** [buildFilters(session, variant)] *)
Definition buildFilters (cfg : Config) (session : Session) (v : Variant)
  : Filters :=
  {| f_languageCode := languageCode session;
     f_limit := Some (maxCandidatesPerVariant cfg);
     f_rubrique :=
       if truthyStr (vf_rubrique (filters v)) then vf_rubrique (filters v)
       else if truthyStr (s_rubrique session)
               && negb (isGeneral (s_rubrique session))
            then s_rubrique session
            else None;
     f_productRef :=
       if truthyStr (vf_productCode (filters v))
       then vf_productCode (filters v)
       else if truthyStr (productCode session) then productCode session
            else None |}.

(** [normalizeFilters(filters)]: falsy entries are left out. *)
Definition keepStr (o : option string) : option string :=
  if truthyStr o then o else None.

Definition keepNum (o : option Q) : option Q :=
  match o with
  | Some q => if Qeq_bool q 0 then None else Some q
  | None => None
  end.

Definition normalizeFilters (f : Filters) : Filters :=
  {| f_languageCode := keepStr (f_languageCode f);
     f_rubrique := keepStr (f_rubrique f);
     f_productRef := keepStr (f_productRef f);
     f_limit := keepNum (f_limit f) |}.

Definition optStrEqb (a b : option string) : bool := strictEq a b.

Definition optNumEqb (a b : option Q) : bool :=
  match a, b with
  | Some x, Some y => Qeq_bool x y
  | None, None => true
  | _, _ => false
  end.

(** Equality of the [JSON.stringify] keys of two filter objects. *)
Definition sameKey (a b : Filters) : bool :=
  optStrEqb (f_languageCode a) (f_languageCode b)
  && optStrEqb (f_rubrique a) (f_rubrique b)
  && optStrEqb (f_productRef a) (f_productRef b)
  && optNumEqb (f_limit a) (f_limit b).

Definition pushFilters (acc : list Filters) (f : Filters) : list Filters :=
  if existsb (sameKey f) acc then acc else acc ++ [f].

(** [buildFallbackFilterVariants(filters)] *)
Definition buildFallbackFilterVariants (f : Filters) : list Filters :=
  let n := normalizeFilters f in
  let a0 := pushFilters [] n in
  let a1 :=
    if truthyStr (f_productRef n)
    then pushFilters a0 (mkFilters (f_languageCode n) (f_rubrique n) None
                                   (f_limit n))
    else a0 in
  let a2 :=
    if truthyStr (f_rubrique n)
    then pushFilters a1 (mkFilters (f_languageCode n) None (f_productRef n)
                                   (f_limit n))
    else a1 in
  let a3 := pushFilters a2 (mkFilters (f_languageCode n) None None (f_limit n)) in
  let a4 := pushFilters a3 (mkFilters (f_languageCode n) None None (f_limit n)) in
  pushFilters a4 (mkFilters None None None (f_limit n)).


(** *** The candidate store and the cache, as [retrieve] sees them *)

(** What an awaited store call does: it throws, or it returns
    [null]/[undefined], or it returns rows. *)
Inductive StoreReply :=
| Throws
| NoRows
| Rows (rows : list Row).

Record Store := mkStore
  { searchFaqs : string -> Filters -> StoreReply;
    searchFaqContent : string -> Filters -> StoreReply }.

(** [this.cache]: absent, or a CacheService holding row lists. *)
Definition CacheState := option (CacheService.t (list Row)).

(** [getCachedResults(cacheKey, query, filters)], run at time [now] *)
Definition getCachedResults (cfg : Config) (db : Store) (now : Z)
           (key q : string) (f : Filters) (c : CacheState)
  : CacheState * option (list Row) :=
  let lookupResult :=
    match c with
    | Some cs => let (cs', hit) := CacheService.get now key cs in
                 (Some cs', hit)
    | None => (None, None)
    end in
  match lookupResult with
  | (c1, Some cached) => (c1, Some cached)
  | (c1, None) =>
      match searchFaqs db q f with
      | Rows results =>
          (match c1 with
           | Some cs =>
               Some (CacheService.set now key results (Some (cacheTtl cfg)) cs)
           | None => None
           end,
           Some results)
      | NoRows => (c1, None)
      | Throws => (c1, None)
      end
  end.

(** The loop of [searchFallback]: the first non-empty answer wins; a
    throwing call is logged and the loop goes on. *)
Fixpoint firstContent (db : Store) (q : string) (limitOverride : Q)
         (fallbackFilters : list Filters) : option (list Row) :=
  match fallbackFilters with
  | [] => None
  | v :: rest =>
      let variantFilters :=
        mkFilters (f_languageCode v) (f_rubrique v) (f_productRef v)
                  (Some limitOverride) in
      match searchFaqContent db q variantFilters with
      | Rows (r :: results) => Some (r :: results)
      | _ => firstContent db q limitOverride rest
      end
  end.

(** [searchFallback(query, filters)] *)
Definition searchFallback (cfg : Config) (db : Store) (q : string)
           (f : Filters) : option (list Row) :=
  let limitOverride :=
    Qmin (orQ (f_limit f) (maxCandidatesPerVariant cfg))
         (fallbackLimit cfg) in
  firstContent db q limitOverride (buildFallbackFilterVariants f).

(** *** Scoring *)

Definition dayMs : Z := (24 * 60 * 60 * 1000)%Z.

Definition recentCutoff (cfg : Config) (now : Z) : Z :=
  (now - recencyBoostDays cfg * dayMs)%Z.

(** The recency boost added for a row updated at [updatedAt]. *)
Definition recencyBoost (cfg : Config) (now updatedAt : Z) : Q :=
  (0.1 + (inject_Z (updatedAt - recentCutoff cfg now)
          / inject_Z (now - recentCutoff cfg now + 1)) * 0.1)%Q.

(** The body of the [map] in [scoreResults]. *)
Definition scoreRow (cfg : Config) (now : Z) (v : Variant)
           (session : Session) (result : Row) : Q :=
  let baseScore :=
    orQ (enhanced_relevance result) (orQ (relevance result) 0.2) in
  let s0 := (baseScore * weight v)%Q in
  let s1 :=
    if truthyStr (productCode session)
       && strictEq (product_ref result) (productCode session)
    then (s0 + productBoost cfg)%Q else s0 in
  let s2 :=
    if truthyStr (s_rubrique session)
       && strictEq (rubrique result) (s_rubrique session)
    then (s1 + rubriqueBoost cfg)%Q else s1 in
  match last_updated result with
  | DateAt updatedAt =>
      if (updatedAt >=? recentCutoff cfg now)%Z
      then (s2 + recencyBoost cfg now updatedAt)%Q
      else s2
  | _ => s2
  end.

(** [scoreResults(results, variant, session)], run at time [now] *)
Definition scoreResults (cfg : Config) (now : Z) (results : list Row)
           (v : Variant) (session : Session) : list Candidate :=
  map (fun result =>
         mkCandidate (id result) result (reason v) (weight v)
                     (scoreRow cfg now v session result))
      results.

(** *** Aggregation and ranking *)

(** One step of the [forEach] in [aggregateCandidates]; the [Map] keeps
    the position of the identifier's first occurrence. *)
Fixpoint mergeCandidate (c : Candidate) (m : list Aggregated)
  : list Aggregated :=
  match m with
  | [] => [mkAggregated (faqId c) (row c) (score c) [variantReason c]]
  | existing :: m' =>
      if (faqId c =? a_faqId existing)%Z
      then mkAggregated (a_faqId existing) (a_row existing)
                        (Qmax (a_score existing) (score c))
                        (a_sources existing ++ [variantReason c])
           :: m'
      else existing :: mergeCandidate c m'
  end.

(** [aggregateCandidates(candidates)] *)
Definition aggregateCandidates (candidates : list Candidate)
  : list Aggregated :=
  fold_left (fun m c => mergeCandidate c m) candidates [].

(** [Array.prototype.sort] is stable; with the comparator
    [(a, b) => b.score - a.score] an element goes before the first one
    of the sorted rest whose score is not strictly greater. *)
Fixpoint insertByScore (x : Aggregated) (l : list Aggregated)
  : list Aggregated :=
  match l with
  | [] => [x]
  | y :: l' =>
      if Qle_bool (a_score y) (a_score x)
      then x :: l
      else y :: insertByScore x l'
  end.

Definition sortByScore (l : list Aggregated) : list Aggregated :=
  fold_right insertByScore [] l.

(** [.map((entry, index) => ({ ...entry, rank: index + 1 }))] *)
Fixpoint withRanks (index : nat) (l : list Aggregated) : list Ranked :=
  match l with
  | [] => []
  | e :: l' => mkRanked e (index + 1) :: withRanks (S index) l'
  end.

Definition rankCandidates (candidates : list Candidate) : list Ranked :=
  withRanks 0 (sortByScore (aggregateCandidates candidates)).

Definition aboveFloor (cfg : Config) (r : Ranked) : bool :=
  Qle_bool (minScore cfg) (a_score (entry r)).

(** The selection at the end of [retrieve]. *)
Definition selectTop (cfg : Config) (ranked : list Ranked) : list Ranked :=
  let topK := sliceTo (topKResults cfg) ranked in
  match filter (aboveFloor cfg) topK with
  | [] => topK
  | aboveThreshold => aboveThreshold
  end.

(** *** [retrieve] *)

(** The [for] loop of [retrieve] from the variant at position [index]
    on; [clock index] is the time at which that variant is handled. *)
Fixpoint collect (cfg : Config) (db : Store) (clock : nat -> Z)
         (session : Session) (index : nat) (vs : list Variant)
         (c : CacheState) (candidates : list Candidate)
  : CacheState * list Candidate :=
  match vs with
  | [] => (c, candidates)
  | v :: rest =>
      let f := buildFilters cfg session v in
      let (c1, results) :=
        getCachedResults cfg db (clock index) (cacheKey v) (query v) f c in
      let results1 :=
        match results with
        | Some (r :: rs) => Some (r :: rs)
        | _ => if allowFallback v
               then searchFallback cfg db (query v) f
               else results
        end in
      let candidates1 :=
        match results1 with
        | Some (r :: rs) =>
            candidates ++ scoreResults cfg (clock index) (r :: rs) v session
        | _ => candidates
        end in
      collect cfg db clock session (S index) rest c1 candidates1
  end.

(** [retrieve(query, session)]: the cache after the call and the
    outcome ([Ok None] is [null]). *)
Definition retrieve (cfg : Config) (db : Store) (clock : nat -> Z)
           (c : CacheState) (q : string) (session : Session)
  : CacheState * Result (option Retrieval) :=
  let normalized := normalizeQuery q in
  match buildQueryVariants cfg normalized session with
  | TypeError => (c, TypeError)
  | Ok vs =>
      let (c1, candidates) := collect cfg db clock session 0 vs c [] in
      match candidates with
      | [] => (c1, Ok None)
      | _ =>
          let ranked := rankCandidates candidates in
          (c1, Ok (Some (mkRetrieval normalized vs ranked
                                     (selectTop cfg ranked))))
      end
  end.

End RagSearchService.

(** ** The answer matcher (class ChatService) *)

Module ChatService.
Import JsString Js Faq.

Record MatchResult := mkMatch
  { m_faqId : Z;
    m_question : option string;
    m_answer : string;
    m_score : Q;
    m_matchType : string }.

Definition a_grave : string := String (ascii_of_nat 224) EmptyString.
Definition o_u_grave : string :=
  String "o" (String (ascii_of_nat 249) EmptyString).

(** [stopWords] of extractQueryWords *)
Definition stopWords : list string :=
  [ "le"; "la"; "les"; "un"; "une"; "des"; "du"; "de"; "et"; "ou";
    a_grave; "au"; "aux"; "ce"; "cette"; "ces"; "comment"; "que"; "qui";
    "quoi"; o_u_grave; "quand"; "pourquoi"; "je"; "tu"; "il"; "elle";
    "nous"; "vous"; "ils"; "elles"; "puis"; "peux"; "peut"; "pouvez";
    "peuvent" ].

Definition isStopWord (w : string) : bool :=
  existsb (String.eqb w) stopWords.

Definition keepWord (w : string) : bool :=
  (2 <? String.length w) && negb (isStopWord w).

(** [extractQueryWords(query)] *)
Definition extractQueryWords (q : string) : list string :=
  map ChatStemmer.stemWord
      (filter keepWord (splitSpaces (replaceNonWord q))).

Definition keyPhrases : list string :=
  [ "contacter le support"; "contact support"; "joindre le support";
    "appeler le support"; "comment contacter"; "contacter";
    "puis-je contacter" ].

(** [calculateExactMatchScore(query, question)] *)
Definition calculateExactMatchScore (q question : string) : Q :=
  if includes question q then 1.0%Q
  else if includes q question then 0.9%Q
  else if existsb
            (fun phrase =>
               (includes q phrase || includes phrase q)
               && (includes question "contacter"
                   || includes question "contact"))
            keyPhrases
       then 0.9%Q
       else 0%Q.

Definition synonymMap : list (string * list string) :=
  [ ("contacter", ["contact"; "joindre"; "appeler"; "telephoner"; "ecrire";
                   "communication"]);
    ("contact", ["contacter"; "joindre"; "appeler"; "telephoner"; "ecrire";
                 "communication"]);
    ("support", ["aide"; "assistance"; "service"; "client"; "soutien"]);
    ("aide", ["support"; "assistance"; "service"; "soutien"]);
    ("horaire", ["heure"; "ouverture"; "fermeture"; "disponible";
                 "planning"]);
    ("prix", ["cout"; "tarif"; "montant"; "frais"; "facture"]);
    ("probleme", ["souci"; "difficulte"; "erreur"; "bug";
                  "dysfonctionnement"]);
    ("compte", ["profil"; "utilisateur"; "client"; "espace"]);
    ("produit", ["service"; "offre"; "solution"; "prestation"]);
    ("paiement", ["reglement"; "facture"; "transaction"; "versement"]);
    ("inscription", ["enregistrement"; "creation"; "souscription"]);
    ("connexion", ["login"; "authentification"; "acces"; "identification"]);
    ("joindre", ["contacter"; "contact"; "appeler"; "telephoner"]);
    ("appeler", ["contacter"; "contact"; "joindre"; "telephoner"]) ].

Definition member (w : string) (l : list string) : bool :=
  existsb (String.eqb w) l.

(** The loop of [calculateSemanticScore]; [getSynonyms(word)] is
    [synonymMap[word] || []], and [synonyms.some] of an inherited
    property is not a function. *)
Fixpoint semanticMatches (queryWords questionWords : list string)
         (matches : Q) : Result Q :=
  match queryWords with
  | [] => Ok matches
  | queryWord :: rest =>
      if member queryWord questionWords
      then semanticMatches rest questionWords (matches + 1)%Q
      else match lookup synonymMap queryWord with
           | OwnArray synonyms =>
               if existsb (fun syn => member syn questionWords) synonyms
               then semanticMatches rest questionWords (matches + 0.8)%Q
               else semanticMatches rest questionWords matches
           | InheritedValue => TypeError
           | Undefined => semanticMatches rest questionWords matches
           end
  end.

Definition lengthQ {A : Type} (l : list A) : Q :=
  inject_Z (Z.of_nat (List.length l)).

(** [calculateSemanticScore(queryWords, question)] *)
Definition calculateSemanticScore (queryWords : list string)
           (question : string) : Result Q :=
  match queryWords with
  | [] => Ok 0%Q
  | _ =>
      bind (semanticMatches queryWords (extractQueryWords question) 0)
           (fun matches => Ok (matches / lengthQ queryWords)%Q)
  end.

(** [calculatePartialMatchScore(query, question)] *)
Definition calculatePartialMatchScore (q question : string) : Q :=
  let queryWords := splitSpaces q in
  let partialMatches :=
    filter (fun word => (3 <? String.length word) && includes question word)
           queryWords in
  match queryWords with
  | [] => 0%Q
  | _ => (lengthQ partialMatches / lengthQ queryWords)%Q
  end.

(** [words.indexOf(w)] *)
Fixpoint indexOf (w : string) (l : list string) : option nat :=
  match l with
  | [] => None
  | x :: l' =>
      if String.eqb x w then Some 0
      else match indexOf w l' with
           | Some i => Some (S i)
           | None => None
           end
  end.

Definition inOrder (questionWords : list string) (w1 w2 : string) : bool :=
  match indexOf w1 questionWords, indexOf w2 questionWords with
  | Some i, Some j => i <? j
  | _, _ => false
  end.

(** The loop of [calculateWordOrderScore] over adjacent query words. *)
Fixpoint orderMatches (questionWords queryWords : list string) : nat :=
  match queryWords with
  | w1 :: ((w2 :: _) as rest) =>
      (if inOrder questionWords w1 w2 then 1 else 0)
      + orderMatches questionWords rest
  | _ => 0
  end.

(** [calculateWordOrderScore(queryWords, question)] *)
Definition calculateWordOrderScore (queryWords : list string)
           (question : string) : Q :=
  if List.length queryWords <? 2 then 0%Q
  else (inject_Z (Z.of_nat (orderMatches (extractQueryWords question)
                                         queryWords))
        / inject_Z (Z.of_nat (List.length queryWords - 1)))%Q.

(** [getMatchType(exactScore, semanticScore, partialScore)] *)
Definition getMatchType (exactScore semanticScore partialScore : Q)
  : string :=
  if Qle_bool exactScore 0.8 then
    if Qle_bool semanticScore 0.7 then
      if Qle_bool partialScore 0.6 then "weak" else "partial"
    else "semantic"
  else "exact".

(** The state of the search: [bestMatch] and [bestScore]. *)
Definition Best : Type := option MatchResult * Q.

(** The body of the inner loop for one entry of the payload; a
    [TypeError] leaves the row's [try] block. *)
Definition matchEntry (threshold : Q) (queryLower : string)
           (queryWords : list string) (faq : Row)
           (qaEntry : option QaEntry) (best : Best) : Result Best :=
  match qaEntry with
  | Some e =>
      match code e, data e with
      | Some c, Some d =>
          if String.eqb c "app.faq_entry" then
            let question :=
              toLowerCase (match question d with
                           | Some q => q
                           | None => ""
                           end) in
            let answer := match answer d with
                          | Some a => a
                          | None => ""
                          end in
            let exactScore := calculateExactMatchScore queryLower question in
            bind (calculateSemanticScore queryWords question)
              (fun semanticScore =>
                 let partialScore :=
                   calculatePartialMatchScore queryLower question in
                 let wordOrderScore :=
                   calculateWordOrderScore queryWords question in
                 let totalScore :=
                   (exactScore * 0.4 + semanticScore * 0.3
                    + partialScore * 0.2 + wordOrderScore * 0.1)%Q in
                 let dbRelevance :=
                   orQ (enhanced_relevance faq) (orQ (relevance faq) 0) in
                 let finalScore := (totalScore + dbRelevance * 0.1)%Q in
                 if negb (Qle_bool finalScore (snd best))
                    && Qle_bool threshold finalScore
                 then Ok (Some (mkMatch (id faq) (Faq.question d) answer
                                        finalScore
                                        (getMatchType exactScore
                                           semanticScore partialScore)),
                          finalScore)
                 else Ok best)
          else Ok best
      | _, _ => Ok best
      end
  | None => Ok best
  end.

(** The inner loop; when an entry raises, the entries before it have
    already updated the state and the remaining ones are skipped. *)
Fixpoint matchEntries (threshold : Q) (queryLower : string)
         (queryWords : list string) (faq : Row)
         (qaEntries : list (option QaEntry)) (best : Best) : Best :=
  match qaEntries with
  | [] => best
  | qaEntry :: rest =>
      match matchEntry threshold queryLower queryWords faq qaEntry best with
      | Ok best' =>
          matchEntries threshold queryLower queryWords faq rest best'
      | TypeError => best
      end
  end.

(** The body of the outer loop for one row, with its [try]/[catch]. *)
Definition matchRow (threshold : Q) (queryLower : string)
           (queryWords : list string) (best : Best) (faq : Row) : Best :=
  match qa_data faq with
  | QaMalformed => best
  | QaList entries =>
      matchEntries threshold queryLower queryWords faq entries best
  | QaSingle e =>
      matchEntries threshold queryLower queryWords faq [e] best
  end.

(** [findBestQAMatchEnhanced(query, faqResults, language)];
    [searchThreshold] is [this.config.searchThreshold]. *)
Definition findBestQAMatchEnhanced (searchThreshold : option Q)
           (q : string) (faqResults : list Row) : option MatchResult :=
  let queryLower := trim (toLowerCase q) in
  let queryWords := extractQueryWords queryLower in
  let threshold := orQ searchThreshold 0.3 in
  fst (fold_left (matchRow threshold queryLower queryWords)
                 faqResults (None, 0%Q)).

End ChatService.

(** ** Statements taken from the specification, for comparison *)

Module Claimed.
Import JsString.

(** "stem(word) removes the longest suffix of the word that appears in
    the table": no suffix of the table that ends the word and leaves at
    least three characters is longer than what [stem] removed. *)
Definition removesLongestSuffix (table : list string)
           (stem : string -> string) : Prop :=
  forall word suffix,
    In suffix table ->
    endsWith word suffix = true ->
    String.length suffix + 2 < String.length word ->
    String.length suffix <= String.length word - String.length (stem word).

(** The scoring formula in the specification's words: [??] falls back
    only on [null]/[undefined], the boosts are added on equality, and
    the recency boost when the update lies in the window. *)
Definition baseScore (r : Faq.Row) : Q :=
  match Faq.enhanced_relevance r with
  | Some e => e
  | None => match Faq.relevance r with
            | Some x => x
            | None => 0.2%Q
            end
  end.

Definition score (cfg : RagSearchService.Config) (now : Z)
           (v : RagSearchService.Variant)
           (session : RagSearchService.Session) (r : Faq.Row) : Q :=
  (baseScore r * RagSearchService.weight v
   + (if Js.strictEq (Faq.product_ref r)
                     (RagSearchService.productCode session)
      then RagSearchService.productBoost cfg else 0)
   + (if Js.strictEq (Faq.rubrique r)
                     (RagSearchService.s_rubrique session)
      then RagSearchService.rubriqueBoost cfg else 0)
   + match Faq.last_updated r with
     | Faq.DateAt u =>
         if ((RagSearchService.recentCutoff cfg now <=? u)
             && (u <=? now))%Z
         then RagSearchService.recencyBoost cfg now u
         else 0
     | _ => 0
     end)%Q.

End Claimed.

(** ** The scoring formula, as the code applies it *)

Module Scoring.
Import Faq RagSearchService.

(** A JavaScript value used as the left operand of [||] is skipped
    when it is [null], [undefined] or zero. *)
Definition falsy (o : option Q) : Prop :=
  o = None \/ exists q, o = Some q /\ (q == 0)%Q.

Inductive BaseScore (r : Row) : Q -> Prop :=
| base_enhanced (e : Q) :
    enhanced_relevance r = Some e -> ~ (e == 0)%Q -> BaseScore r e
| base_relevance (x : Q) :
    falsy (enhanced_relevance r) ->
    relevance r = Some x -> ~ (x == 0)%Q -> BaseScore r x
| base_default :
    falsy (enhanced_relevance r) -> falsy (relevance r) ->
    BaseScore r 0.2%Q.

(** The session names a non-empty value and the row carries the very
    same one. *)
Definition sameAs (sessionValue rowValue : option string) : Prop :=
  exists s, sessionValue = Some s /\ s <> EmptyString /\ rowValue = Some s.

Inductive Boost (applies : Prop) (amount : Q) : Q -> Prop :=
| boost_added : applies -> Boost applies amount amount
| boost_skipped : ~ applies -> Boost applies amount 0%Q.

Inductive Recency (cfg : Config) (now : Z) (r : Row) : Q -> Prop :=
| recency_added (u : Z) :
    last_updated r = DateAt u ->
    (recentCutoff cfg now <= u)%Z ->
    Recency cfg now r
      (0.1 + (inject_Z (u - recentCutoff cfg now)
              / inject_Z (now - recentCutoff cfg now + 1)) * 0.1)%Q
| recency_old (u : Z) :
    last_updated r = DateAt u ->
    (u < recentCutoff cfg now)%Z ->
    Recency cfg now r 0%Q
| recency_undated :
    (forall u, last_updated r <> DateAt u) ->
    Recency cfg now r 0%Q.

(** Candidate [c] is row [r] scored for variant [v]. *)
Definition ScoredAs (cfg : Config) (now : Z) (v : Variant)
           (session : Session) (r : Row) (c : Candidate) : Prop :=
  row c = r /\ faqId c = id r
  /\ variantReason c = reason v /\ variantWeight c = weight v
  /\ exists base product category recency : Q,
      BaseScore r base
      /\ Boost (sameAs (productCode session) (product_ref r))
               (productBoost cfg) product
      /\ Boost (sameAs (s_rubrique session) (rubrique r))
               (rubriqueBoost cfg) category
      /\ Recency cfg now r recency
      /\ (score c == base * weight v + product + category + recency)%Q.

End Scoring.

(** ** What aggregation leaves of the candidates of one identifier *)

Module Merging.
Import Faq RagSearchService.

(** The candidates that carry identifier [i], in accumulation order. *)
Definition contributions (i : Z) (cs : list Candidate) : list Candidate :=
  filter (fun c => (faqId c =? i)%Z) cs.

(** Entry [e] merges the candidates of identifier [i]: it carries the
    greatest of their scores and one reason tag per candidate, in
    order. *)
Definition MergedFrom (cs : list Candidate) (i : Z) (e : Aggregated)
  : Prop :=
  a_faqId e = i
  /\ contributions i cs <> []
  /\ a_sources e = map variantReason (contributions i cs)
  /\ Forall (fun c => (score c <= a_score e)%Q) (contributions i cs)
  /\ Exists (fun c => a_score e = score c) (contributions i cs).

(** The entry created for a first candidate, and an entry after one
    more candidate of its identifier. *)
Definition fresh (c : Candidate) : Aggregated :=
  mkAggregated (faqId c) (row c) (score c) [variantReason c].

Definition absorbed (e : Aggregated) (c : Candidate) : Aggregated :=
  mkAggregated (a_faqId e) (a_row e) (Qmax (a_score e) (score c))
               (a_sources e ++ [variantReason c]).

(** The map built so far describes the candidates seen so far. *)
Definition Describes (cs : list Candidate) (m : list Aggregated) : Prop :=
  NoDup (map a_faqId m)
  /\ (forall e, In e m -> MergedFrom cs (a_faqId e) e)
  /\ (forall c, In c cs -> In (faqId c) (map a_faqId m)).

End Merging.

(** ** Orderings of a list of weights *)

Module Weights.

(** [R] holds between every element and its successor. *)
Fixpoint adjacent (R : Q -> Q -> Prop) (ws : list Q) : Prop :=
  match ws with
  | a :: ((b :: _) as rest) => R a b /\ adjacent R rest
  | _ => True
  end.

Definition nonIncreasing (ws : list Q) : Prop :=
  adjacent (fun a b => (b <= a)%Q) ws.

Definition strictlyDecreasing (ws : list Q) : Prop :=
  adjacent (fun a b => (b < a)%Q) ws.

(** The weight of the synonym variant of index [index]. *)
Definition synonymWeight (decay : Q) (index : nat) : Q :=
  Qmax 0.3 (1 - inject_Z (Z.of_nat (index + 1)) * decay).

Definition isSynonym (v : RagSearchService.Variant) : bool :=
  String.eqb (RagSearchService.reason v) "synonym".

(** The synonym variants, were there no cap. *)
Fixpoint synonymVariants (decay : Q) (bf : RagSearchService.VariantFilters)
         (index : nat) (syns : list string)
  : list RagSearchService.Variant :=
  match syns with
  | [] => []
  | s :: rest =>
      RagSearchService.mkVariant
        s (synonymWeight decay index) "synonym" bf (index =? 0)
        (RagSearchService.buildCacheKey s bf)
      :: synonymVariants decay bf (S index) rest
  end.

(** The base variant of a query. *)
Definition baseVariant (q : string) (session : RagSearchService.Session)
  : RagSearchService.Variant :=
  let bf := RagSearchService.mkVariantFilters
              (RagSearchService.languageCode session)
              (RagSearchService.s_rubrique session)
              (RagSearchService.productCode session) in
  RagSearchService.mkVariant q 1 "base" bf true
                             (RagSearchService.buildCacheKey q bf).

(** No word of the query names a property inherited from
    [Object.prototype]. *)
Definition plainWords (q : string) : Prop :=
  Forall (fun w => Js.inherited w = false) (JsString.splitOn " " q).

End Weights.

(** ** A store that is down, and a cache without retrieval entries *)

Module Outage.
Import RagSearchService.

(** Every call to the candidate store throws. *)
Definition alwaysThrows (db : Store) : Prop :=
  (forall q f, searchFaqs db q f = Throws)
  /\ (forall q f, searchFaqContent db q f = Throws).

(** The cache is absent, or none of its keys is a retrieval key (they
    all start with "rag:"). *)
Definition noRetrievalEntry (c : CacheState) : Prop :=
  match c with
  | None => True
  | Some cs =>
      forall k e, In (k, e) (CacheService.cache cs) ->
                  JsString.startsWith k "rag:" = false
  end.

Definition down : Store :=
  mkStore (fun _ _ => Throws) (fun _ _ => Throws).

Definition retrievalKey (v : Variant) : Prop :=
  JsString.startsWith (cacheKey v) "rag:" = true.

End Outage.

(** ** The matcher on a row that holds the asked question *)

Module Matching.
Import JsString Faq ChatService.

(** The entries the inner loop goes through. *)
Definition entriesOf (payload : QaPayload) : list (option QaEntry) :=
  match payload with
  | QaMalformed => []
  | QaList entries => entries
  | QaSingle e => [e]
  end.

(** A well-formed entry with the given question. *)
Definition entryAsking (question : string) (answer : option string)
  : option QaEntry :=
  Some (mkQaEntry (Some "app.faq_entry")
                  (Some (mkQaData (Some question) answer))).

(** The question is the query up to case and surrounding white space. *)
Definition sameQuestion (q question : string) : Prop :=
  trim (toLowerCase question) = trim (toLowerCase q).

(** [faq.enhanced_relevance || faq.relevance || 0] *)
Definition dbRelevance (faq : Row) : Q :=
  Js.orQ (enhanced_relevance faq) (Js.orQ (relevance faq) 0).

(** A score that every entry asking the query reaches and that no entry
    without an exact match reaches. *)
Definition exactFloor (queryWords : list string) (faq : Row) : Q :=
  ((match queryWords with [] => 0.4 | _ => 0.7 end)
   + dbRelevance faq * 0.1)%Q.

(** The state of the search while the entries of [faq] are visited. *)
Definition Sound (queryWords : list string) (faq : Row) (best : Best)
  : Prop :=
  match fst best with
  | None => snd best = 0%Q
  | Some m =>
      snd best = m_score m
      /\ m_faqId m = id faq
      /\ (m_matchType m = "exact"
          \/ (m_score m < exactFloor queryWords faq)%Q)
  end.

End Matching.

(** ** Sample inputs *)

Module Sample.
Import Faq RagSearchService.

Definition entryOf (q a : string) : option QaEntry :=
  Some (mkQaEntry (Some "app.faq_entry")
                  (Some (mkQaData (Some q) (Some a)))).

(** A row with one question and no relevance. *)
Definition rowOf (i : Z) (q : string) : Row :=
  mkRow i None None None (QaList [entryOf q "answer"]) NoDate None None.

Definition openingHours : Row :=
  mkRow 1 (Some "Horaires") (Some "general") None
        (QaList [entryOf "Quels sont vos horaires ?" "De 9h a 18h."])
        NoDate (Some 0.5%Q) None.

(** A store that answers every full-text search with one row. *)
Definition healthy : Store :=
  mkStore (fun _ _ => Rows [openingHours]) (fun _ _ => NoRows).

Definition anonymous : Session := mkSession None None None.

Definition defaults : Config := configure emptyConfig.

Definition freshCache : CacheState :=
  Some (CacheService.create None None).

(** The letters e-acute, e-grave and a-grave. *)
Definition e_acute : ascii := ascii_of_nat 233.
Definition e_grave : ascii := ascii_of_nat 232.
Definition a_grave : ascii := ascii_of_nat 224.

(** The word "probleme" written with its grave accent. *)
Definition probleme : string := "probl" ++ String e_grave "me".

End Sample.

(** ** The other operations of the cache *)

Module CacheMore.
Section WithValue.
Variable V : Type.

(** [has(key)], read at time [now]: an expired entry is deleted. *)
Definition has (now : Z) (key : string) (c : CacheService.t V)
  : CacheService.t V * bool :=
  match JsMap.get String.eqb key (CacheService.cache c) with
  | None => (c, false)
  | Some entry =>
      if (now >? CacheService.expires entry)%Z
      then (fst (CacheService.delete key c), false)
      else (c, true)
  end.

(** [clear()]: the number of entries removed. *)
Definition clear (c : CacheService.t V) : CacheService.t V * nat :=
  (CacheService.mkCache [] [] (CacheService.maxEntries c)
                        (CacheService.ttl c) (CacheService.stats c),
   CacheService.size c).

(** [keys()], read at time [now]: the keys of the entries that have not
    expired, in insertion order. *)
Definition keys (now : Z) (c : CacheService.t V) : list string :=
  map fst
      (filter (fun p => (now <=? CacheService.expires (snd p))%Z)
              (CacheService.cache c)).

(** The first loop of [cleanup()]. *)
Definition expiredKeys (now : Z) (c : CacheService.t V) : list string :=
  map fst
      (filter (fun p => (now >? CacheService.expires (snd p))%Z)
              (CacheService.cache c)).

(** [cleanup()], run at time [now]. *)
Definition cleanup (now : Z) (c : CacheService.t V) : CacheService.t V :=
  fold_left (fun acc key => fst (CacheService.delete key acc))
            (expiredKeys now c) c.

(** The two maps of a cache list the same keys, each once. *)
Definition WellFormed (c : CacheService.t V) : Prop :=
  NoDup (map fst (CacheService.cache c))
  /\ map fst (CacheService.accessOrder c) = map fst (CacheService.cache c).

(** The calls a client makes. *)
Inductive Op :=
| OpSet (key : string) (v : V) (customTtl : option Z)
| OpGet (key : string)
| OpHas (key : string)
| OpDelete (key : string)
| OpCleanup
| OpClear.

Definition step (now : Z) (op : Op) (c : CacheService.t V)
  : CacheService.t V :=
  match op with
  | OpSet key v customTtl => CacheService.set now key v customTtl c
  | OpGet key => fst (CacheService.get now key c)
  | OpHas key => fst (has now key c)
  | OpDelete key => fst (CacheService.delete key c)
  | OpCleanup => cleanup now c
  | OpClear => fst (clear c)
  end.

(** A sequence of calls, each with the clock reading at which it runs. *)
Fixpoint run (trace : list (Z * Op)) (c : CacheService.t V)
  : CacheService.t V :=
  match trace with
  | [] => c
  | (now, op) :: rest => run rest (step now op c)
  end.

(** Every call runs at a later clock reading than the one before it,
    the first one after [last]. *)
Fixpoint advancing (last : Z) (trace : list (Z * Op)) : Prop :=
  match trace with
  | [] => True
  | (now, _) :: rest => (last < now)%Z /\ advancing now rest
  end.

(** No [set] of the trace uses the empty string as its key. *)
Definition namedKeys (trace : list (Z * Op)) : Prop :=
  Forall (fun p => match snd p with
                   | OpSet key _ _ => key <> EmptyString
                   | _ => True
                   end) trace.

(** The time to live that [set] applies. *)
Definition effectiveTtl (customTtl : option Z) (c : CacheService.t V) : Z :=
  match customTtl with
  | Some z => if (z =? 0)%Z then CacheService.ttl c else z
  | None => CacheService.ttl c
  end.

(** A number in a template literal, for an integer (of less than 22
    digits): its decimal digits. *)
Definition decimal (z : Z) : string := NilZero.string_of_int (Z.to_int z).

(** The key [`faq:${faqId}`] of [cacheFaq], [getCachedFaq] and
    [invalidateFaqCache]. *)
Definition faqKey (faqId : Z) : string := "faq:" ++ decimal faqId.

(** [cacheFaq(faqId, faq)], run at time [now] *)
Definition cacheFaq (now : Z) (faqId : Z) (faq : V) (c : CacheService.t V)
  : CacheService.t V :=
  CacheService.set now (faqKey faqId) faq (Some 600000%Z) c.

(** [getCachedFaq(faqId)], read at time [now] *)
Definition getCachedFaq (now : Z) (faqId : Z) (c : CacheService.t V)
  : CacheService.t V * option V :=
  CacheService.get now (faqKey faqId) c.

(** [invalidateFaqCache(faqId)], run at time [now]; [if (faqId)] is
    false for [null] and for 0. *)
Definition invalidateFaqCache (now : Z) (faqId : option Z)
           (c : CacheService.t V) : CacheService.t V :=
  let c1 := match faqId with
            | Some z => if (z =? 0)%Z then c
                        else fst (CacheService.delete (faqKey z) c)
            | None => c
            end in
  let keysToDelete :=
    filter (fun key => JsString.startsWith key "faq_search:") (keys now c1) in
  fold_left (fun acc key => fst (CacheService.delete key acc))
            keysToDelete c1.

(** The number of entries a cache can come to hold: [maxEntries]
    rounded up to a whole number, and one at least (a [set] into an
    empty cache finds nothing to evict). *)
Definition room (c : CacheService.t V) : nat :=
  Nat.max 1 (Js.ceilingCount (CacheService.maxEntries c)).

(** What a sequence of calls on an advancing clock keeps true: the maps
    agree, the room is respected, no entry was touched after [last],
    no key is the empty string. *)
Definition Bounded (last : Z) (c : CacheService.t V) : Prop :=
  WellFormed c
  /\ CacheService.size c <= room c
  /\ forall k t, In (k, t) (CacheService.accessOrder c) ->
                 (t <= last)%Z /\ k <> EmptyString.

End WithValue.

Arguments has {V}.
Arguments clear {V}.
Arguments keys {V}.
Arguments expiredKeys {V}.
Arguments cleanup {V}.
Arguments WellFormed {V}.
Arguments OpSet {V}.
Arguments OpGet {V}.
Arguments OpHas {V}.
Arguments OpDelete {V}.
Arguments OpCleanup {V}.
Arguments OpClear {V}.
Arguments cacheFaq {V}.
Arguments getCachedFaq {V}.
Arguments invalidateFaqCache {V}.
Arguments room {V}.
Arguments Bounded {V}.
Arguments step {V}.
Arguments run {V}.
Arguments advancing {V}.
Arguments namedKeys {V}.
Arguments effectiveTtl {V}.

End CacheMore.

(** ** Post-processing of the rows found by the store (class Database) *)

Module DatabaseSearch.
Import JsString Js Faq.

(** The entries that [calculateEnhancedRelevance] goes through: those of
    an array, or the single value. *)
Definition payloadEntries (payload : QaPayload) : list (option QaEntry) :=
  match payload with
  | QaMalformed => []
  | QaList entries => entries
  | QaSingle e => [e]
  end.

(** [questions] (or [answers]): the truthy field of every entry that
    has data, lowered. *)
Definition loweredFields (field : QaData -> option string)
           (entries : list (option QaEntry)) : list string :=
  flat_map (fun entry =>
              match entry with
              | Some e =>
                  match data e with
                  | Some d =>
                      match field d with
                      | Some text =>
                          if isEmpty text then [] else [toLowerCase text]
                      | None => []
                      end
                  | None => []
                  end
              | None => []
              end)
           entries.

Definition countQ (p : string -> bool) (l : list string) : Q :=
  inject_Z (Z.of_nat (List.length (filter p l))).

(** The body of the [reduce] over the search words. *)
Definition wordMatch (questions answers : list string) (title : string)
           (acc : Q) (word : string) : Q :=
  (acc + countQ (fun q => includes q word) questions * 0.8
       + countQ (fun a => includes a word) answers * 0.6
       + (if includes title word then 1 else 0) * 0.4)%Q.

(** [calculateEnhancedRelevance(row, normalizedSearch, searchWords)]; a
    payload that does not parse leaves the original score. *)
Definition calculateEnhancedRelevance (row : Row) (normalizedSearch : string)
           (searchWords : list string) : Q :=
  let score := orQ (relevance row) 0 in
  match qa_data row with
  | QaMalformed => score
  | payload =>
      let title :=
        toLowerCase (match title row with Some t => t | None => "" end) in
      let questions := loweredFields question (payloadEntries payload) in
      let answers := loweredFields answer (payloadEntries payload) in
      let score1 :=
        if existsb (fun q => includes q normalizedSearch) questions
           || existsb (fun a => includes a normalizedSearch) answers
           || includes title normalizedSearch
        then (score + 2.0)%Q else score in
      (score1 + fold_left (wordMatch questions answers title) searchWords 0)%Q
  end.

(** [row.enhanced_relevance = enhancedScore] *)
Definition withEnhanced (row : Row) (enhancedScore : Q) : Row :=
  mkRow (id row) (title row) (rubrique row) (product_ref row) (qa_data row)
        (last_updated row) (relevance row) (Some enhancedScore).

(** The loop of [deduplicateAndScore]; [seenIds] is the [Set]. *)
Fixpoint uniqueResults (normalizedSearch : string) (searchWords : list string)
         (seenIds : list Z) (rows : list Row) : list Row :=
  match rows with
  | [] => []
  | row :: rest =>
      if existsb (Z.eqb (id row)) seenIds
      then uniqueResults normalizedSearch searchWords seenIds rest
      else withEnhanced row
             (calculateEnhancedRelevance row normalizedSearch searchWords)
           :: uniqueResults normalizedSearch searchWords
                            (id row :: seenIds) rest
  end.

(** The number the comparator reads in [enhanced_relevance]. *)
Definition enhanced (row : Row) : Q :=
  match enhanced_relevance row with Some q => q | None => 0 end.

(** The stable sort with [(a, b) => b.enhanced_relevance -
    a.enhanced_relevance]. *)
Fixpoint insertByRelevance (x : Row) (l : list Row) : list Row :=
  match l with
  | [] => [x]
  | y :: l' =>
      if Qle_bool (enhanced y) (enhanced x) then x :: l
      else y :: insertByRelevance x l'
  end.

(** [deduplicateAndScore(rows, normalizedSearch, searchWords)] *)
Definition deduplicateAndScore (rows : list Row) (normalizedSearch : string)
           (searchWords : list string) : list Row :=
  fold_right insertByRelevance []
             (uniqueResults normalizedSearch searchWords [] rows).

Definition e_grave : ascii := ascii_of_nat 232.
Definition u_grave : ascii := ascii_of_nat 249.

(** [stopWords] of extractSearchWords *)
Definition stopWords : list string :=
  [ "le"; "la"; "les"; "un"; "une"; "des"; "du"; "de"; "et"; "ou";
    ChatService.a_grave; "au"; "aux"; "ce"; "cette"; "ces"; "mon"; "ma";
    "mes"; "ton"; "ta"; "tes"; "son"; "sa"; "ses"; "que"; "qui"; "quoi";
    "dont"; String "o" (String u_grave ""); "je"; "tu"; "il"; "elle";
    "nous"; "vous"; "ils"; "elles"; "me"; "te"; "se"; "nous"; "vous"; "se";
    "sur"; "sous"; "dans"; "par"; "pour"; "avec"; "sans"; "entre"; "chez";
    "vers"; "depuis"; "pendant"; "avant";
    ("apr" ++ String e_grave "s")%string; "mais"; "car"; "donc"; "or"; "ni"; "soit" ].

Definition keepWord (w : string) : bool :=
  (2 <? String.length w) && negb (existsb (String.eqb w) stopWords).

(** [extractSearchWords(normalizedSearch)] *)
Definition extractSearchWords (normalizedSearch : string) : list string :=
  map Database.stemWord (filter keepWord (splitOn " " normalizedSearch)).

(** The class [[.*+?^${}()|[\]\\]] of buildWordRegex. *)
Definition isRegexMeta (c : ascii) : bool :=
  existsb (Ascii.eqb c)
          [ "."%char; "*"%char; "+"%char; "?"%char; "^"%char; "$"%char;
            "{"%char; "}"%char; "("%char; ")"%char; "|"%char; "["%char;
            "]"%char; "\"%char ].

(** [word.replace(/[.*+?^${}()|[\]\\]/g, '\\$&')]: a backslash goes
    before every character of the class. *)
Fixpoint escapeRegex (word : string) : string :=
  match word with
  | EmptyString => EmptyString
  | String c rest =>
      if isRegexMeta c then String "\" (String c (escapeRegex rest))
      else String c (escapeRegex rest)
  end.

(** [buildWordRegex(words)] *)
Definition buildWordRegex (words : list string) : string :=
  match words with
  | [] => "(?!x)x"
  | _ => "\b(" ++ join "|" (map escapeRegex words) ++ ")\b"
  end.

(** The first occurrence of each identifier, scored. *)
Definition firstOf (rows : list Row) (normalizedSearch : string)
           (searchWords : list string) (r : Row) : Prop :=
  exists before row after,
    rows = before ++ row :: after
    /\ ~ In (id row) (map id before)
    /\ r = withEnhanced row
             (calculateEnhancedRelevance row normalizedSearch searchWords).

(** [a] does not score below [b]. *)
Definition above (a b : Row) : Prop := (enhanced b <= enhanced a)%Q.

End DatabaseSearch.

(** ** Vocabulary of the statements about the best match *)

Module BestMatch.
Import JsString Js Faq ChatService.

(** [finalScore] of an entry with data [d] in the row [faq], as the
    inner loop of findBestQAMatchEnhanced computes it. *)
Definition entryScore (queryLower : string) (queryWords : list string)
           (faq : Row) (d : QaData) : Result Q :=
  let question :=
    toLowerCase (match question d with Some q => q | None => "" end) in
  let exactScore := calculateExactMatchScore queryLower question in
  bind (calculateSemanticScore queryWords question)
       (fun semanticScore =>
          let partialScore := calculatePartialMatchScore queryLower question in
          let wordOrderScore := calculateWordOrderScore queryWords question in
          let totalScore :=
            (exactScore * 0.4 + semanticScore * 0.3
             + partialScore * 0.2 + wordOrderScore * 0.1)%Q in
          let dbRelevance :=
            orQ (enhanced_relevance faq) (orQ (relevance faq) 0) in
          Ok (totalScore + dbRelevance * 0.1)%Q).

(** The entries the loop scores: those with the code "app.faq_entry"
    and data. *)
Definition scored (faq : Row) (d : QaData) : Prop :=
  exists e, In (Some e) (Matching.entriesOf (qa_data faq))
            /\ code e = Some "app.faq_entry"
            /\ data e = Some d.

(** [m] reports a scored entry of one of the rows, with its score. *)
Definition reports (queryLower : string) (queryWords : list string)
           (rows : list Row) (m : MatchResult) : Prop :=
  exists faq d,
    In faq rows
    /\ scored faq d
    /\ m_faqId m = id faq
    /\ m_question m = question d
    /\ m_answer m = match answer d with Some a => a | None => "" end
    /\ entryScore queryLower queryWords faq d = Ok (m_score m).

(** The state of the search after some of the rows. *)
Definition Tracks (threshold : Q) (queryLower : string)
           (queryWords : list string) (rows : list Row) (best : Best)
  : Prop :=
  (0 <= snd best)%Q
  /\ match fst best with
     | None => snd best = 0%Q
     | Some m =>
         snd best = m_score m
         /\ (0 < m_score m)%Q
         /\ (threshold <= m_score m)%Q
         /\ reports queryLower queryWords rows m
         /\ In (m_matchType m) ["exact"; "semantic"; "partial"; "weak"]
     end.

End BestMatch.

(** ** The earlier similarity measure (ChatService.calculateTextSimilarity) *)

Module TextSimilarity.
Import JsString ChatService.

(** [normalizeText] of calculateTextSimilarity *)
Definition normalizeText (text : string) : list string :=
  map ChatStemmer.stemWord
      (filter (fun w => 2 <? String.length w)
              (splitOn " " (trim (collapseSpaces (replaceNonWord text))))).

(** [calculateExactMatches(queryWords, questionWords)] *)
Definition calculateExactMatches (queryWords questionWords : list string)
  : Q :=
  let matches :=
    fold_left (fun matches queryWord =>
                 if member queryWord questionWords
                 then (matches + 1)%Q else matches)
              queryWords 0%Q in
  match queryWords with
  | [] => 0%Q
  | _ => (matches / lengthQ queryWords)%Q
  end.

(** [calculatePartialMatches(queryWords, questionWords)] *)
Definition calculatePartialMatches (queryWords questionWords : list string)
  : Q :=
  let matches :=
    fold_left (fun matches queryWord =>
                 if existsb (fun qw => includes qw queryWord
                                       || includes queryWord qw)
                            questionWords
                 then (matches + 0.7)%Q else matches)
              queryWords 0%Q in
  match queryWords with
  | [] => 0%Q
  | _ => (matches / lengthQ queryWords)%Q
  end.

(** [synonyms] of calculateSemanticMatches, in the order of
    [Object.entries]. *)
Definition synonyms : list (string * list string) :=
  [ ("contact", ["contacter"; "joindre"; "appeler"; "telephoner"; "ecrire"]);
    ("support", ["aide"; "assistance"; "service"; "client"]);
    ("horaire", ["heure"; "ouverture"; "fermeture"; "disponible"]);
    ("prix", ["cout"; "tarif"; "montant"; "frais"]);
    ("probleme", ["souci"; "difficulte"; "erreur"; "bug"]);
    ("compte", ["profil"; "utilisateur"; "client"]);
    ("produit", ["service"; "offre"; "solution"]);
    ("paiement", ["reglement"; "facture"; "transaction"]);
    ("inscription", ["enregistrement"; "creation"; "compte"]);
    ("connexion", ["login"; "authentification"; "acces"]) ].

(** The body of the inner loop of calculateSemanticMatches. *)
Definition semanticStep (questionWords : list string) (queryWord : string)
           (semanticScore : Q) (entry : string * list string) : Q :=
  let (key, syns) := entry in
  if String.eqb queryWord key || member queryWord syns
  then if member key questionWords
          || existsb (fun qw => member qw syns) questionWords
       then (semanticScore + 0.8)%Q
       else semanticScore
  else semanticScore.

(** [calculateSemanticMatches(queryWords, questionWords)] *)
Definition calculateSemanticMatches (queryWords questionWords : list string)
  : Q :=
  let semanticScore :=
    fold_left (fun score queryWord =>
                 fold_left (semanticStep questionWords queryWord)
                           synonyms score)
              queryWords 0%Q in
  match queryWords with
  | [] => 0%Q
  | _ => Qmin (semanticScore / lengthQ queryWords) 1.0
  end.

(** The loop of calculatePositionBonus from index [i] on, over the
    question words from that index up to [maxPosition]. *)
Fixpoint positionLoop (maxPosition i : nat) (queryWords : list string)
         (questionWords : list string) (positionScore : Q) : Q :=
  match questionWords with
  | [] => positionScore
  | w :: rest =>
      positionLoop maxPosition (S i) queryWords rest
        (if member w queryWords
         then (positionScore
               + inject_Z (Z.of_nat (maxPosition - i))
                 / inject_Z (Z.of_nat maxPosition))%Q
         else positionScore)
  end.

(** [calculatePositionBonus(queryWords, questionWords)] *)
Definition calculatePositionBonus (queryWords questionWords : list string)
  : Q :=
  let maxPosition := Nat.min (List.length questionWords) 5 in
  let positionScore :=
    positionLoop maxPosition 0 queryWords
                 (firstn maxPosition questionWords) 0%Q in
  match queryWords with
  | [] => 0%Q
  | _ => (positionScore / lengthQ queryWords)%Q
  end.

(** [calculateTextSimilarity(query, question)] *)
Definition calculateTextSimilarity (query question : string) : Q :=
  if isEmpty query || isEmpty question then 0%Q
  else
    let queryLower := trim (toLowerCase query) in
    let questionLower := trim (toLowerCase question) in
    if String.eqb queryLower questionLower then 1.0%Q
    else if includes questionLower queryLower
            || includes queryLower questionLower
    then 0.9%Q
    else
      let queryWords := normalizeText queryLower in
      let questionWords := normalizeText questionLower in
      match queryWords, questionWords with
      | [], _ => 0%Q
      | _, [] => 0%Q
      | _, _ =>
          let exactMatches :=
            calculateExactMatches queryWords questionWords in
          let partialMatches :=
            calculatePartialMatches queryWords questionWords in
          let semanticMatches :=
            calculateSemanticMatches queryWords questionWords in
          let positionBonus :=
            calculatePositionBonus queryWords questionWords in
          let similarity :=
            (exactMatches * 0.4 + partialMatches * 0.25
             + semanticMatches * 0.25 + positionBonus * 0.1)%Q in
          Qmin similarity 1.0
      end.

End TextSimilarity.

(** ** The query as the chat service cleans it (ChatService.normalizeQuery) *)

Module ChatQuery.
Import JsString.

(** The class [[?!.]] *)
Definition isMark (c : ascii) : bool :=
  Ascii.eqb c "?" || Ascii.eqb c "!" || Ascii.eqb c ".".

(** [s.replace(/[?!.]+$/, '')]: the run of marks that ends the text is
    removed. *)
Fixpoint stripMarks (s : string) : string :=
  match s with
  | EmptyString => EmptyString
  | String c s' =>
      match stripMarks s' with
      | EmptyString => if isMark c then EmptyString else String c EmptyString
      | t => String c t
      end
  end.

(** [normalizeQuery(query)] *)
Definition normalizeQuery (query : string) : string :=
  stripMarks (collapseSpaces (trim query)).

(** The last character of a text, if any. *)
Fixpoint lastChar (s : string) : option ascii :=
  match s with
  | EmptyString => None
  | String c EmptyString => Some c
  | String _ s' => lastChar s'
  end.

End ChatQuery.

(** ** Orderings used in the statements about ranking *)

Module Ranking.
Import RagSearchService.

(** [a] does not score below [b]. *)
Definition above (a b : Aggregated) : Prop := (a_score b <= a_score a)%Q.

Definition aboveRanked (x y : Ranked) : Prop := above (entry x) (entry y).

End Ranking.

(** ** Vocabulary of the statements about the fallback search *)

Module Fallback.
Import RagSearchService.

(** [v] keeps the limit of [n] and, for each other filter, either keeps
    the value [n] has or drops it. *)
Definition relaxes (n v : Filters) : Prop :=
  f_limit v = f_limit n
  /\ (f_languageCode v = f_languageCode n \/ f_languageCode v = None)
  /\ (f_rubrique v = f_rubrique n \/ f_rubrique v = None)
  /\ (f_productRef v = f_productRef n \/ f_productRef v = None).

(** The filters of the call made for the variant [v]. *)
Definition withLimit (limitOverride : Q) (v : Filters) : Filters :=
  mkFilters (f_languageCode v) (f_rubrique v) (f_productRef v)
            (Some limitOverride).

(** The store has rows for the query under the filters [v]. *)
Definition answers (db : Store) (q : string) (limitOverride : Q)
           (v : Filters) (rows : list Faq.Row) : Prop :=
  rows <> [] /\ searchFaqContent db q (withLimit limitOverride v) = Rows rows.

(** The call for [v] throws, or returns null or no row. *)
Definition silent (db : Store) (q : string) (limitOverride : Q)
           (v : Filters) : Prop :=
  forall rows, ~ answers db q limitOverride v rows.

(** [Math.min(filters.limit || maxCandidatesPerVariant, fallbackLimit)] *)
Definition limitOverride (cfg : Config) (f : Filters) : Q :=
  Qmin (Js.orQ (f_limit f) (maxCandidatesPerVariant cfg))
       (fallbackLimit cfg).

End Fallback.

(** A cache of numbers with room for two entries and a time to live of
    100 ms, and a short session on it. *)

Module CacheSample.

Definition empty : CacheService.t nat :=
  CacheService.create (Some 2%Q) (Some 100%Z).

Definition stocked : CacheService.t nat :=
  CacheService.set 2 "b" 20 None (CacheService.set 1 "a" 10 None empty).

Definition searches : CacheService.t nat :=
  CacheMore.cacheFaq 2 7 70
    (CacheService.set 1 "faq_search:prix:" 10 None empty).

Definition session : list (Z * CacheMore.Op nat) :=
  [ (1%Z, CacheMore.OpSet "a" 10 None);
    (2%Z, CacheMore.OpSet "b" 20 None);
    (3%Z, CacheMore.OpSet "c" 30 (Some 50%Z));
    (4%Z, CacheMore.OpGet "b");
    (200%Z, CacheMore.OpCleanup) ].

End CacheSample.

(** ** JavaScript strings as sequences of UTF-16 code units *)

Module Utf16.
Local Open Scope N_scope.

(** A string is the list of its code units. *)
Definition text := list N.

(** The code units of a string of the range 0..255. *)
Definition ofString (s : string) : text :=
  map N_of_ascii (list_ascii_of_string s).

(** [\s] and the characters removed by [trim]: TAB, LF, VT, FF, CR,
    space, the no-break space, U+1680, U+2000..U+200A, the line and the
    paragraph separators, U+202F, U+205F, U+3000 and U+FEFF. *)
Definition isSpace (u : N) : bool :=
  ((9 <=? u) && (u <=? 13)) || (u =? 32) || (u =? 160) || (u =? 0x1680)
  || ((0x2000 <=? u) && (u <=? 0x200a)) || (u =? 0x2028) || (u =? 0x2029)
  || (u =? 0x202f) || (u =? 0x205f) || (u =? 0x3000) || (u =? 0xfeff).

(** [\w] without the unicode flag: A-Z, a-z, 0-9 and underscore. *)
Definition isWordChar (u : N) : bool :=
  ((48 <=? u) && (u <=? 57)) || ((65 <=? u) && (u <=? 90))
  || (u =? 95) || ((97 <=? u) && (u <=? 122)).

(** The capital letters of the range 0..255. *)
Definition isUpper (u : N) : bool :=
  ((65 <=? u) && (u <=? 90))
  || ((192 <=? u) && (u <=? 222) && negb (u =? 215)).

(** The code units whose lower-case form [lowerUnit] writes out: the
    range 0..255, white space, U+0130 (capital I with a dot above) and
    U+212A (the Kelvin sign). *)
Definition tabled (u : N) : bool :=
  (u <? 256) || isSpace u || (u =? 0x130) || (u =? 0x212a).

Fixpoint trimStart (s : text) : text :=
  match s with
  | [] => []
  | u :: s' => if isSpace u then trimStart s' else s
  end.

Fixpoint trimEnd (s : text) : text :=
  match s with
  | [] => []
  | u :: s' =>
      match trimEnd s' with
      | [] => if isSpace u then [] else [u]
      | t => u :: t
      end
  end.

Definition trim (s : text) : text := trimEnd (trimStart s).

(** [s.replace(/[^\w\s]/g, ' ')]: without the unicode flag the pattern
    is matched against each code unit. *)
Definition blankNonWord (u : N) : N :=
  if isWordChar u || isSpace u then u else 32.

Definition replaceNonWord (s : text) : text := map blankNonWord s.

(** [s.replace(/\s+/g, ' ')] *)
Fixpoint collapseFrom (inRun : bool) (s : text) : text :=
  match s with
  | [] => []
  | u :: s' =>
      if isSpace u
      then (if inRun then collapseFrom true s'
            else 32 :: collapseFrom true s')
      else u :: collapseFrom false s'
  end.

Definition collapseSpaces (s : text) : text := collapseFrom false s.

Section Lowering.

(** [lowerRest before u after] stands for the lower-case form that
    [toLowerCase] gives to a code unit [u] outside the table, standing
    between [before] and [after] (the form of a capital sigma depends on
    its neighbours, and a surrogate is lowered together with the other
    half of its pair). *)
Variable lowerRest : text -> N -> text -> text.

(** The lower-case form of one code unit: U+0130 becomes [i] followed
    by the combining dot U+0307, and the Kelvin sign becomes [k]. *)
Definition lowerUnit (before : text) (u : N) (after : text) : text :=
  if isUpper u then [u + 32]
  else if u =? 0x130 then [0x69; 0x307]
  else if u =? 0x212a then [0x6b]
  else if tabled u then [u]
  else lowerRest before u after.

Fixpoint lowerFrom (before s : text) : text :=
  match s with
  | [] => []
  | u :: after =>
      lowerUnit before u after ++ lowerFrom (before ++ [u]) after
  end.

(** [s.toLowerCase()] *)
Definition toLowerCase (s : text) : text := lowerFrom [] s.

(** [normalizeQuery(query)] of the orchestrator *)
Definition normalizeQuery (query : text) : text :=
  trim (collapseSpaces (replaceNonWord (trim (toLowerCase query)))).

(** [normalizeSearchTerm(searchTerm)] of the store *)
Definition normalizeSearchTerm (searchTerm : text) : text :=
  trim (collapseSpaces (replaceNonWord (toLowerCase (trim searchTerm)))).

End Lowering.

(** What the statements assume of the lower-case forms outside the
    table: they are not empty and hold no ASCII word character (in the
    Unicode case tables the only characters beyond A-Z whose lower-case
    form has an ASCII letter are U+0130 and U+212A). *)
Definition blankForms (lowerRest : text -> N -> text -> text) : Prop :=
  forall before u after,
    tabled u = false ->
    lowerRest before u after <> []
    /\ Forall (fun v => isWordChar v = false) (lowerRest before u after).

(** The lowering that leaves every code unit outside the table as it
    is. *)
Definition unchanged (before : text) (u : N) (after : text) : text := [u].

(** What is left of a code unit in the normalized query: an ASCII word
    character in lower case, [i] and a separator for U+0130, [k] for
    the Kelvin sign, and a separator for any other unit. *)
Definition image (u : N) : string :=
  if isWordChar u
  then String (ascii_of_N (if isUpper u then u + 32 else u)) EmptyString
  else if u =? 0x130 then "i "%string
  else if u =? 0x212a then "k"%string
  else " "%string.

Fixpoint images (q : text) : string :=
  match q with
  | [] => EmptyString
  | u :: q' => (image u ++ images q')%string
  end.

(** The character of the range 0..255 that stands for a code unit in
    the comparison with [JsString]: the unit itself below 128, the
    no-break space for white space and U+0080 for any other unit. *)
Definition narrow (u : N) : ascii :=
  if u <? 128 then ascii_of_N u
  else if isSpace u then ascii_of_N 160
  else ascii_of_N 128.

Fixpoint project (t : text) : string :=
  match t with
  | [] => EmptyString
  | u :: t' => String (narrow u) (project t')
  end.

(** The letters "20 K" written with the Kelvin sign, and "Istanbul"
    written with U+0130. *)
Definition kelvins : text := ofString "20 " ++ [0x212a].
Definition istanbul : text := 0x130 :: ofString "stanbul".

End Utf16.

(* ================================================================== *)
(** * Part II: properties                                              *)
(* ================================================================== *)

(** ** Strings *)

Section StringFacts.
Import JsString.

Lemma append_empty_r (s : string) : (s ++ "")%string = s.
Proof. induction s as [|c s IH]; simpl; [reflexivity | now rewrite IH]. Qed.

Lemma append_assoc (a b c : string) :
  ((a ++ b) ++ c)%string = (a ++ (b ++ c))%string.
Proof. induction a as [|x a IH]; simpl; [reflexivity | now rewrite IH]. Qed.

Lemma length_append (a b : string) :
  String.length (a ++ b)%string = String.length a + String.length b.
Proof. induction a as [|x a IH]; simpl; [reflexivity | now rewrite IH]. Qed.

Lemma substring_prefix (a b : string) :
  String.substring 0 (String.length a) (a ++ b)%string = a.
Proof.
  induction a as [|x a IH]; simpl.
  - destruct b; reflexivity.
  - now rewrite IH.
Qed.

Lemma dropLast_append (stem suffix : string) :
  dropLast (String.length suffix) (stem ++ suffix)%string = stem.
Proof.
  unfold dropLast. rewrite length_append.
  replace (String.length stem + String.length suffix - String.length suffix)
    with (String.length stem) by lia.
  apply substring_prefix.
Qed.

Lemma endsWith_append (stem suffix : string) :
  endsWith (stem ++ suffix)%string suffix = true.
Proof.
  induction stem as [|c stem IH]; simpl.
  - destruct suffix; simpl.
    + reflexivity.
    + now rewrite Ascii.eqb_refl, String.eqb_refl.
  - rewrite IH. apply orb_true_r.
Qed.

Lemma endsWith_inv (word suffix : string) :
  endsWith word suffix = true -> exists stem, word = (stem ++ suffix)%string.
Proof.
  induction word as [|c word IH]; simpl; intros H.
  - apply orb_true_iff in H as [H | H]; [| discriminate].
    destruct suffix; [| discriminate]. now exists "".
  - apply orb_true_iff in H as [H | H].
    + exists "". simpl. destruct suffix as [|a suffix]; [discriminate |].
      apply andb_true_iff in H as [H1 H2].
      apply Ascii.eqb_eq in H1. apply String.eqb_eq in H2. now subst.
    + destruct (IH H) as [stem ->]. now exists (String c stem).
Qed.

End StringFacts.

(** ** The stemmer *)

Section StemFacts.
Import JsString Stemmer.

Lemma applicable_test (word suffix : string) :
  endsWith word suffix
  && (String.length suffix + 2 <? String.length word) = true
  <-> applicable word suffix.
Proof.
  split.
  - intros H. apply andb_true_iff in H as [H1 H2].
    apply Nat.ltb_lt in H2.
    destruct (endsWith_inv _ _ H1) as [stem ->].
    exists stem. split; [reflexivity |].
    rewrite length_append in H2. lia.
  - intros [stem [-> Hlen]].
    rewrite endsWith_append. simpl.
    apply Nat.ltb_lt. rewrite length_append. lia.
Qed.

(** What the loop computes, for any table. *)
Lemma stemWith_spec (table : list string) (word : string) :
  (exists before suffix after stem,
      table = before ++ suffix :: after
      /\ (forall s, In s before -> ~ applicable word s)
      /\ word = (stem ++ suffix)%string
      /\ 3 <= String.length stem
      /\ stemWith table word = stem)
  \/ ((forall s, In s table -> ~ applicable word s)
      /\ stemWith table word = word).
Proof.
  induction table as [|suffix table IH]; simpl.
  - right. split; [intros s [] | reflexivity].
  - destruct (endsWith word suffix
              && (String.length suffix + 2 <? String.length word)) eqn:E.
    + left. apply applicable_test in E as [stem [-> Hlen]].
      exists [], suffix, table, stem.
      repeat split; try assumption.
      * intros s [].
      * apply dropLast_append.
    + assert (Hno : ~ applicable word suffix).
      { intros A. apply applicable_test in A. congruence. }
      destruct IH as [(before & sfx & after & stem & Ht & Hb & Hw & Hl & Hs)
                     | [Hall Hs]].
      * left. exists (suffix :: before), sfx, after, stem.
        repeat split; try assumption.
        -- simpl. now rewrite Ht.
        -- intros s [<- | Hin]; [assumption | now apply Hb].
      * right. split; [| assumption].
        intros s [<- | Hin]; [assumption | now apply Hall].
Qed.

End StemFacts.

(** C5, as amended: both [stemWord] methods remove exactly one suffix,
    the first one in table order that ends the word and leaves at least
    three characters (which need not be the longest such suffix of the
    table), and return the word unchanged when the table has no such
    suffix. *)
Theorem stemWord_first_applicable (word : string) :
  ((exists before suffix after stem,
       Database.frenchSuffixes = before ++ suffix :: after
       /\ (forall s, In s before -> ~ Stemmer.applicable word s)
       /\ word = (stem ++ suffix)%string
       /\ 3 <= String.length stem
       /\ Database.stemWord word = stem)
   \/ ((forall s, In s Database.frenchSuffixes -> ~ Stemmer.applicable word s)
       /\ Database.stemWord word = word))
  /\
  ((exists before suffix after stem,
       ChatStemmer.frenchSuffixes = before ++ suffix :: after
       /\ (forall s, In s before -> ~ Stemmer.applicable word s)
       /\ word = (stem ++ suffix)%string
       /\ 3 <= String.length stem
       /\ ChatStemmer.stemWord word = stem)
   \/ ((forall s, In s ChatStemmer.frenchSuffixes -> ~ Stemmer.applicable word s)
       /\ ChatStemmer.stemWord word = word)).
Proof.
  split; apply stemWith_spec.
Qed.

(** The loop goes past a suffix that ends the word but fails the guard:
    "ames" ends with "es", which would leave two characters, and loses
    the later "s"; "contacter" loses "er". *)
Lemma stemWord_examples :
  Database.stemWord "ames" = "ame"
  /\ Database.stemWord "contacter" = "contact"
  /\ Database.stemWord "nation" = "nation"
  /\ ChatStemmer.stemWord "pouvoir" = "pouvo".
Proof. repeat split. Qed.

(** C5, counterexample: "pouvoir" ends with "oir", which is in the table
    and would leave "pouv", yet [stemWord] removes the shorter "ir" that
    comes first in the table. *)
Lemma stemWord_not_longest_suffix :
  Database.stemWord "pouvoir" = "pouvo"
  /\ ~ Claimed.removesLongestSuffix Database.frenchSuffixes Database.stemWord.
Proof.
  split; [reflexivity |].
  intros H. specialize (H "pouvoir" "oir").
  simpl in H.
  assert (3 <= 2) by (apply H; [ intuition | reflexivity | lia ]).
  lia.
Qed.

(** ** The bounded cache *)

Section CacheFacts.
Import CacheService.
Variable V : Type.

(** [findOldest] only ever proposes a key whose access time is strictly
    before the starting time. *)
Lemma findOldest_none (order : list (string * Z)) (now : Z) :
  (forall k t, In (k, t) order -> (now <= t)%Z) ->
  findOldest order None now = None.
Proof.
  induction order as [|[k t] order IH]; intros H; simpl.
  - reflexivity.
  - assert (Hk : (now <= t)%Z) by (apply (H k); now left).
    apply Z.ltb_ge in Hk. rewrite Hk.
    apply IH. intros k' t' Hin. apply (H k'). now right.
Qed.

(** When every entry was last touched at the instant of the call,
    [evictOldest] removes nothing. *)
Lemma evictOldest_same_instant (now : Z) (c : CacheService.t V) :
  (forall k t, In (k, t) (accessOrder c) -> (now <= t)%Z) ->
  evictOldest now c = c.
Proof.
  intros H. unfold evictOldest.
  destruct (accessOrder c) as [|p order]; [reflexivity |].
  now rewrite (findOldest_none _ _ H).
Qed.

(** The key picked by the loop of [evictOldest], if any, has the
    smallest access time of all, and that time is before [oldestTime]. *)
Lemma findOldest_acc (order : list (string * Z)) :
  forall (oldestKey : option string) (oldestTime : Z),
    (findOldest order oldestKey oldestTime = oldestKey
     /\ forall k t, In (k, t) order -> (oldestTime <= t)%Z)
    \/ exists k t,
        findOldest order oldestKey oldestTime = Some k
        /\ In (k, t) order /\ (t < oldestTime)%Z
        /\ forall k' t', In (k', t') order -> (t <= t')%Z.
Proof.
  induction order as [|[k t] order IH]; intros oldestKey oldestTime; simpl.
  - left. split; [reflexivity | intros k t []].
  - destruct (t <? oldestTime)%Z eqn:E.
    + apply Z.ltb_lt in E. right.
      destruct (IH (Some k) t) as [[-> Hall] | (k2 & t2 & -> & Hin & Hlt & Hmin)].
      * exists k, t. repeat split; [now left | assumption |].
        intros k' t' [H | H]; [injection H as _ <-; lia | now apply (Hall k')].
      * exists k2, t2. repeat split; [now right | lia |].
        intros k' t' [H | H]; [injection H as _ <-; lia | now apply (Hmin k')].
    + apply Z.ltb_ge in E.
      destruct (IH oldestKey oldestTime)
        as [[-> Hall] | (k2 & t2 & -> & Hin & Hlt & Hmin)].
      * left. split; [reflexivity |].
        intros k' t' [H | H]; [injection H as _ <-; lia | now apply (Hall k')].
      * right. exists k2, t2. repeat split; [now right | lia |].
        intros k' t' [H | H]; [injection H as _ <-; lia | now apply (Hmin k')].
Qed.

Lemma has_In {A : Type} (k : string) (m : list (string * A)) :
  JsMap.has String.eqb k m = true <-> In k (map fst m).
Proof.
  unfold JsMap.has. induction m as [|[k' v] m IH]; simpl.
  - split; [discriminate | tauto].
  - destruct (String.eqb k k') eqn:E.
    + apply String.eqb_eq in E. subst. split; [now left | reflexivity].
    + apply String.eqb_neq in E. rewrite IH. split; [now right |].
      intros [H | H]; [congruence | assumption].
Qed.

Lemma delete_length {A : Type} (k : string) (m : list (string * A)) :
  In k (map fst m) ->
  S (List.length (JsMap.delete String.eqb k m)) = List.length m.
Proof.
  induction m as [|[k' v] m IH]; simpl; [tauto |].
  destruct (String.eqb k k') eqn:E; [reflexivity |].
  apply String.eqb_neq in E. intros [H | H]; [congruence |].
  simpl. now rewrite IH.
Qed.

Lemma delete_keys {A : Type} (k : string) (m : list (string * A)) :
  NoDup (map fst m) -> ~ In k (map fst (JsMap.delete String.eqb k m)).
Proof.
  induction m as [|[k' v] m IH]; simpl; intros Hnd; [tauto |].
  inversion Hnd as [|x l Hnotin Hnd']; subst.
  destruct (String.eqb k k') eqn:E.
  - apply String.eqb_eq in E. now subst.
  - apply String.eqb_neq in E. simpl. intros [H | H]; [congruence |].
    now apply IH.
Qed.

Lemma set_length_new {A : Type} (k : string) (v : A) (m : list (string * A)) :
  ~ In k (map fst m) ->
  List.length (JsMap.set String.eqb k v m) = S (List.length m).
Proof.
  induction m as [|[k' v'] m IH]; simpl; intros H; [reflexivity |].
  destruct (String.eqb k k') eqn:E.
  - apply String.eqb_eq in E. subst. tauto.
  - simpl. rewrite IH; [reflexivity | tauto].
Qed.

Lemma delete_other_keys {A : Type} (k k' : string) (m : list (string * A)) :
  In k' (map fst (JsMap.delete String.eqb k m)) -> In k' (map fst m).
Proof.
  induction m as [|[k0 v] m IH]; simpl; [tauto |].
  destruct (String.eqb k k0); simpl; [tauto |].
  intros [H | H]; [now left | right; now apply IH].
Qed.

(** Outside the two slips (an entry touched at the very instant of the
    call, an empty key) a [set] of a new key at capacity evicts one
    entry, a least recently accessed one, and the size does not grow. *)
Lemma set_evicts_least_recent (now : Z) (key : string) (v : V)
      (customTtl : option Z) (c : CacheService.t V) :
  map fst (accessOrder c) = map fst (cache c) ->
  NoDup (map fst (cache c)) ->
  (forall k t, In (k, t) (accessOrder c) -> (t < now)%Z /\ k <> "") ->
  1 <= size c /\ (maxEntries c <= sizeQ c)%Q ->
  ~ In key (map fst (cache c)) ->
  exists k t,
    In (k, t) (accessOrder c)
    /\ (forall k' t', In (k', t') (accessOrder c) -> (t <= t')%Z)
    /\ ~ In k (map fst (cache (evictOldest now c)))
    /\ size (set now key v customTtl c) = size c
    /\ evictions (stats (set now key v customTtl c))
       = S (evictions (stats c)).
Proof.
  intros Hsync Hnd Hold [Hcap1 Hcap2] Hnew.
  assert (Hhas : JsMap.has String.eqb key (cache c) = false).
  { destruct (JsMap.has String.eqb key (cache c)) eqn:E; [| reflexivity].
    apply has_In in E. contradiction. }
  assert (Hevict : exists k t,
             In (k, t) (accessOrder c)
             /\ (forall k' t', In (k', t') (accessOrder c) -> (t <= t')%Z)
             /\ evictOldest now c
                = withStats V countEviction (fst (delete k c))).
  { unfold evictOldest.
    destruct (accessOrder c) as [|p order] eqn:Eo.
    - unfold size in Hcap1. rewrite <- (length_map fst), <- Hsync in Hcap1.
      simpl in Hcap1. lia.
    - rewrite <- Eo in *.
      destruct (findOldest_acc (accessOrder c) None now)
        as [[_ Hall] | (k & t & -> & Hin & Hlt & Hmin)].
      + exfalso. rewrite Eo in Hall, Hold. destruct p as [k t].
        specialize (Hall k t (or_introl eq_refl)).
        destruct (Hold k t (or_introl eq_refl)). lia.
      + exists k, t. split; [assumption |]. split; [assumption |].
        destruct (Hold k t Hin) as [_ Hne].
        destruct k; [congruence | reflexivity]. }
  destruct Hevict as (k & t & Hin & Hmin & He).
  assert (Hk : In k (map fst (cache c))).
  { rewrite <- Hsync. apply in_map_iff. now exists (k, t). }
  assert (Hk' : JsMap.has String.eqb k (cache c) = true) by now apply has_In.
  exists k, t. split; [assumption |]. split; [assumption |].
  assert (Ec : cache (evictOldest now c) = JsMap.delete String.eqb k (cache c)).
  { rewrite He. unfold delete. rewrite Hk'. reflexivity. }
  assert (Es : evictions (stats (evictOldest now c)) = S (evictions (stats c))).
  { rewrite He. unfold delete. rewrite Hk'. reflexivity. }
  split; [rewrite Ec; now apply delete_keys |].
  assert (Hfull : Qle_bool (maxEntries c) (sizeQ c) = true)
    by now apply Qle_bool_iff.
  unfold set. rewrite Hfull, Hhas. unfold size. simpl.
  split.
  - rewrite set_length_new.
    + rewrite Ec. now apply delete_length.
    + rewrite Ec. intros H. apply Hnew. eapply delete_other_keys. exact H.
  - exact Es.
Qed.

End CacheFacts.

(** C6, on the failing input: a cache of capacity 2 that receives three
    distinct keys at one and the same clock reading keeps all three
    entries and records no eviction. *)
Theorem set_beyond_capacity_same_instant (now : Z) :
  let c0 : CacheService.t nat := CacheService.create (Some 2%Q) None in
  let c3 := CacheService.set now "c" 3 None
              (CacheService.set now "b" 2 None
                 (CacheService.set now "a" 1 None c0)) in
  CacheService.maxEntries c3 = 2%Q
  /\ CacheService.size c3 = 3
  /\ map fst (CacheService.cache c3) = ["a"; "b"; "c"]
  /\ CacheService.evictions (CacheService.stats c3) = 0.
Proof.
  cbv [CacheService.create CacheService.set CacheService.size
       CacheService.evictOldest CacheService.findOldest CacheService.delete
       CacheService.withStats CacheService.cache CacheService.accessOrder
       CacheService.maxEntries CacheService.stats CacheService.ttl
       CacheService.countSet CacheService.countEviction
       CacheService.evictions CacheService.sizeQ
       Qle_bool Qeq_bool Qnum Qden inject_Z Z.of_nat Pos.of_succ_nat
       Pos.succ Z.mul Pos.mul Pos.add Z.leb Z.eqb Pos.eqb Z.compare
       Pos.compare Pos.compare_cont
       JsMap.set JsMap.has JsMap.get String.eqb Ascii.eqb Bool.eqb
       List.length negb andb map fst].
  rewrite Z.ltb_irrefl. cbv. repeat split.
Qed.

(** ** Scoring *)

Section ScoringFacts.
Import Js Faq RagSearchService Scoring.

Lemma orQ_cases (o : option Q) (d : Q) :
  (exists q, o = Some q /\ ~ (q == 0)%Q /\ orQ o d = q)
  \/ (falsy o /\ orQ o d = d).
Proof.
  destruct o as [q|]; simpl.
  - destruct (Qeq_bool q 0) eqn:E.
    + right. split; [| reflexivity].
      right. exists q. split; [reflexivity |]. now apply Qeq_bool_iff.
    + left. exists q. repeat split.
      intros H. apply Qeq_bool_iff in H. congruence.
  - right. split; [now left | reflexivity].
Qed.

Lemma baseScore_ok (r : Row) :
  BaseScore r (orQ (enhanced_relevance r) (orQ (relevance r) 0.2)).
Proof.
  destruct (orQ_cases (enhanced_relevance r) (orQ (relevance r) 0.2))
    as [(e & He & Hnz & ->) | [Hf ->]].
  - now apply base_enhanced.
  - destruct (orQ_cases (relevance r) 0.2) as [(x & Hx & Hnz & ->) | [Hf' ->]].
    + now apply base_relevance.
    + now apply base_default.
Qed.

Lemma truthyStr_strictEq (sessionValue rowValue : option string) :
  truthyStr sessionValue && strictEq rowValue sessionValue = true
  <-> sameAs sessionValue rowValue.
Proof.
  unfold sameAs. split.
  - intros H. apply andb_true_iff in H as [H1 H2].
    destruct sessionValue as [s|]; [| discriminate].
    destruct rowValue as [x|]; [| discriminate].
    simpl in H2. apply String.eqb_eq in H2. subst x.
    exists s. repeat split. intros ->. discriminate.
  - intros (s & -> & Hne & ->). simpl.
    rewrite String.eqb_refl. destruct s; [congruence | reflexivity].
Qed.

Lemma boost_ok (sessionValue rowValue : option string) (amount : Q) :
  Boost (sameAs sessionValue rowValue) amount
        (if truthyStr sessionValue && strictEq rowValue sessionValue
         then amount else 0%Q).
Proof.
  destruct (truthyStr sessionValue && strictEq rowValue sessionValue) eqn:E.
  - apply boost_added. now apply truthyStr_strictEq.
  - apply boost_skipped. intros H. apply truthyStr_strictEq in H. congruence.
Qed.

Lemma recency_ok (cfg : Config) (now : Z) (r : Row) :
  Recency cfg now r
    match last_updated r with
    | DateAt u => if (u >=? recentCutoff cfg now)%Z
                  then recencyBoost cfg now u else 0%Q
    | _ => 0%Q
    end.
Proof.
  destruct (last_updated r) as [| |u] eqn:E.
  - apply recency_undated. congruence.
  - apply recency_undated. congruence.
  - destruct (u >=? recentCutoff cfg now)%Z eqn:G.
    + apply recency_added; [assumption | lia].
    + apply (recency_old _ _ _ u); [assumption | lia].
Qed.

Lemma scoreRow_ok (cfg : Config) (now : Z) (v : Variant) (session : Session)
      (r : Row) :
  ScoredAs cfg now v session r
    (mkCandidate (id r) r (reason v) (weight v)
                 (scoreRow cfg now v session r)).
Proof.
  unfold ScoredAs. simpl. repeat split.
  eexists _, _, _, _.
  split; [apply baseScore_ok |].
  split; [apply boost_ok |].
  split; [apply boost_ok |].
  split; [apply recency_ok |].
  unfold scoreRow.
  destruct (truthyStr (productCode session)
            && strictEq (product_ref r) (productCode session));
    destruct (truthyStr (s_rubrique session)
              && strictEq (rubrique r) (s_rubrique session));
    destruct (last_updated r) as [| |u];
    try destruct (u >=? recentCutoff cfg now)%Z; ring.
Qed.

(** Inside the window the recency boost lies between 0.1 and 0.2. *)
Lemma recencyBoost_bounds (cfg : Config) (now u : Z) :
  (recentCutoff cfg now <= u <= now)%Z ->
  (0.1 <= recencyBoost cfg now u)%Q /\ (recencyBoost cfg now u < 0.2)%Q.
Proof.
  intros [H1 H2]. unfold recencyBoost.
  set (k := recentCutoff cfg now) in *.
  assert (Hd : (0 < inject_Z (now - k + 1))%Q).
  { change 0%Q with (inject_Z 0). rewrite <- Zlt_Qlt. lia. }
  assert (Hn : (0 <= inject_Z (u - k))%Q).
  { change 0%Q with (inject_Z 0). rewrite <- Zle_Qle. lia. }
  assert (Hlt : (inject_Z (u - k) < inject_Z (now - k + 1))%Q).
  { rewrite <- Zlt_Qlt. lia. }
  set (n := inject_Z (u - k)) in *.
  set (d := inject_Z (now - k + 1)) in *.
  assert (H0 : (0 <= n / d)%Q).
  { apply Qle_shift_div_l; [assumption |]. now rewrite Qmult_0_l. }
  assert (H3 : (n / d < 1)%Q).
  { apply Qlt_shift_div_r; [assumption |]. now rewrite Qmult_1_l. }
  split; lra.
Qed.

End ScoringFacts.

(** C1, as amended: every candidate produced by [scoreResults] pairs a
    row with base x weight + product boost + category boost + recency
    boost, where the base is the enhanced relevance unless that is null,
    undefined or zero, else the relevance unless that is null, undefined
    or zero, else 0.2; a boost is added when the session names a
    non-empty product code (category) and the row carries the same one;
    the recency boost is added for a row updated at or after the cut-off
    and lies in [0.1, 0.2) when that update is not later than now. *)
Theorem scoreResults_formula
        (cfg : RagSearchService.Config) (now : Z) (results : list Faq.Row)
        (v : RagSearchService.Variant) (session : RagSearchService.Session) :
  Forall2 (Scoring.ScoredAs cfg now v session) results
          (RagSearchService.scoreResults cfg now results v session)
  /\ forall u : Z,
      (RagSearchService.recentCutoff cfg now <= u <= now)%Z ->
      (0.1 <= RagSearchService.recencyBoost cfg now u)%Q
      /\ (RagSearchService.recencyBoost cfg now u < 0.2)%Q.
Proof.
  split.
  - unfold RagSearchService.scoreResults.
    induction results as [|r results IH]; simpl; constructor.
    + apply scoreRow_ok.
    + exact IH.
  - apply recencyBoost_bounds.
Qed.

(** C1, counterexample: a row whose enhanced relevance is 0 and whose
    relevance is undefined is scored 0.2 x 1 by the code, where the
    formula with [??] gives 0 x 1. *)
Lemma scoreResults_zero_enhanced_relevance :
  let r := Faq.mkRow 1 None (Some "general") (Some "x") Faq.QaMalformed
                     Faq.NoDate None (Some 0%Q) in
  let v := RagSearchService.mkVariant
             "q" 1 "base" (RagSearchService.mkVariantFilters None None None)
             true "rag:q:" in
  let session := RagSearchService.mkSession None None None in
  let cfg := RagSearchService.configure RagSearchService.emptyConfig in
  (Claimed.score cfg 0 v session r == 0)%Q
  /\ Forall (fun c => (RagSearchService.score c == 0.2)%Q
                      /\ ~ (RagSearchService.score c
                            == Claimed.score cfg 0 v session r)%Q)
            (RagSearchService.scoreResults cfg 0 [r] v session).
Proof.
  cbv zeta. split; [reflexivity |].
  constructor; [| constructor].
  split; [reflexivity | discriminate].
Qed.

Lemma scoreResults_formula_witness :
  let cfg := RagSearchService.configure RagSearchService.emptyConfig in
  (0.1 <= RagSearchService.recencyBoost cfg 2592000000 2592000000)%Q
  /\ (RagSearchService.recencyBoost cfg 2592000000 2592000000 < 0.2)%Q.
Proof.
  cbv zeta.
  apply (proj2 (scoreResults_formula
                  (RagSearchService.configure RagSearchService.emptyConfig)
                  2592000000 []
                  (RagSearchService.mkVariant
                     "q" 1 "base"
                     (RagSearchService.mkVariantFilters None None None)
                     true "rag:q:")
                  (RagSearchService.mkSession None None None))
               2592000000%Z).
  vm_compute. split; discriminate.
Defined.

(** ** Aggregation and ranking *)

Section MergeFacts.
Import Faq RagSearchService Merging.

Lemma Qmax_cases (a b : Q) :
  (Qmax a b = a /\ (b <= a)%Q) \/ (Qmax a b = b /\ (a <= b)%Q).
Proof.
  unfold Qmax, GenericMinMax.gmax.
  destruct (a ?= b)%Q eqn:E.
  - left. split; [reflexivity |].
    apply Qeq_alt in E. rewrite E. apply Qle_refl.
  - right. split; [reflexivity |].
    apply Qlt_alt in E. now apply Qlt_le_weak.
  - left. split; [reflexivity |].
    apply Qgt_alt in E. now apply Qlt_le_weak.
Qed.

Lemma merge_ids (c : Candidate) (m : list Aggregated) :
  (In (faqId c) (map a_faqId m)
   /\ map a_faqId (mergeCandidate c m) = map a_faqId m)
  \/ (~ In (faqId c) (map a_faqId m)
      /\ map a_faqId (mergeCandidate c m) = map a_faqId m ++ [faqId c]).
Proof.
  induction m as [|e m IH]; simpl.
  - right. split; [tauto | reflexivity].
  - destruct (faqId c =? a_faqId e)%Z eqn:E; simpl.
    + apply Z.eqb_eq in E. left. split; [now left | reflexivity].
    + apply Z.eqb_neq in E.
      destruct IH as [[Hin ->] | [Hn ->]].
      * left. split; [now right | reflexivity].
      * right. split; [| reflexivity].
        intros [H | H]; [congruence | contradiction].
Qed.

Lemma merge_NoDup (c : Candidate) (m : list Aggregated) :
  NoDup (map a_faqId m) -> NoDup (map a_faqId (mergeCandidate c m)).
Proof.
  intros H. destruct (merge_ids c m) as [[_ ->] | [Hn ->]]; [assumption |].
  apply Permutation_NoDup with (l := faqId c :: map a_faqId m).
  - apply Permutation_cons_append.
  - now constructor.
Qed.

(** Where the entries of the map come from after one more candidate. *)
Lemma merge_In (c : Candidate) (m : list Aggregated) (e' : Aggregated) :
  NoDup (map a_faqId m) ->
  In e' (mergeCandidate c m) ->
  (In e' m /\ a_faqId e' <> faqId c)
  \/ (exists e, In e m /\ a_faqId e = faqId c /\ e' = absorbed e c)
  \/ ((forall e, In e m -> a_faqId e <> faqId c) /\ e' = fresh c).
Proof.
  induction m as [|e m IH]; simpl; intros Hnd H.
  - destruct H as [<- | []]. right. right. split; [tauto | reflexivity].
  - inversion Hnd as [|x l Hnotin Hnd']; subst.
    destruct (faqId c =? a_faqId e)%Z eqn:E.
    + apply Z.eqb_eq in E. destruct H as [<- | H].
      * right. left. exists e. repeat split; auto.
      * left. split; [now right |].
        intros Heq. apply Hnotin. rewrite <- E, <- Heq.
        now apply in_map.
    + apply Z.eqb_neq in E. destruct H as [<- | H].
      * left. split; [now left | congruence].
      * destruct (IH Hnd' H)
          as [[Hin Hne] | [(e0 & Hin & Hid & ->) | [Hall ->]]].
        -- left. split; [now right | assumption].
        -- right. left. exists e0. repeat split; auto.
        -- right. right. split; [| reflexivity].
           intros e0 [<- | Hin]; [congruence | now apply Hall].
Qed.

Lemma contributions_snoc (i : Z) (cs : list Candidate) (c : Candidate) :
  contributions i (cs ++ [c])
  = contributions i cs ++ (if (faqId c =? i)%Z then [c] else []).
Proof.
  unfold contributions. rewrite filter_app. simpl.
  now destruct (faqId c =? i)%Z.
Qed.

Lemma contributions_none (i : Z) (cs : list Candidate) :
  (forall c, In c cs -> faqId c <> i) -> contributions i cs = [].
Proof.
  induction cs as [|c cs IH]; intros H; simpl; [reflexivity |].
  destruct (faqId c =? i)%Z eqn:E.
  - apply Z.eqb_eq in E. exfalso. apply (H c); [now left | assumption].
  - apply IH. intros c' Hin. apply H. now right.
Qed.

Lemma Describes_nil : Describes [] [].
Proof.
  split; [constructor |]. split; intros x [].
Qed.

Lemma Describes_step (cs : list Candidate) (m : list Aggregated)
      (c : Candidate) :
  Describes cs m -> Describes (cs ++ [c]) (mergeCandidate c m).
Proof.
  intros (Hnd & Hm & Hin). split; [now apply merge_NoDup |]. split.
  - intros e' He'.
    destruct (merge_In c m e' Hnd He')
      as [[He Hne] | [(e & He & Hid & ->) | [Hall ->]]].
    + destruct (Hm e' He) as (H1 & H2 & H3 & H4 & H5).
      unfold MergedFrom. rewrite contributions_snoc.
      assert (E : (faqId c =? a_faqId e')%Z = false)
        by (apply Z.eqb_neq; congruence).
      rewrite E, app_nil_r. repeat split; assumption.
    + destruct (Hm e He) as (H1 & H2 & H3 & H4 & H5).
      unfold MergedFrom. simpl. rewrite contributions_snoc.
      assert (E : (faqId c =? a_faqId e)%Z = true)
        by (apply Z.eqb_eq; congruence).
      rewrite E. split; [reflexivity |]. split.
      { intros Habs. apply app_eq_nil in Habs as [_ Habs]. discriminate. }
      split.
      { rewrite map_app, H3. reflexivity. }
      destruct (Qmax_cases (a_score e) (score c)) as [[-> Hle] | [-> Hle]].
      * split.
        -- apply Forall_app. split; [assumption |].
           constructor; [assumption | constructor].
        -- apply Exists_app. now left.
      * split.
        -- apply Forall_app. split.
           ++ eapply Forall_impl; [| exact H4].
              intros a Ha. simpl in Ha. eapply Qle_trans; eassumption.
           ++ constructor; [apply Qle_refl | constructor].
        -- apply Exists_app. right. now constructor.
    + unfold MergedFrom. simpl. rewrite contributions_snoc, Z.eqb_refl.
      rewrite contributions_none.
      * simpl. repeat split.
        -- discriminate.
        -- constructor; [apply Qle_refl | constructor].
        -- now constructor.
      * intros c' Hc' Heq. apply Hin in Hc'.
        apply in_map_iff in Hc' as (e & He1 & He2).
        apply (Hall e He2). congruence.
  - intros c' Hc'. apply in_app_or in Hc'.
    destruct (merge_ids c m) as [[Hc ->] | [Hn ->]].
    + destruct Hc' as [Hc' | [<- | []]]; [now apply Hin | assumption].
    + apply in_or_app.
      destruct Hc' as [Hc' | [<- | []]]; [left; now apply Hin |].
      right. now left.
Qed.

Lemma aggregateCandidates_snoc (cs : list Candidate) (c : Candidate) :
  aggregateCandidates (cs ++ [c])
  = mergeCandidate c (aggregateCandidates cs).
Proof.
  unfold aggregateCandidates. now rewrite fold_left_app.
Qed.

Lemma aggregateCandidates_describes (cs : list Candidate) :
  Describes cs (aggregateCandidates cs).
Proof.
  induction cs as [|c cs IH] using rev_ind.
  - apply Describes_nil.
  - rewrite aggregateCandidates_snoc. now apply Describes_step.
Qed.

(** Sorting permutes, and ranking keeps every entry. *)
Lemma insertByScore_perm (x : Aggregated) (l : list Aggregated) :
  Permutation (x :: l) (insertByScore x l).
Proof.
  induction l as [|y l IH]; simpl; [apply Permutation_refl |].
  destruct (Qle_bool (a_score y) (a_score x)); [apply Permutation_refl |].
  eapply perm_trans; [apply perm_swap |]. now apply perm_skip.
Qed.

Lemma sortByScore_perm (l : list Aggregated) :
  Permutation l (sortByScore l).
Proof.
  induction l as [|x l IH]; simpl; [constructor |].
  eapply perm_trans; [| apply insertByScore_perm]. now apply perm_skip.
Qed.

Lemma withRanks_entries (k : nat) (l : list Aggregated) :
  map entry (withRanks k l) = l.
Proof.
  revert k. induction l as [|e l IH]; intros k; simpl;
    [reflexivity | now rewrite IH].
Qed.

Lemma rankCandidates_entries (cs : list Candidate) :
  Permutation (aggregateCandidates cs) (map entry (rankCandidates cs)).
Proof.
  unfold rankCandidates. rewrite withRanks_entries. apply sortByScore_perm.
Qed.

End MergeFacts.

(** C2, as amended: in the ranked list every FAQ identifier occurs once;
    the entry of an identifier carries the greatest score among the
    candidates of that identifier and one reason tag per contributing
    candidate, in accumulation order (a reason shared by two contributing
    variants is therefore listed twice); and every candidate's identifier
    has its entry. *)
Theorem rankedCandidates_merged (cs : list RagSearchService.Candidate) :
  let ranked := map RagSearchService.entry
                    (RagSearchService.rankCandidates cs) in
  NoDup (map RagSearchService.a_faqId ranked)
  /\ Forall (fun e => Merging.MergedFrom cs (RagSearchService.a_faqId e) e)
            ranked
  /\ Forall (fun c => Exists (fun e => RagSearchService.a_faqId e
                                       = RagSearchService.faqId c) ranked)
            cs.
Proof.
  cbv zeta.
  pose proof (rankCandidates_entries cs) as P.
  destruct (aggregateCandidates_describes cs) as (Hnd & Hm & Hin).
  split; [| split].
  - eapply Permutation_NoDup; [| exact Hnd]. now apply Permutation_map.
  - apply Forall_forall. intros e He. apply Hm.
    eapply Permutation_in; [apply Permutation_sym; exact P | exact He].
  - apply Forall_forall. intros c Hc. apply Exists_exists.
    apply Hin in Hc. apply in_map_iff in Hc as (e & He1 & He2).
    exists e. split; [| assumption].
    eapply Permutation_in; [exact P | exact He2].
Qed.

(** C2, counterexample: FAQ 7 found through two synonym variants is
    ranked once with the greater score, and its [sources] list holds the
    tag "synonym" twice. *)
Lemma rankedCandidates_repeated_reason :
  let r := Faq.mkRow 7 None None None Faq.QaMalformed Faq.NoDate None None in
  let c1 := RagSearchService.mkCandidate 7 r "synonym" 0.85%Q 0.5%Q in
  let c2 := RagSearchService.mkCandidate 7 r "synonym" 0.7%Q 0.4%Q in
  RagSearchService.rankCandidates [c1; c2]
  = [RagSearchService.mkRanked
       (RagSearchService.mkAggregated 7 r 0.5%Q ["synonym"; "synonym"]) 1]
  /\ ~ Forall (fun e => NoDup (RagSearchService.a_sources
                                 (RagSearchService.entry e)))
              (RagSearchService.rankCandidates [c1; c2]).
Proof.
  cbv zeta. split; [reflexivity |].
  intros H. inversion H as [|x l Hnd _]; subst.
  simpl in Hnd. inversion Hnd as [|y l' Hnotin _]; subst.
  apply Hnotin. now left.
Qed.

(** ** Counts read from the configuration *)

Section NumberFacts.
Import Js.

Lemma not_Qle_bool (a b : Q) : Qle_bool a b = false <-> (b < a)%Q.
Proof.
  split; intros H.
  - apply Qnot_le_lt. intros Hle. apply Qle_bool_iff in Hle. congruence.
  - destruct (Qle_bool a b) eqn:E; [| reflexivity].
    apply Qle_bool_iff in E. lra.
Qed.

(** A whole number [n] reaches the count [x] exactly when it reaches [x]
    rounded up. *)
Lemma ceilingCount_le (x : Q) (n : nat) :
  (x <= inject_Z (Z.of_nat n))%Q <-> ceilingCount x <= n.
Proof.
  unfold ceilingCount. split; intros H.
  - apply Qceiling_resp_le in H. rewrite Qceiling_Z in H. lia.
  - apply Qle_trans with (inject_Z (Qceiling x)); [apply Qle_ceiling |].
    rewrite <- Zle_Qle. lia.
Qed.

Lemma Qle_bool_count (x : Q) (n : nat) :
  Qle_bool x (inject_Z (Z.of_nat n)) = (ceilingCount x <=? n).
Proof.
  destruct (ceilingCount x <=? n) eqn:E.
  - apply Qle_bool_iff, ceilingCount_le. now apply Nat.leb_le.
  - destruct (Qle_bool x (inject_Z (Z.of_nat n))) eqn:F; [| reflexivity].
    apply Qle_bool_iff, ceilingCount_le, Nat.leb_le in F. congruence.
Qed.

Lemma ceilingCount_positive (x : Q) : (0 < x)%Q -> 1 <= ceilingCount x.
Proof.
  intros H. destruct (ceilingCount x) as [|n] eqn:E; [| lia].
  assert (H0 : ceilingCount x <= 0) by lia.
  apply ceilingCount_le in H0. simpl in H0.
  exfalso. apply (Qlt_irrefl 0). eapply Qlt_le_trans; [exact H | exact H0].
Qed.

Lemma ceilingCount_nonpositive (x : Q) : (x <= 0)%Q -> ceilingCount x = 0.
Proof.
  intros H. apply (ceilingCount_le x 0) in H. lia.
Qed.

Lemma toInteger_floor (k : Q) :
  (0 <= k)%Q -> toInteger k = Qfloor k /\ (0 <= Qfloor k)%Z.
Proof.
  intros H. unfold toInteger.
  assert (E : Qle_bool 0 k = true) by now apply Qle_bool_iff.
  rewrite E. split; [reflexivity |].
  apply Qfloor_resp_le in H. exact H.
Qed.

(** [l.slice(0, k)] with [k] not negative keeps the first floor(k)
    elements. *)
Lemma sliceTo_firstn {A : Type} (k : Q) (l : list A) :
  (0 <= k)%Q -> sliceTo k l = firstn (Z.to_nat (Qfloor k)) l.
Proof.
  intros H. unfold sliceTo. destruct (toInteger_floor k H) as [-> H0].
  destruct (Qfloor k <? 0)%Z eqn:E; [| reflexivity].
  apply Z.ltb_lt in E. lia.
Qed.

Lemma floor_positive (k : Q) : (1 <= k)%Q -> 1 <= Z.to_nat (Qfloor k).
Proof.
  intros H. apply Qfloor_resp_le in H. change (Qfloor 1) with 1%Z in H. lia.
Qed.

Lemma floor_below (k : Q) :
  (0 <= k)%Q -> (inject_Z (Z.of_nat (Z.to_nat (Qfloor k))) <= k)%Q.
Proof.
  intros H. destruct (toInteger_floor k H) as [_ H0].
  rewrite Z2Nat.id by assumption. apply Qfloor_le.
Qed.

End NumberFacts.

(** ** The variant builder *)

Section VariantFacts.
Import Js Faq RagSearchService Weights.

Variable cfg : Config.

(** The builder stops at the first length that reaches
    [maxQueryVariants], that is at [maxQueryVariants] rounded up. *)
Let cap := ceilingCount (maxQueryVariants cfg).
Let decay := variantDecay cfg.

(** Pushing onto a capped list is capping the extended list. *)
Lemma pushVariant_firstn (l : list Variant) (q : string) (w : Q)
      (r : string) (f : VariantFilters) (fb : bool) :
  pushVariant cfg (firstn cap l) q w r f fb
  = firstn cap (l ++ [mkVariant q w r f fb (buildCacheKey q f)]).
Proof.
  unfold pushVariant. rewrite Qle_bool_count. fold cap.
  destruct (Nat.le_gt_cases cap (List.length l)) as [Hge | Hlt].
  - rewrite firstn_app.
    replace (cap - List.length l) with 0 by lia.
    rewrite app_nil_r, length_firstn, Nat.min_l by assumption.
    now rewrite Nat.leb_refl.
  - rewrite (firstn_all2 l) by lia.
    destruct (cap <=? List.length l) eqn:E.
    + apply Nat.leb_le in E. lia.
    + rewrite firstn_all2; [reflexivity |].
      rewrite length_app. simpl. lia.
Qed.

Lemma pushSynonyms_firstn (bf : VariantFilters) (syns : list string) :
  forall (index : nat) (l : list Variant),
    pushSynonyms cfg bf index syns (firstn cap l)
    = firstn cap (l ++ synonymVariants decay bf index syns).
Proof.
  induction syns as [|s syns IH]; intros index l; simpl.
  - now rewrite app_nil_r.
  - rewrite pushVariant_firstn, IH, <- app_assoc. reflexivity.
Qed.

Lemma expandWords_plain (q : string) (words : list string) :
  Forall (fun w => inherited w = false) words ->
  forall acc, exists syns, expandWords q words acc = Ok syns.
Proof.
  induction 1 as [|w words Hw _ IH]; intros acc; simpl.
  - now exists acc.
  - unfold lookup. destruct (JsMap.get String.eqb w synonymMap).
    + apply IH.
    + rewrite Hw. apply IH.
Qed.

Lemma adjacent_cons (R : Q -> Q -> Prop) (a : Q) (l : list Q) :
  (forall b rest, l = b :: rest -> R a b) ->
  adjacent R l -> adjacent R (a :: l).
Proof.
  intros H1 H2. destruct l as [|b rest]; simpl; [exact I |].
  split; [now apply (H1 b rest) | exact H2].
Qed.

Lemma adjacent_firstn (R : Q -> Q -> Prop) (n : nat) (l : list Q) :
  adjacent R l -> adjacent R (firstn n l).
Proof.
  revert n. induction l as [|a l IH]; intros n H.
  - now rewrite firstn_nil.
  - destruct n as [|n]; [exact I |].
    rewrite firstn_cons. apply adjacent_cons.
    + intros b rest E. destruct l as [|b' l']; [now destruct n |].
      destruct n as [|n']; [discriminate |].
      simpl in E. injection E as <- _. apply H.
    + apply IH. destruct l; [exact I | apply H].
Qed.

Hypothesis decay_nonneg : (0 <= decay)%Q.
Hypothesis decay_small : (decay <= 0.7)%Q.

Lemma synonymWeight_step (index : nat) :
  (synonymWeight decay (S index) <= synonymWeight decay index)%Q.
Proof.
  unfold synonymWeight. apply Q.max_le_compat_l.
  replace (Z.of_nat (S index + 1)) with (Z.of_nat (index + 1) + 1)%Z by lia.
  rewrite inject_Z_plus. change (inject_Z 1) with 1%Q.
  set (k := inject_Z (Z.of_nat (index + 1))). nra.
Qed.

Lemma synonymWeight_first : (synonymWeight decay 0 <= 1 - decay)%Q.
Proof.
  unfold synonymWeight.
  change (inject_Z (Z.of_nat (0 + 1))) with 1%Q.
  clearbody decay. apply Q.max_lub; lra.
Qed.

Lemma synonymVariants_sorted (bf : VariantFilters) (syns : list string) :
  forall index,
    nonIncreasing (map weight (synonymVariants decay bf index syns)).
Proof.
  induction syns as [|s syns IH]; intros index; [exact I |].
  simpl. apply adjacent_cons; [| apply IH].
  intros b rest E. destruct syns as [|s' syns']; [discriminate |].
  simpl in E. injection E as <- _. apply synonymWeight_step.
Qed.

(** Every variant list the builder can assemble before the cap has
    non-increasing weights. *)
Lemma assembled_sorted (bf : VariantFilters) (syns : list string)
      (q : string) (mid : list Variant) :
  Forall (fun v => weight v = (1 - decay)%Q) mid ->
  nonIncreasing
    (map weight
         (mkVariant q 1 "base" bf true (buildCacheKey q bf)
          :: mid ++ synonymVariants decay bf 0 syns)).
Proof.
  intros Hmid. simpl.
  assert (Htail : nonIncreasing
                    (map weight (mid ++ synonymVariants decay bf 0 syns))
                  /\ forall b rest,
                      map weight (mid ++ synonymVariants decay bf 0 syns)
                      = b :: rest -> (b <= 1 - decay)%Q).
  { induction Hmid as [|v mid Hv _ IH]; simpl.
    - split; [apply synonymVariants_sorted |].
      intros b rest E. destruct syns as [|s syns]; [discriminate |].
      simpl in E. injection E as <- _. apply synonymWeight_first.
    - destruct IH as [IH1 IH2]. split.
      + apply adjacent_cons; [| exact IH1].
        intros b rest E. rewrite Hv. now apply (IH2 b rest).
      + intros b rest E. injection E as <- _. rewrite Hv. apply Qle_refl. }
  destruct Htail as [H1 H2].
  apply adjacent_cons; [| exact H1].
  intros b rest E. apply (H2 b rest) in E. lra.
Qed.

End VariantFacts.

Section BuilderShape.
Import Js Faq RagSearchService Weights.

Variable raw : RawConfig.
Let cfg := configure raw.
Let cap := ceilingCount (maxQueryVariants cfg).
Let decay := variantDecay cfg.

(** The pushes of the builder assemble the capped list
    base :: context variants ++ synonym variants. *)
Lemma pushes_shape (bf : VariantFilters) (q : string)
      (opc orub : option string) (syns : list string) :
  exists mid : list Variant,
    Forall (fun v => weight v = (1 - decay)%Q /\ isSynonym v = false) mid
    /\ (let v0 := pushVariant cfg [] q 1 "base" bf true in
        let v1 :=
          match opc with
          | Some pc =>
              if truthyStr (Some pc)
              then pushVariant cfg v0 (JsString.trim (pc ++ " " ++ q))
                     (1 - variantDecay cfg) "product" bf true
              else v0
          | None => v0
          end in
        let v2 :=
          match orub with
          | Some rub =>
              if truthyStr (Some rub) && negb (isGeneral (Some rub))
              then pushVariant cfg v1
                     (JsString.trim
                        (JsString.replaceFirst "_" " " rub ++ " " ++ q))
                     (1 - variantDecay cfg) "rubrique" bf false
              else v1
          | None => v1
          end in
        pushSynonyms cfg bf 0 syns v2)
       = firstn cap
           (mkVariant q 1 "base" bf true (buildCacheKey q bf)
            :: mid ++ synonymVariants decay bf 0 syns).
Proof.
  cbv zeta.
  assert (E0 : pushVariant cfg [] q 1 "base" bf true
               = firstn cap [mkVariant q 1 "base" bf true
                                       (buildCacheKey q bf)]).
  { rewrite <- (@firstn_nil Variant cap) at 1.
    unfold cap. now rewrite pushVariant_firstn. }
  rewrite E0. clear E0.
  assert (E1 : exists mid1,
             Forall (fun v => weight v = (1 - decay)%Q
                              /\ isSynonym v = false) mid1
             /\ match opc with
                | Some pc =>
                    if truthyStr (Some pc)
                    then pushVariant cfg
                           (firstn cap
                              [mkVariant q 1 "base" bf true
                                         (buildCacheKey q bf)])
                           (JsString.trim (pc ++ " " ++ q))
                           (1 - variantDecay cfg) "product" bf true
                    else firstn cap
                           [mkVariant q 1 "base" bf true
                                      (buildCacheKey q bf)]
                | None => firstn cap
                            [mkVariant q 1 "base" bf true
                                       (buildCacheKey q bf)]
                end
                = firstn cap
                    (mkVariant q 1 "base" bf true (buildCacheKey q bf)
                     :: mid1)).
  { destruct opc as [pc|]; [| exists []; split; [constructor | reflexivity]].
    destruct (truthyStr (Some pc));
      [| exists []; split; [constructor | reflexivity]].
    eexists [_]. split; cycle 1.
    - unfold cap. rewrite pushVariant_firstn. reflexivity.
    - constructor; [| constructor]. split; reflexivity. }
  destruct E1 as (mid1 & Hmid1 & ->).
  assert (E2 : exists mid,
             Forall (fun v => weight v = (1 - decay)%Q
                              /\ isSynonym v = false) mid
             /\ match orub with
                | Some rub =>
                    if truthyStr (Some rub) && negb (isGeneral (Some rub))
                    then pushVariant cfg
                           (firstn cap
                              (mkVariant q 1 "base" bf true
                                         (buildCacheKey q bf) :: mid1))
                           (JsString.trim
                              (JsString.replaceFirst "_" " " rub
                               ++ " " ++ q))
                           (1 - variantDecay cfg) "rubrique" bf false
                    else firstn cap
                           (mkVariant q 1 "base" bf true
                                      (buildCacheKey q bf) :: mid1)
                | None => firstn cap
                            (mkVariant q 1 "base" bf true
                                       (buildCacheKey q bf) :: mid1)
                end
                = firstn cap
                    (mkVariant q 1 "base" bf true (buildCacheKey q bf)
                     :: mid)).
  { destruct orub as [rub|]; [| now exists mid1].
    destruct (truthyStr (Some rub) && negb (isGeneral (Some rub)));
      [| now exists mid1].
    eexists (mid1 ++ [_]). split; cycle 1.
    - unfold cap. rewrite pushVariant_firstn. reflexivity.
    - apply Forall_app. split; [assumption |].
      constructor; [| constructor]. split; reflexivity. }
  destruct E2 as (mid & Hmid & ->).
  exists mid. split; [assumption |].
  unfold cap, decay. now rewrite pushSynonyms_firstn.
Qed.

(** The builder returns that list whenever the synonym expansion
    completes, which it does on a query of plain words. *)
Lemma buildQueryVariants_shape (q : string) (session : Session) :
  plainWords q ->
  exists (syns : list string) (mid : list Variant),
    expandSynonyms q = Ok syns
    /\ Forall (fun v => weight v = (1 - decay)%Q /\ isSynonym v = false) mid
    /\ buildQueryVariants cfg q session
       = Ok (firstn cap
               (baseVariant q session
                :: mid
                ++ synonymVariants decay
                     (mkVariantFilters (languageCode session)
                                       (s_rubrique session)
                                       (productCode session))
                     0 syns)).
Proof.
  intros Hplain.
  destruct (expandWords_plain q _ Hplain []) as [syns Hsyns].
  change (expandWords q (JsString.splitOn " " q) []) with (expandSynonyms q)
    in Hsyns.
  destruct (pushes_shape
              (mkVariantFilters (languageCode session) (s_rubrique session)
                                (productCode session))
              q (productCode session) (s_rubrique session) syns)
    as (mid & Hmid & E).
  exists syns, mid. split; [assumption |]. split; [assumption |].
  unfold buildQueryVariants. rewrite Hsyns. unfold bind.
  f_equal. exact E.
Qed.

Lemma synonymVariants_all (bf : VariantFilters) (syns : list string) :
  forall index,
    Forall (fun v => isSynonym v = true)
           (synonymVariants decay bf index syns).
Proof.
  induction syns as [|s syns IH]; intros index; simpl; constructor.
  - reflexivity.
  - apply IH.
Qed.

Lemma synonymVariants_weights (bf : VariantFilters) (syns : list string) :
  forall k index,
    map weight (firstn k (synonymVariants decay bf index syns))
    = map (synonymWeight decay)
          (seq index
               (List.length
                  (firstn k (synonymVariants decay bf index syns)))).
Proof.
  induction syns as [|s syns IH]; intros k index.
  - simpl. now rewrite firstn_nil.
  - destruct k as [|k]; [reflexivity |].
    simpl. now rewrite IH.
Qed.

Lemma filter_all {A : Type} (p : A -> bool) (l : list A) :
  Forall (fun x => p x = true) l -> filter p l = l.
Proof.
  induction 1 as [|x l Hx _ IH]; simpl; [reflexivity |].
  now rewrite Hx, IH.
Qed.

Lemma Forall_firstn {A : Type} (P : A -> Prop) (n : nat) (l : list A) :
  Forall P l -> Forall P (firstn n l).
Proof.
  intros H. revert n.
  induction H as [|x l Hx _ IH]; intros [|n]; simpl; constructor; auto.
Qed.

Lemma filter_firstn_prefix (pre t : list Variant) :
  Forall (fun v => isSynonym v = false) pre ->
  Forall (fun v => isSynonym v = true) t ->
  forall n,
    filter isSynonym (firstn n (pre ++ t))
    = firstn (n - List.length pre) t.
Proof.
  intros Hpre Ht. induction Hpre as [|v pre Hv _ IH]; intros n.
  - simpl. rewrite Nat.sub_0_r. apply filter_all. now apply Forall_firstn.
  - destruct n as [|n]; [reflexivity |].
    simpl. rewrite Hv. apply IH.
Qed.

End BuilderShape.

(** C3, as amended: on a query of plain words and with a decay between
    0 and 0.7, the weights of the list the builder returns never
    increase along the list (they do not strictly decrease: the product,
    category and first synonym variants share 1 - decay).  When
    [maxQueryVariants] is positive the list starts with the base
    variant, of weight 1 and with fallback allowed; when it is negative
    (the constructor keeps every number but 0) the list is empty. *)
Theorem buildQueryVariants_base_first_weights_never_increase
        (raw : RagSearchService.RawConfig) (q : string)
        (session : RagSearchService.Session) :
  let cfg := RagSearchService.configure raw in
  (0 <= RagSearchService.variantDecay cfg)%Q ->
  (RagSearchService.variantDecay cfg <= 0.7)%Q ->
  Weights.plainWords q ->
  exists vs,
    RagSearchService.buildQueryVariants cfg q session = Js.Ok vs
    /\ Weights.nonIncreasing (map RagSearchService.weight vs)
    /\ ((0 < RagSearchService.maxQueryVariants cfg)%Q ->
        exists v rest,
          vs = v :: rest
          /\ RagSearchService.weight v = 1%Q
          /\ RagSearchService.allowFallback v = true)
    /\ ((RagSearchService.maxQueryVariants cfg <= 0)%Q -> vs = []).
Proof.
  intros cfg H0 H1 Hplain.
  destruct (buildQueryVariants_shape raw q session Hplain)
    as (syns & mid & _ & Hmid & E).
  fold cfg in E.
  eexists. split; [exact E |]. split; [| split].
  - unfold Weights.nonIncreasing. rewrite <- firstn_map.
    apply adjacent_firstn.
    apply (assembled_sorted cfg H0 H1).
    eapply Forall_impl; [| exact Hmid]. intros a [Ha _]. exact Ha.
  - intros Hcap. apply ceilingCount_positive in Hcap.
    destruct (Js.ceilingCount (RagSearchService.maxQueryVariants cfg))
      as [|cap]; [lia |].
    rewrite firstn_cons. eexists _, _. repeat split.
  - intros Hcap. apply ceilingCount_nonpositive in Hcap.
    now rewrite Hcap.
Qed.

Lemma buildQueryVariants_base_first_weights_never_increase_witness :
  exists vs,
    RagSearchService.buildQueryVariants
      (RagSearchService.configure RagSearchService.emptyConfig)
      "quel prix"
      (RagSearchService.mkSession (Some "fr") (Some "account") (Some "p1"))
    = Js.Ok vs
    /\ Weights.nonIncreasing (map RagSearchService.weight vs)
    /\ exists v rest,
        vs = v :: rest
        /\ RagSearchService.weight v = 1%Q
        /\ RagSearchService.allowFallback v = true.
Proof.
  destruct (buildQueryVariants_base_first_weights_never_increase
              RagSearchService.emptyConfig "quel prix"
              (RagSearchService.mkSession (Some "fr") (Some "account")
                                          (Some "p1")))
    as (vs & E & Hsorted & Hpos & _).
  - vm_compute. discriminate.
  - vm_compute. discriminate.
  - unfold Weights.plainWords. vm_compute. repeat constructor.
  - exists vs. split; [exact E |]. split; [exact Hsorted |].
    apply Hpos. reflexivity.
Defined.

(** C3, counterexample: with the default configuration, a session with
    a product code and the category "account" gives the product and
    the category variants the same weight, so the weights do not
    strictly decrease. *)
Lemma buildQueryVariants_equal_weights :
  exists vs,
    RagSearchService.buildQueryVariants
      (RagSearchService.configure RagSearchService.emptyConfig)
      "question"
      (RagSearchService.mkSession (Some "fr") (Some "account") (Some "p1"))
    = Js.Ok vs
    /\ map RagSearchService.reason vs = ["base"; "product"; "rubrique"]
    /\ ~ Weights.strictlyDecreasing (map RagSearchService.weight vs).
Proof.
  eexists. split; [vm_compute; reflexivity |].
  split; [reflexivity |].
  simpl. intros (_ & H & _). revert H. vm_compute. intros H. discriminate H.
Qed.

(** C4, as amended: on a query of plain words and with a decay between
    0 and 0.7, the builder returns a list whose length is at most every
    whole number that reaches [maxQueryVariants] (so at most
    [maxQueryVariants] rounded up, and no variant at all when it is
    negative) and whose weights never increase along the list; the
    synonym variants have, in order, the weights
    max(0.3, 1 - (index+1) x decay) for index 0, 1, ...; and when
    [maxQueryVariants] is positive the first variant has weight 1 and
    reason "base". *)
Theorem buildQueryVariants_capped_and_ordered
        (raw : RagSearchService.RawConfig) (q : string)
        (session : RagSearchService.Session) :
  let cfg := RagSearchService.configure raw in
  (0 <= RagSearchService.variantDecay cfg)%Q ->
  (RagSearchService.variantDecay cfg <= 0.7)%Q ->
  Weights.plainWords q ->
  exists vs,
    RagSearchService.buildQueryVariants cfg q session = Js.Ok vs
    /\ (forall n : nat,
          (RagSearchService.maxQueryVariants cfg
           <= inject_Z (Z.of_nat n))%Q ->
          List.length vs <= n)
    /\ Weights.nonIncreasing (map RagSearchService.weight vs)
    /\ map RagSearchService.weight (filter Weights.isSynonym vs)
       = map (Weights.synonymWeight (RagSearchService.variantDecay cfg))
             (seq 0 (List.length (filter Weights.isSynonym vs)))
    /\ ((0 < RagSearchService.maxQueryVariants cfg)%Q ->
        exists v rest,
          vs = v :: rest
          /\ RagSearchService.weight v = 1%Q
          /\ RagSearchService.reason v = "base").
Proof.
  intros cfg H0 H1 Hplain.
  destruct (buildQueryVariants_shape raw q session Hplain)
    as (syns & mid & _ & Hmid & E).
  fold cfg in E.
  eexists. split; [exact E |].
  split.
  { intros n Hn. apply ceilingCount_le in Hn.
    etransitivity; [apply firstn_le_length | exact Hn]. }
  split.
  { unfold Weights.nonIncreasing. rewrite <- firstn_map.
    apply adjacent_firstn. apply (assembled_sorted cfg H0 H1).
    eapply Forall_impl; [| exact Hmid]. intros a [Ha _]. exact Ha. }
  split.
  { rewrite app_comm_cons, filter_firstn_prefix.
    - apply (synonymVariants_weights raw).
    - constructor; [reflexivity |].
      eapply Forall_impl; [| exact Hmid]. intros a [_ Ha]. exact Ha.
    - apply (synonymVariants_all raw). }
  intros Hcap. apply ceilingCount_positive in Hcap.
  destruct (Js.ceilingCount (RagSearchService.maxQueryVariants cfg))
    as [|cap]; [lia |].
  rewrite firstn_cons. eexists _, _. repeat split.
Qed.

Lemma buildQueryVariants_capped_and_ordered_witness :
  exists vs,
    RagSearchService.buildQueryVariants
      (RagSearchService.configure RagSearchService.emptyConfig)
      "quel prix"
      (RagSearchService.mkSession (Some "fr") (Some "account") (Some "p1"))
    = Js.Ok vs
    /\ List.length vs <= 4
    /\ Weights.nonIncreasing (map RagSearchService.weight vs)
    /\ map RagSearchService.weight (filter Weights.isSynonym vs)
       = map (Weights.synonymWeight 0.15)
             (seq 0 (List.length (filter Weights.isSynonym vs)))
    /\ exists v rest,
        vs = v :: rest
        /\ RagSearchService.weight v = 1%Q
        /\ RagSearchService.reason v = "base".
Proof.
  destruct (buildQueryVariants_capped_and_ordered
              RagSearchService.emptyConfig "quel prix"
              (RagSearchService.mkSession (Some "fr") (Some "account")
                                          (Some "p1")))
    as (vs & E & Hlen & Hsorted & Hsyn & Hpos).
  - vm_compute. discriminate.
  - vm_compute. discriminate.
  - unfold Weights.plainWords. vm_compute. repeat constructor.
  - exists vs. split; [exact E |].
    split; [apply (Hlen 4); vm_compute; discriminate |].
    split; [exact Hsorted |]. split; [exact Hsyn |].
    apply Hpos. reflexivity.
Defined.

(** C4, counterexample: with a decay of 0.8 the product variant weighs
    0.2 and the synonym variants that follow it weigh 0.3, so the
    weights increase along the list. *)
Lemma buildQueryVariants_weight_increases :
  let raw := RagSearchService.mkRawConfig
               None None None None None None None None (Some 0.8%Q) None in
  exists vs,
    RagSearchService.buildQueryVariants
      (RagSearchService.configure raw) "prix"
      (RagSearchService.mkSession (Some "fr") None (Some "p1"))
    = Js.Ok vs
    /\ map RagSearchService.reason vs
       = ["base"; "product"; "synonym"; "synonym"]
    /\ Forall2 Qeq (map RagSearchService.weight vs)
               [1%Q; 0.2%Q; 0.3%Q; 0.3%Q]
    /\ ~ Weights.nonIncreasing (map RagSearchService.weight vs).
Proof.
  cbv zeta. eexists. split; [vm_compute; reflexivity |].
  split; [reflexivity |]. split.
  - repeat constructor.
  - simpl. intros (_ & H & _). revert H. vm_compute. intros H. now apply H.
Qed.

(** ** Selection of the top candidates *)

Section RetrieveFacts.
Import Js Faq RagSearchService Merging Ranking.

Lemma rankCandidates_nonempty (cs : list Candidate) :
  cs <> [] -> rankCandidates cs <> [].
Proof.
  intros Hne Habs.
  pose proof (rankCandidates_entries cs) as P.
  rewrite Habs in P. simpl in P. apply Permutation_sym in P.
  apply Permutation_nil in P.
  destruct (aggregateCandidates_describes cs) as (_ & _ & Hin).
  destruct cs as [|c cs]; [congruence |].
  specialize (Hin c (or_introl eq_refl)). rewrite P in Hin. exact Hin.
Qed.

Lemma insertByScore_sorted (x : Aggregated) (l : list Aggregated) :
  StronglySorted above l -> StronglySorted above (insertByScore x l).
Proof.
  induction l as [|y l IH]; intros Hs; simpl.
  - constructor; constructor.
  - inversion Hs as [|y' l' Hs' Hall]; subst.
    destruct (Qle_bool (a_score y) (a_score x)) eqn:E.
    + apply Qle_bool_iff in E. constructor; [assumption |].
      constructor; [exact E |].
      eapply Forall_impl; [| exact Hall].
      intros z Hz. unfold above in *. now apply Qle_trans with (a_score y).
    + constructor; [now apply IH |].
      apply not_Qle_bool in E.
      assert (Hin : forall z, In z (insertByScore x l) -> above y z).
      { intros z Hz.
        apply (Permutation_in z (Permutation_sym (insertByScore_perm x l)))
          in Hz.
        destruct Hz as [<- | Hz].
        - unfold above. now apply Qlt_le_weak.
        - rewrite Forall_forall in Hall. now apply Hall. }
      now apply Forall_forall.
Qed.

Lemma sortByScore_sorted (l : list Aggregated) :
  StronglySorted above (sortByScore l).
Proof.
  induction l as [|x l IH]; simpl; [constructor |].
  now apply insertByScore_sorted.
Qed.

Lemma withRanks_ranks (index : nat) (l : list Aggregated) :
  map rank (withRanks index l) = seq (index + 1) (List.length l).
Proof.
  revert index. induction l as [|e l IH]; intros index; simpl.
  - reflexivity.
  - now rewrite IH.
Qed.

Lemma withRanks_length (index : nat) (l : list Aggregated) :
  List.length (withRanks index l) = List.length l.
Proof.
  revert index. induction l as [|e l IH]; intros index; simpl;
    [reflexivity | now rewrite IH].
Qed.

Lemma withRanks_In (index : nat) (l : list Aggregated) (y : Ranked) :
  In y (withRanks index l) -> index + 1 <= rank y /\ In (entry y) l.
Proof.
  revert index. induction l as [|e l IH]; intros index; simpl; [tauto |].
  intros [<- | H]; simpl; [split; [lia | now left] |].
  destruct (IH (S index) H). split; [lia | now right].
Qed.

Lemma withRanks_order (index : nat) (l : list Aggregated) :
  StronglySorted above l ->
  forall x y, In x (withRanks index l) -> In y (withRanks index l) ->
              rank x < rank y -> above (entry x) (entry y).
Proof.
  revert index. induction l as [|e l IH]; intros index Hs x y; simpl;
    [tauto |].
  inversion Hs as [|e' l' Hs' Hall]; subst.
  intros [<- | Hx] [<- | Hy]; simpl; intros Hlt.
  - lia.
  - apply withRanks_In in Hy. rewrite Forall_forall in Hall.
    now apply Hall.
  - apply withRanks_In in Hx. lia.
  - now apply (IH (S index)).
Qed.

Lemma withRanks_sorted (index : nat) (l : list Aggregated) :
  StronglySorted above l ->
  StronglySorted aboveRanked (withRanks index l).
Proof.
  revert index. induction l as [|e l IH]; intros index Hs; simpl;
    [constructor |].
  inversion Hs as [|e' l' Hs' Hall]; subst.
  constructor; [now apply IH |].
  apply Forall_forall. intros y Hy. apply withRanks_In in Hy.
  rewrite Forall_forall in Hall. simpl. now apply Hall.
Qed.

Lemma aboveFloor_iff (cfg : Config) (r : Ranked) :
  aboveFloor cfg r = true <-> (minScore cfg <= a_score (entry r))%Q.
Proof. apply Qle_bool_iff. Qed.

(** What [selectTop] returns. *)
Lemma selectTop_cases (cfg : Config) (ranked : list Ranked) :
  let topK := sliceTo (topKResults cfg) ranked in
  (Exists (fun x => (minScore cfg <= a_score (entry x))%Q) topK
   /\ selectTop cfg ranked = filter (aboveFloor cfg) topK)
  \/ (Forall (fun x => (a_score (entry x) < minScore cfg)%Q) topK
      /\ selectTop cfg ranked = topK).
Proof.
  cbv zeta. unfold selectTop.
  destruct (filter (aboveFloor cfg) (sliceTo (topKResults cfg) ranked))
    as [|x above] eqn:E.
  - right. split; [| reflexivity].
    apply Forall_forall. intros x Hx.
    apply Qnot_le_lt. intros Hle. apply aboveFloor_iff in Hle.
    assert (Hin : In x (filter (aboveFloor cfg)
                               (sliceTo (topKResults cfg) ranked)))
      by (apply filter_In; now split).
    rewrite E in Hin. exact Hin.
  - left. split; [| reflexivity].
    apply Exists_exists. exists x.
    assert (Hin : In x (filter (aboveFloor cfg)
                               (sliceTo (topKResults cfg) ranked)))
      by (rewrite E; now left).
    apply filter_In in Hin as [H1 H2]. split; [assumption |].
    now apply aboveFloor_iff.
Qed.

Lemma selectTop_nonempty (cfg : Config) (ranked : list Ranked) :
  (1 <= topKResults cfg)%Q -> ranked <> [] -> selectTop cfg ranked <> [].
Proof.
  intros Hk Hne. unfold selectTop.
  destruct (filter (aboveFloor cfg) (sliceTo (topKResults cfg) ranked));
    [| discriminate].
  rewrite sliceTo_firstn by lra.
  pose proof (floor_positive _ Hk) as Hpos.
  destruct ranked as [|r ranked]; [congruence |].
  destruct (Z.to_nat (Qfloor (topKResults cfg))); [lia | discriminate].
Qed.

(** A non-null outcome of [retrieve] ranks the collected candidates. *)
Lemma retrieve_some (cfg : Config) (db : Store) (clock : nat -> Z)
      (c c' : CacheState) (q : string) (session : Session)
      (r : Retrieval) :
  retrieve cfg db clock c q session = (c', Ok (Some r)) ->
  exists cs,
    cs <> []
    /\ rankedCandidates r = rankCandidates cs
    /\ topCandidates r = selectTop cfg (rankCandidates cs).
Proof.
  unfold retrieve.
  destruct (buildQueryVariants cfg (normalizeQuery q) session) as [vs|];
    [| discriminate].
  destruct (collect cfg db clock session 0 vs c []) as [c1 cs].
  destruct cs as [|x cs]; [discriminate |].
  intros H. injection H as _ <-. simpl.
  exists (x :: cs). repeat split. discriminate.
Qed.

End RetrieveFacts.

(** C7, as amended: whenever [retrieve] returns a result, its ranked
    candidates are not empty, are numbered 1, 2, ... and none of them
    scores below a later one; with topK the slice
    [ranked.slice(0, topKResults)] (K = 3 by default), the
    [topCandidates] are the members of topK whose score reaches the
    floor (0.35 by default) if there is any, and topK itself otherwise.
    When [topKResults] is at least 1, topK is the first floor(K) ranked
    candidates and [topCandidates] is not empty. *)
Theorem retrieve_topCandidates
        (raw : RagSearchService.RawConfig) (db : RagSearchService.Store)
        (clock : nat -> Z) (c c' : RagSearchService.CacheState)
        (q : string) (session : RagSearchService.Session)
        (r : RagSearchService.Retrieval) :
  let cfg := RagSearchService.configure raw in
  let score := fun x => RagSearchService.a_score (RagSearchService.entry x) in
  let ranked := RagSearchService.rankedCandidates r in
  let topK := Js.sliceTo (RagSearchService.topKResults cfg) ranked in
  RagSearchService.retrieve cfg db clock c q session = (c', Js.Ok (Some r)) ->
  (ranked <> []
   /\ map RagSearchService.rank ranked = seq 1 (List.length ranked)
   /\ StronglySorted Ranking.aboveRanked ranked)
  /\ ((Exists (fun x => (RagSearchService.minScore cfg <= score x)%Q) topK
       /\ RagSearchService.topCandidates r
          = filter (RagSearchService.aboveFloor cfg) topK
       /\ forall x, In x (RagSearchService.topCandidates r)
                    <-> In x topK
                        /\ (RagSearchService.minScore cfg <= score x)%Q)
      \/ (Forall (fun x => (score x < RagSearchService.minScore cfg)%Q) topK
          /\ RagSearchService.topCandidates r = topK))
  /\ ((1 <= RagSearchService.topKResults cfg)%Q ->
      topK = firstn (Z.to_nat (Qfloor (RagSearchService.topKResults cfg)))
                    ranked
      /\ RagSearchService.topCandidates r <> [])
  /\ RagSearchService.topKResults
       (RagSearchService.configure RagSearchService.emptyConfig) = 3%Q
  /\ RagSearchService.minScore
       (RagSearchService.configure RagSearchService.emptyConfig) = 0.35%Q.
Proof.
  intros cfg score ranked topK H.
  destruct (retrieve_some cfg db clock c c' q session r H)
    as (cs & Hne & Hr & Ht).
  subst topK ranked. rewrite Hr, Ht.
  split; [| split; [| split; [| split; reflexivity]]].
  - split; [now apply rankCandidates_nonempty |].
    unfold RagSearchService.rankCandidates. split.
    + rewrite withRanks_ranks, withRanks_length. reflexivity.
    + apply withRanks_sorted, sortByScore_sorted.
  - destruct (selectTop_cases cfg (RagSearchService.rankCandidates cs))
      as [[H1 H2] | [H1 H2]].
    + left. split; [exact H1 |]. split; [exact H2 |].
      intros x. rewrite H2, filter_In.
      now rewrite aboveFloor_iff.
    + right. now split.
  - intros HK. split.
    + apply sliceTo_firstn. lra.
    + apply selectTop_nonempty; [exact HK |].
      now apply rankCandidates_nonempty.
Qed.

Lemma retrieve_topCandidates_witness :
  exists c' r,
    RagSearchService.retrieve Sample.defaults Sample.healthy
                              (fun _ => 1000%Z) Sample.freshCache
                              "horaires" Sample.anonymous
    = (c', Js.Ok (Some r))
    /\ StronglySorted Ranking.aboveRanked (RagSearchService.rankedCandidates r)
    /\ RagSearchService.topCandidates r <> [].
Proof.
  destruct (RagSearchService.retrieve Sample.defaults Sample.healthy
              (fun _ => 1000%Z) Sample.freshCache "horaires"
              Sample.anonymous) as [c' [[r|]|]] eqn:E;
    try (vm_compute in E; discriminate E).
  exists c', r. split; [reflexivity |].
  destruct (retrieve_topCandidates
              RagSearchService.emptyConfig Sample.healthy
              (fun _ => 1000%Z) Sample.freshCache c'
              "horaires" Sample.anonymous r E)
    as ((_ & _ & Hsorted) & _ & HK & _).
  split; [exact Hsorted |].
  apply HK. vm_compute. discriminate.
Defined.

(** C7, counterexample: the constructor keeps a [topKResults] of -1, and
    then [ranked.slice(0, -1)] of the one ranked candidate is empty:
    [retrieve] returns a result whose [topCandidates] is empty. *)
Lemma retrieve_topCandidates_empty :
  let raw := RagSearchService.mkRawConfig
               None None (Some (-1)%Q) None None None None None None None in
  exists c' r,
    RagSearchService.retrieve (RagSearchService.configure raw) Sample.healthy
                              (fun _ => 1000%Z) Sample.freshCache
                              "horaires" Sample.anonymous
    = (c', Js.Ok (Some r))
    /\ RagSearchService.topKResults (RagSearchService.configure raw)
       = (-1)%Q
    /\ List.length (RagSearchService.rankedCandidates r) = 1
    /\ RagSearchService.topCandidates r = [].
Proof.
  cbv zeta. eexists. eexists.
  split; [vm_compute; reflexivity |].
  repeat split.
Qed.

(** ** Retrieval while the store is down *)

Section OutageFacts.
Import Js Faq RagSearchService Outage.

Variable cfg : Config.
Variable db : Store.
Hypothesis db_down : alwaysThrows db.

Lemma buildCacheKey_prefix (q : string) (f : VariantFilters) :
  JsString.startsWith (buildCacheKey q f) "rag:" = true.
Proof.
  unfold buildCacheKey. cbv zeta.
  match goal with
  | |- JsString.startsWith (String.append "rag:" ?rest) _ = _ =>
      generalize rest; intros t; simpl; now destruct t
  end.
Qed.

Lemma pushVariant_keys (vs : list Variant) (q : string) (w : Q)
      (r : string) (f : VariantFilters) (fb : bool) :
  Forall retrievalKey vs -> Forall retrievalKey (pushVariant cfg vs q w r f fb).
Proof.
  intros H. unfold pushVariant.
  destruct (Qle_bool _ _); [assumption |].
  apply Forall_app. split; [assumption |].
  constructor; [apply buildCacheKey_prefix | constructor].
Qed.

Lemma pushSynonyms_keys (bf : VariantFilters) (syns : list string) :
  forall index vs,
    Forall retrievalKey vs ->
    Forall retrievalKey (pushSynonyms cfg bf index syns vs).
Proof.
  induction syns as [|s syns IH]; intros index vs H; simpl; [assumption |].
  apply IH. now apply pushVariant_keys.
Qed.

Lemma buildQueryVariants_keys (q : string) (session : Session)
      (vs : list Variant) :
  buildQueryVariants cfg q session = Ok vs -> Forall retrievalKey vs.
Proof.
  unfold buildQueryVariants.
  destruct (expandSynonyms q) as [syns|]; [| discriminate].
  simpl. intros H. injection H as <-.
  apply pushSynonyms_keys.
  assert (H0 : Forall retrievalKey
                      (pushVariant cfg [] q 1 "base"
                         (mkVariantFilters (languageCode session)
                                           (s_rubrique session)
                                           (productCode session)) true))
    by (apply pushVariant_keys; constructor).
  destruct (s_rubrique session) as [rub|];
    destruct (productCode session) as [pc|]; simpl;
    repeat match goal with
           | |- context [if ?b then _ else _] => destruct b
           end;
    repeat apply pushVariant_keys; try exact H0; constructor.
Qed.

Lemma get_absent {V : Type} (k : string) (m : list (string * V)) :
  (forall k' v, In (k', v) m -> k' <> k) ->
  JsMap.get String.eqb k m = None.
Proof.
  induction m as [|[k' v] m IH]; intros H; simpl; [reflexivity |].
  destruct (String.eqb k k') eqn:E.
  - apply String.eqb_eq in E. exfalso.
    apply (H k' v); [now left | congruence].
  - apply IH. intros k'' v' Hin. apply (H k'' v'). now right.
Qed.

(** A failing store call is answered with [null], and the cache still
    has no retrieval entry. *)
Lemma getCachedResults_down (now : Z) (key q : string) (f : Filters)
      (c : CacheState) :
  noRetrievalEntry c ->
  JsString.startsWith key "rag:" = true ->
  exists c1,
    getCachedResults cfg db now key q f c = (c1, None)
    /\ noRetrievalEntry c1.
Proof.
  intros Hc Hkey. unfold getCachedResults.
  destruct db_down as [Hs _].
  destruct c as [cs|].
  - unfold CacheService.get.
    rewrite get_absent.
    + simpl. rewrite Hs. eexists. split; [reflexivity |]. exact Hc.
    + intros k' e Hin Heq. subst k'. apply Hc in Hin. congruence.
  - rewrite Hs. exists None. now split.
Qed.

Lemma firstContent_down (q : string) (limit : Q) (fs : list Filters) :
  firstContent db q limit fs = None.
Proof.
  destruct db_down as [_ Hc].
  induction fs as [|f fs IH]; simpl; [reflexivity |].
  now rewrite Hc.
Qed.

Lemma searchFallback_down (q : string) (f : Filters) :
  searchFallback cfg db q f = None.
Proof. apply firstContent_down. Qed.

(** The loop visits every variant and gathers nothing. *)
Lemma collect_down (clock : nat -> Z) (session : Session)
      (vs : list Variant) :
  Forall retrievalKey vs ->
  forall index c cands,
    noRetrievalEntry c ->
    exists c',
      collect cfg db clock session index vs c cands = (c', cands)
      /\ noRetrievalEntry c'.
Proof.
  induction 1 as [|v vs Hv _ IH]; intros index c cands Hc; simpl.
  - now exists c.
  - destruct (getCachedResults_down (clock index) (cacheKey v) (query v)
                (buildFilters cfg session v) c Hc Hv) as (c1 & -> & Hc1).
    rewrite searchFallback_down.
    destruct (allowFallback v); apply IH; assumption.
Qed.

End OutageFacts.




(** The word "constructor" names a property that the synonym table
    inherits: the table lookup is truthy, its [forEach] is missing, and
    the [TypeError] leaves [retrieve], whatever the store does. *)
Lemma retrieve_raises_on_inherited_word
      (cfg : RagSearchService.Config) (db : RagSearchService.Store)
      (clock : nat -> Z) (c : RagSearchService.CacheState)
      (session : RagSearchService.Session) :
  RagSearchService.retrieve cfg db clock c "constructor" session
  = (c, Js.TypeError).
Proof.
  unfold RagSearchService.retrieve, RagSearchService.buildQueryVariants.
  reflexivity.
Qed.

(** ** White space: trimming, collapsing and splitting *)

Section TokenFacts.
Import JsString.

Lemma fieldsFrom_nonempty (t : string) (m : bool) : fieldsFrom m t <> [].
Proof.
  revert m. induction t as [|c t IH]; intros m; simpl; [discriminate |].
  destruct (isSpace c).
  - destruct m; [apply IH | discriminate].
  - unfold consHead. destruct (fieldsFrom false t); discriminate.
Qed.

Lemma hd_tl (l : list string) : l <> [] -> l = hd "" l :: tl l.
Proof. destruct l; [congruence | reflexivity]. Qed.

Lemma consHead_hd_tl (c : ascii) (l : list string) :
  l <> [] -> consHead c l = String c (hd "" l) :: tl l.
Proof. destruct l; [congruence | reflexivity]. Qed.

Lemma words_any_mode (t : string) :
  filter notEmpty (fieldsFrom true t) = filter notEmpty (fieldsFrom false t).
Proof.
  destruct t as [|c t]; simpl; [reflexivity |].
  destruct (isSpace c); reflexivity.
Qed.

Lemma allSpace_fields (b : string) :
  allSpace b = true -> fieldsFrom true b = [""].
Proof.
  induction b as [|c b IH]; simpl; intros H; [reflexivity |].
  apply andb_true_iff in H as [H1 H2]. rewrite H1. now apply IH.
Qed.

(** Leading white space adds no word. *)
Lemma wordsOf_space_prefix (a t : string) :
  allSpace a = true -> wordsOf (a ++ t) = wordsOf t.
Proof.
  induction a as [|c a IH]; simpl; intros H; [reflexivity |].
  apply andb_true_iff in H as [H1 H2].
  unfold wordsOf, splitSpaces in *. simpl. rewrite H1. simpl.
  rewrite words_any_mode. now apply IH.
Qed.

Lemma fieldsFrom_space_suffix (b : string) :
  allSpace b = true ->
  forall t m,
    hd "" (fieldsFrom m (t ++ b)) = hd "" (fieldsFrom m t)
    /\ filter notEmpty (tl (fieldsFrom m (t ++ b)))
       = filter notEmpty (tl (fieldsFrom m t)).
Proof.
  intros Hb. induction t as [|c t IH]; intros m.
  - simpl. destruct m.
    + rewrite (allSpace_fields b Hb). now split.
    + destruct b as [|c b]; simpl; [now split |].
      simpl in Hb. apply andb_true_iff in Hb as [H1 H2].
      rewrite H1. simpl. rewrite (allSpace_fields b H2). now split.
  - simpl. destruct (isSpace c).
    + destruct m; [apply IH |].
      simpl. split; [reflexivity |].
      destruct (IH true) as [E1 E2].
      rewrite (hd_tl _ (fieldsFrom_nonempty (t ++ b) true)).
      rewrite (hd_tl _ (fieldsFrom_nonempty t true)).
      simpl. now rewrite E1, E2.
    + destruct (IH false) as [E1 E2].
      rewrite !consHead_hd_tl by apply fieldsFrom_nonempty.
      simpl. now rewrite E1, E2.
Qed.

(** Trailing white space adds no word. *)
Lemma wordsOf_space_suffix (t b : string) :
  allSpace b = true -> wordsOf (t ++ b) = wordsOf t.
Proof.
  intros Hb. unfold wordsOf, splitSpaces.
  destruct (fieldsFrom_space_suffix b Hb t false) as [E1 E2].
  rewrite (hd_tl _ (fieldsFrom_nonempty (t ++ b) false)).
  rewrite (hd_tl _ (fieldsFrom_nonempty t false)).
  simpl. now rewrite E1, E2.
Qed.

(** [trim] removes a run of white space at each end. *)
Lemma trimStart_split (s : string) :
  exists a, allSpace a = true /\ s = (a ++ trimStart s)%string.
Proof.
  induction s as [|c s IH]; simpl.
  - now exists "".
  - destruct (isSpace c) eqn:E.
    + destruct IH as (a & Ha & Hs). exists (String c a). simpl.
      rewrite E, Ha. split; [reflexivity | now rewrite <- Hs].
    + now exists "".
Qed.

Lemma trimEnd_split (s : string) :
  exists b, allSpace b = true /\ s = (trimEnd s ++ b)%string.
Proof.
  induction s as [|c s IH]; simpl.
  - now exists "".
  - destruct IH as (b & Hb & Hs).
    destruct (trimEnd s) as [|d t] eqn:E.
    + simpl in Hs. subst s. destruct (isSpace c) eqn:Ec.
      * exists (String c b). simpl. rewrite Ec, Hb. now split.
      * exists b. now split.
    + exists b. split; [assumption |]. simpl. f_equal. exact Hs.
Qed.

Lemma trim_split (s : string) :
  exists a b,
    allSpace a = true /\ allSpace b = true
    /\ s = (a ++ trim s ++ b)%string.
Proof.
  destruct (trimStart_split s) as (a & Ha & Hs).
  destruct (trimEnd_split (trimStart s)) as (b & Hb & Ht).
  exists a, b. repeat split; try assumption.
  unfold trim. now rewrite <- Ht.
Qed.

Lemma mapChars_append (f : ascii -> ascii) (a b : string) :
  mapChars f (a ++ b) = (mapChars f a ++ mapChars f b)%string.
Proof.
  induction a as [|c a IH]; simpl; [reflexivity | now rewrite IH].
Qed.

Lemma replaceNonWord_allSpace (a : string) :
  allSpace a = true -> allSpace (replaceNonWord a) = true.
Proof.
  induction a as [|c a IH]; simpl; intros H; [reflexivity |].
  apply andb_true_iff in H as [H1 H2].
  unfold blankNonWord. rewrite H1, orb_true_r, H1. now apply IH.
Qed.

(** Trimming before the punctuation is blanked changes no word. *)
Lemma wordsOf_replaceNonWord_trim (s : string) :
  wordsOf (replaceNonWord (trim s)) = wordsOf (replaceNonWord s).
Proof.
  destruct (trim_split s) as (a & b & Ha & Hb & Hs).
  rewrite Hs at 2. unfold replaceNonWord. rewrite !mapChars_append.
  rewrite wordsOf_space_prefix by now apply replaceNonWord_allSpace.
  rewrite wordsOf_space_suffix by now apply replaceNonWord_allSpace.
  reflexivity.
Qed.

End TokenFacts.

Section NormalizeFacts.
Import JsString.

Lemma join_consHead (c : ascii) (l : list string) :
  l <> [] -> join " " (consHead c l) = String c (join " " l).
Proof.
  destruct l as [|f [|g l]]; [congruence | reflexivity | reflexivity].
Qed.

(** Collapsing the runs of white space is joining the pieces with one
    space. *)
Lemma collapseFrom_join (t : string) (m : bool) :
  collapseFrom m t = join " " (fieldsFrom m t).
Proof.
  revert m. induction t as [|c t IH]; intros m; simpl; [reflexivity |].
  destruct (isSpace c).
  - destruct m; [apply IH |].
    rewrite IH.
    pose proof (fieldsFrom_nonempty t true) as Hne.
    destruct (fieldsFrom true t); [congruence | reflexivity].
  - rewrite join_consHead by apply fieldsFrom_nonempty. now rewrite IH.
Qed.

Lemma filledButLast_cons (x : string) (rest : list string) :
  x <> "" -> filledButLast rest -> filledButLast (x :: rest).
Proof. intros Hx Hr. destruct rest; simpl; [exact I | now split]. Qed.

Lemma fieldsFrom_filled (t : string) :
  filledButLast (tl (fieldsFrom false t)) /\ filledButLast (fieldsFrom true t).
Proof.
  induction t as [|c t [IH1 IH2]]; simpl; [now split |].
  destruct (isSpace c); simpl; [now split |].
  rewrite consHead_hd_tl by apply fieldsFrom_nonempty. simpl.
  split; [assumption |].
  apply filledButLast_cons; [discriminate | assumption].
Qed.

Lemma fieldsFrom_noSpace (t : string) (m : bool) :
  Forall (fun f => noSpace f = true) (fieldsFrom m t).
Proof.
  revert m. induction t as [|c t IH]; intros m; simpl.
  - now constructor.
  - destruct (isSpace c) eqn:E.
    + destruct m; [apply IH |]. constructor; [reflexivity | apply IH].
    + specialize (IH false).
      rewrite consHead_hd_tl by apply fieldsFrom_nonempty.
      rewrite (hd_tl _ (fieldsFrom_nonempty t false)) in IH.
      inversion IH as [|x l Hx Hl]; subst.
      constructor; [| assumption].
      unfold noSpace in *. simpl. now rewrite E.
Qed.

Lemma trimStart_noSpace (x : string) : noSpace x = true -> trimStart x = x.
Proof.
  destruct x as [|c x]; simpl; [reflexivity |].
  unfold noSpace. simpl. intros H. apply andb_true_iff in H as [H _].
  now destruct (isSpace c).
Qed.

Lemma trimEnd_noSpace (x : string) : noSpace x = true -> trimEnd x = x.
Proof.
  unfold noSpace. induction x as [|c x IH]; simpl; [reflexivity |].
  intros H. apply andb_true_iff in H as [H1 H2].
  rewrite (IH H2). destruct x; [| reflexivity].
  now destruct (isSpace c).
Qed.

Lemma trimEnd_append (a b : string) :
  trimEnd (a ++ b)
  = if isEmpty (trimEnd b) then trimEnd a else (a ++ trimEnd b)%string.
Proof.
  induction a as [|c a IH]; simpl.
  - destruct (trimEnd b); reflexivity.
  - rewrite IH. destruct (trimEnd b) as [|d t]; simpl; [reflexivity |].
    destruct a; reflexivity.
Qed.

Lemma join_empty (l : list string) :
  Forall (fun f => notEmpty f = true) l -> join " " l = "" -> l = [].
Proof.
  intros H E. destruct l as [|x l]; [reflexivity |].
  inversion H as [|y l' Hx _]; subst.
  destruct x as [|c x]; [discriminate |].
  destruct l; discriminate.
Qed.

Lemma filter_notEmpty_all (l : list string) :
  Forall (fun f => notEmpty f = true) (filter notEmpty l).
Proof.
  apply Forall_forall. intros x Hx. now apply filter_In in Hx.
Qed.

Lemma trimEnd_join (l : list string) :
  Forall (fun f => noSpace f = true) l ->
  filledButLast l ->
  trimEnd (join " " l) = join " " (filter notEmpty l).
Proof.
  induction l as [|x rest IH]; intros Hns Hf; [reflexivity |].
  inversion Hns as [|y l' Hx Hrest]; subst.
  destruct rest as [|y r].
  - simpl. rewrite (trimEnd_noSpace x Hx). now destruct x.
  - destruct Hf as [Hxne Hf].
    assert (Hx' : notEmpty x = true) by (destruct x; [congruence | reflexivity]).
    change (join " " (x :: y :: r))
      with (x ++ (" " ++ join " " (y :: r)))%string.
    change (filter notEmpty (x :: y :: r))
      with (if notEmpty x then x :: filter notEmpty (y :: r)
            else filter notEmpty (y :: r)).
    rewrite Hx'.
    rewrite !trimEnd_append, (IH Hrest Hf).
    pose proof (filter_notEmpty_all (y :: r)) as Hall.
    remember (filter notEmpty (y :: r)) as F eqn:EF. clear EF.
    destruct F as [|z zs].
    + simpl. now apply trimEnd_noSpace.
    + change (join " " (x :: z :: zs))
        with (x ++ (" " ++ join " " (z :: zs)))%string.
      destruct (join " " (z :: zs)) as [|d w] eqn:E.
      * apply join_empty in E; [discriminate | assumption].
      * reflexivity.
Qed.

Lemma trimStart_join (l : list string) :
  Forall (fun f => noSpace f = true) l ->
  filledButLast l ->
  trimStart (join " " l) = join " " l.
Proof.
  intros Hns Hf. destruct l as [|x rest]; [reflexivity |].
  inversion Hns as [|y l' Hx Hrest]; subst.
  destruct rest as [|y r].
  - simpl. now apply trimStart_noSpace.
  - destruct Hf as [Hxne _].
    change (join " " (x :: y :: r))
      with (x ++ (" " ++ join " " (y :: r)))%string.
    destruct x as [|c x]; [congruence |].
    simpl. unfold noSpace in Hx. simpl in Hx.
    apply andb_true_iff in Hx as [Hc _].
    now destruct (isSpace c).
Qed.

Lemma trim_join_fields (t : string) :
  trim (join " " (fieldsFrom false t)) = join " " (wordsOf t).
Proof.
  unfold wordsOf, splitSpaces, trim.
  pose proof (fieldsFrom_noSpace t false) as Hns.
  destruct (fieldsFrom_filled t) as [Hf _].
  rewrite (hd_tl _ (fieldsFrom_nonempty t false)) in *.
  set (f0 := hd "" (fieldsFrom false t)) in *.
  set (R := tl (fieldsFrom false t)) in *.
  inversion Hns as [|y l' H0 HR]; subst.
  destruct f0 as [|c f0].
  - assert (E : trimStart (join " " ("" :: R)) = join " " R).
    { destruct R as [|y r]; [reflexivity |].
      change (join " " ("" :: y :: r))
        with (String " " (join " " (y :: r))).
      change (trimStart (String " " (join " " (y :: r))))
        with (trimStart (join " " (y :: r))).
      now apply trimStart_join. }
    rewrite E. simpl filter. now apply trimEnd_join.
  - rewrite trimStart_join; [| assumption |].
    + apply trimEnd_join; [assumption |].
      apply filledButLast_cons; [discriminate | assumption].
    + apply filledButLast_cons; [discriminate | assumption].
Qed.

(** White space has no capital letter. *)
Lemma toLowerCase_allSpace (a : string) :
  allSpace a = true -> toLowerCase a = a.
Proof.
  unfold toLowerCase.
  induction a as [|c a IH]; simpl; intros H; [reflexivity |].
  apply andb_true_iff in H as [H1 H2]. rewrite (IH H2). f_equal.
  unfold lowerChar, isUpper. unfold isSpace in H1.
  destruct (65 <=? code c) eqn:E1, (code c <=? 90) eqn:E2,
           (192 <=? code c) eqn:E3, (code c <=? 222) eqn:E4,
           (code c =? 215) eqn:E5; simpl; try reflexivity;
    exfalso;
    repeat match goal with
           | H : (_ <=? _) = true |- _ => apply Nat.leb_le in H
           | H : (_ <=? _) = false |- _ => apply Nat.leb_gt in H
           | H : (_ =? _) = true |- _ => apply Nat.eqb_eq in H
           | H : (_ =? _) = false |- _ => apply Nat.eqb_neq in H
           end;
    repeat (apply orb_true_iff in H1 as [H1 | H1]);
    try (apply andb_true_iff in H1 as [Ha Hb];
         apply Nat.leb_le in Ha; apply Nat.leb_le in Hb);
    try apply Nat.eqb_eq in H1; lia.
Qed.

Lemma wordsOf_replaceNonWord_lower_trim (s : string) :
  wordsOf (replaceNonWord (toLowerCase (trim s)))
  = wordsOf (replaceNonWord (toLowerCase s)).
Proof.
  destruct (trim_split s) as (a & b & Ha & Hb & Hs).
  rewrite Hs at 2.
  assert (El : forall x y, toLowerCase (x ++ y)
                           = (toLowerCase x ++ toLowerCase y)%string)
    by (intros; apply mapChars_append).
  rewrite !El, (toLowerCase_allSpace a Ha), (toLowerCase_allSpace b Hb).
  unfold replaceNonWord. rewrite !mapChars_append.
  rewrite wordsOf_space_prefix by now apply replaceNonWord_allSpace.
  rewrite wordsOf_space_suffix by now apply replaceNonWord_allSpace.
  reflexivity.
Qed.

Lemma normalizeSearchTerm_words (q : string) :
  Database.normalizeSearchTerm q
  = join " " (wordsOf (replaceNonWord (toLowerCase q))).
Proof.
  unfold Database.normalizeSearchTerm, collapseSpaces.
  rewrite collapseFrom_join, trim_join_fields.
  apply f_equal, wordsOf_replaceNonWord_lower_trim.
Qed.

(** [normalizeQuery] leaves the words of the lowered, blanked query,
    separated by single spaces. *)
Lemma normalizeQuery_words (q : string) :
  RagSearchService.normalizeQuery q
  = join " " (wordsOf (replaceNonWord (toLowerCase q))).
Proof.
  unfold RagSearchService.normalizeQuery, collapseSpaces.
  rewrite collapseFrom_join, trim_join_fields.
  now rewrite wordsOf_replaceNonWord_trim.
Qed.

End NormalizeFacts.

(** ** Normalization of a query given by its UTF-16 code units *)

Section WideFacts.
Import Utf16.

Ltac unit_facts H :=
  unfold isWordChar, isSpace, isUpper, tabled in H;
  repeat rewrite ?orb_true_iff, ?andb_true_iff, ?negb_true_iff,
    ?N.leb_le, ?N.ltb_lt, ?N.eqb_eq, ?N.eqb_neq in H.

(** A property checked on the 128 units below 128 holds of each. *)
Lemma small_units (P : N -> bool) :
  forallb P (map N.of_nat (seq 0 128)) = true ->
  forall u, (u < 128)%N -> P u = true.
Proof.
  intros H u Hu. rewrite forallb_forall in H. apply H.
  apply in_map_iff. exists (N.to_nat u).
  split; [apply N2Nat.id | apply in_seq; lia].
Qed.

Lemma isWordChar_small (u : N) : isWordChar u = true -> (u < 128)%N.
Proof. intros H. unit_facts H. lia. Qed.

Lemma isWordChar_large (u : N) : (128 <= u)%N -> isWordChar u = false.
Proof.
  intros H. destruct (isWordChar u) eqn:E; [| reflexivity].
  apply isWordChar_small in E. lia.
Qed.

Lemma narrow_large (u : N) :
  (128 <= u)%N ->
  narrow u = if isSpace u then ascii_of_N 160 else ascii_of_N 128.
Proof.
  intros H. unfold narrow.
  destruct (N.ltb_spec u 128); [lia | reflexivity].
Qed.

Lemma narrow_space (u : N) : JsString.isSpace (narrow u) = isSpace u.
Proof.
  destruct (N.ltb_spec u 128) as [Hs | Hl].
  - apply eqb_prop.
    apply (small_units
             (fun u => Bool.eqb (JsString.isSpace (narrow u)) (isSpace u)));
      [vm_compute; reflexivity | exact Hs].
  - rewrite narrow_large by assumption. now destruct (isSpace u).
Qed.

Lemma narrow_word (u : N) : JsString.isWordChar (narrow u) = isWordChar u.
Proof.
  destruct (N.ltb_spec u 128) as [Hs | Hl].
  - apply eqb_prop.
    apply (small_units
             (fun u => Bool.eqb (JsString.isWordChar (narrow u))
                                (isWordChar u)));
      [vm_compute; reflexivity | exact Hs].
  - rewrite narrow_large, isWordChar_large by assumption.
    now destruct (isSpace u).
Qed.

Lemma narrow_blank (u : N) :
  narrow (blankNonWord u) = JsString.blankNonWord (narrow u).
Proof.
  unfold JsString.blankNonWord. rewrite narrow_word, narrow_space.
  unfold blankNonWord. now destruct (isWordChar u || isSpace u).
Qed.

Lemma project_app (a b : text) :
  project (a ++ b) = (project a ++ project b)%string.
Proof.
  induction a as [|u a IH]; simpl; [reflexivity | now rewrite IH].
Qed.

Lemma project_trimStart (t : text) :
  project (trimStart t) = JsString.trimStart (project t).
Proof.
  induction t as [|u t IH]; simpl; [reflexivity |].
  rewrite narrow_space. now destruct (isSpace u).
Qed.

Lemma project_trimEnd (t : text) :
  project (trimEnd t) = JsString.trimEnd (project t).
Proof.
  induction t as [|u t IH]; simpl; [reflexivity |].
  rewrite <- IH, narrow_space.
  destruct (trimEnd t) as [|v w]; simpl; [| reflexivity].
  now destruct (isSpace u).
Qed.

Lemma project_trim (t : text) :
  project (trim t) = JsString.trim (project t).
Proof.
  unfold trim, JsString.trim. now rewrite project_trimEnd, project_trimStart.
Qed.

Lemma project_replaceNonWord (t : text) :
  project (replaceNonWord t) = JsString.replaceNonWord (project t).
Proof.
  induction t as [|u t IH]; simpl; [reflexivity |].
  now rewrite narrow_blank, IH.
Qed.

Lemma project_collapseFrom (t : text) (m : bool) :
  project (collapseFrom m t) = JsString.collapseFrom m (project t).
Proof.
  revert m. induction t as [|u t IH]; intros m; simpl; [reflexivity |].
  rewrite narrow_space. destruct (isSpace u).
  - destruct m; simpl; now rewrite IH.
  - simpl. now rewrite IH.
Qed.

(** The units of a normalized query: ASCII word characters and the
    space. *)
Lemma trimStart_Forall (P : N -> Prop) (t : text) :
  Forall P t -> Forall P (trimStart t).
Proof.
  induction 1 as [|u t Hu Ht IH]; simpl; [constructor |].
  destruct (isSpace u); [assumption | now constructor].
Qed.

Lemma trimEnd_Forall (P : N -> Prop) (t : text) :
  Forall P t -> Forall P (trimEnd t).
Proof.
  induction 1 as [|u t Hu Ht IH]; simpl; [constructor |].
  destruct (trimEnd t) as [|v w].
  - destruct (isSpace u); constructor; [assumption | constructor].
  - now constructor.
Qed.

Lemma replaceNonWord_units (t : text) :
  Forall (fun u => isWordChar u = true \/ isSpace u = true)
         (replaceNonWord t).
Proof.
  induction t as [|u t IH]; simpl; constructor; [| exact IH].
  unfold blankNonWord.
  destruct (isWordChar u) eqn:Ew; [now left |].
  destruct (isSpace u) eqn:Es; simpl; right; [exact Es | reflexivity].
Qed.

Lemma collapseFrom_units (t : text) :
  Forall (fun u => isWordChar u = true \/ isSpace u = true) t ->
  forall m,
    Forall (fun u => isWordChar u = true \/ u = 32%N) (collapseFrom m t).
Proof.
  induction 1 as [|u t Hu Ht IH]; intros m; simpl; [constructor |].
  destruct (isSpace u) eqn:Es.
  - destruct m; [apply IH |]. constructor; [now right | apply IH].
  - constructor; [| apply IH]. destruct Hu as [Hu | Hu]; [now left |].
    congruence.
Qed.

Lemma ofString_cons (c : ascii) (s : string) :
  ofString (String c s) = N_of_ascii c :: ofString s.
Proof. reflexivity. Qed.

(** A text made of ASCII word characters and spaces is the text of its
    projection. *)
Lemma ofString_project (t : text) :
  Forall (fun u => isWordChar u = true \/ u = 32%N) t ->
  ofString (project t) = t.
Proof.
  induction 1 as [|u t Hu Ht IH]; [reflexivity |].
  simpl project. rewrite ofString_cons, IH. f_equal.
  assert (Hs : (u < 128)%N).
  { destruct Hu as [Hu | ->]; [now apply isWordChar_small | reflexivity]. }
  unfold narrow. destruct (N.ltb_spec u 128); [| lia].
  apply N_ascii_embedding. lia.
Qed.

(** The last three steps of the normalization leave the words of the
    blanked text, separated by single spaces. *)
Lemma finish_words (t : text) :
  trim (collapseSpaces (replaceNonWord t))
  = ofString
      (JsString.join " "
         (JsString.wordsOf (JsString.replaceNonWord (project t)))).
Proof.
  rewrite <- (ofString_project (trim (collapseSpaces (replaceNonWord t)))).
  - f_equal. unfold collapseSpaces.
    rewrite project_trim, project_collapseFrom, project_replaceNonWord.
    rewrite collapseFrom_join. apply trim_join_fields.
  - unfold trim. apply trimEnd_Forall, trimStart_Forall.
    apply collapseFrom_units, replaceNonWord_units.
Qed.

(** A run of units that are no word characters separates two fields;
    a word character extends the field that follows it. *)
Lemma blank_is_space (v : N) :
  isWordChar v = false ->
  JsString.isSpace (JsString.blankNonWord (narrow v)) = true.
Proof.
  intros Hv. unfold JsString.blankNonWord.
  rewrite narrow_word, Hv, narrow_space. simpl.
  destruct (isSpace v) eqn:Es; [now rewrite narrow_space | reflexivity].
Qed.

Lemma fields_blank_run (us : text) (X Y : string) :
  us <> [] ->
  Forall (fun v => isWordChar v = false) us ->
  JsString.fieldsFrom true X = JsString.fieldsFrom true Y ->
  forall m,
    JsString.fieldsFrom m (JsString.replaceNonWord (project us) ++ X)
    = JsString.fieldsFrom m (" " ++ Y).
Proof.
  intros Hne Hall HXY.
  induction Hall as [|v us Hv Hus IH]; [congruence |].
  intros m.
  assert (E : JsString.fieldsFrom true
                (JsString.replaceNonWord (project us) ++ X)
              = JsString.fieldsFrom true Y).
  { destruct us as [|w us']; [exact HXY |].
    rewrite IH by discriminate. reflexivity. }
  change (JsString.replaceNonWord (project (v :: us)) ++ X)%string
    with (String (JsString.blankNonWord (narrow v))
                 (JsString.replaceNonWord (project us) ++ X)).
  change (" " ++ Y)%string with (String " " Y).
  cbn [JsString.fieldsFrom]. rewrite (blank_is_space v Hv).
  change (JsString.isSpace " ") with true. now rewrite E.
Qed.

Lemma fields_word (v : N) (X Y : string) :
  isWordChar v = true ->
  JsString.fieldsFrom false X = JsString.fieldsFrom false Y ->
  forall m,
    JsString.fieldsFrom m (JsString.replaceNonWord (project [v]) ++ X)
    = JsString.fieldsFrom m (String (ascii_of_N v) Y).
Proof.
  intros Hv HXY m.
  change (JsString.replaceNonWord (project [v]) ++ X)%string
    with (String (JsString.blankNonWord (narrow v)) X).
  cbn [JsString.fieldsFrom].
  assert (Hn : narrow v = ascii_of_N v).
  { unfold narrow. apply isWordChar_small in Hv.
    destruct (N.ltb_spec v 128); [reflexivity | lia]. }
  assert (Hb : JsString.blankNonWord (narrow v) = narrow v).
  { unfold JsString.blankNonWord. now rewrite narrow_word, Hv. }
  assert (Hs : JsString.isSpace (narrow v) = false).
  { rewrite narrow_space. destruct (isSpace v) eqn:Es; [| reflexivity].
    unit_facts Hv. unit_facts Es. lia. }
  rewrite Hb, Hs, <- Hn, Hs, HXY. reflexivity.
Qed.

Lemma space_not_word (u : N) : isSpace u = true -> isWordChar u = false.
Proof.
  intros Hs. destruct (isWordChar u) eqn:Ew; [| reflexivity].
  unit_facts Hs. unit_facts Ew. lia.
Qed.

Lemma image_space (u : N) : isSpace u = true -> image u = " ".
Proof.
  intros Hs. unfold image. rewrite (space_not_word u Hs).
  destruct (N.eqb_spec u 0x130) as [-> | _]; [discriminate |].
  destruct (N.eqb_spec u 0x212a) as [-> | _]; [discriminate |].
  reflexivity.
Qed.

Lemma images_app (a b : text) :
  images (a ++ b) = (images a ++ images b)%string.
Proof.
  induction a as [|u a IH]; simpl; [reflexivity |].
  rewrite IH. clear IH.
  generalize (image u) as x. intros x.
  induction x as [|c x IHx]; simpl; [reflexivity | now rewrite IHx].
Qed.

Lemma images_spaces (a : text) :
  Forall (fun u => isSpace u = true) a ->
  JsString.allSpace (images a) = true.
Proof.
  induction 1 as [|u a Hu Ha IH]; simpl; [reflexivity |].
  rewrite (image_space u Hu). simpl. exact IH.
Qed.

Lemma trimStart_units (q : text) :
  exists a, Forall (fun u => isSpace u = true) a /\ q = a ++ trimStart q.
Proof.
  induction q as [|u q IH]; simpl.
  - now exists [].
  - destruct (isSpace u) eqn:E.
    + destruct IH as (a & Ha & Hq). exists (u :: a).
      split; [now constructor | simpl; now rewrite <- Hq].
    + now exists [].
Qed.

Lemma trimEnd_units (q : text) :
  exists b, Forall (fun u => isSpace u = true) b /\ q = trimEnd q ++ b.
Proof.
  induction q as [|u q IH]; simpl.
  - now exists [].
  - destruct IH as (b & Hb & Hq).
    destruct (trimEnd q) as [|v t] eqn:E.
    + simpl in Hq. subst q. destruct (isSpace u) eqn:Eu.
      * exists (u :: b). split; [now constructor | reflexivity].
      * exists b. now split.
    + exists b. split; [assumption |]. simpl. f_equal. exact Hq.
Qed.

(** Trimming the query changes no word of its images. *)
Lemma words_images_trim (q : text) :
  JsString.wordsOf (images (trim q)) = JsString.wordsOf (images q).
Proof.
  destruct (trimStart_units q) as (a & Ha & Hq).
  destruct (trimEnd_units (trimStart q)) as (b & Hb & Ht).
  fold (trim q) in Ht. rewrite Hq at 2. rewrite Ht.
  rewrite !images_app.
  rewrite wordsOf_space_prefix by now apply images_spaces.
  rewrite wordsOf_space_suffix by now apply images_spaces.
  reflexivity.
Qed.

(** On the code units of a string of the range 0..255 the two models
    of [toLowerCase] and of the blanking agree. *)
Lemma lowerUnit_ofChar (lowerRest : text -> N -> text -> text)
      (before after : text) (c : ascii) :
  lowerUnit lowerRest before (N_of_ascii c) after
  = [N_of_ascii (JsString.lowerChar c)].
Proof. destruct c as [[] [] [] [] [] [] [] []]; reflexivity. Qed.

Lemma lowerFrom_ofString (lowerRest : text -> N -> text -> text)
      (s : string) :
  forall before,
    lowerFrom lowerRest before (ofString s)
    = ofString (JsString.toLowerCase s).
Proof.
  induction s as [|c s IH]; intros before; [reflexivity |].
  unfold JsString.toLowerCase. simpl JsString.mapChars.
  rewrite !ofString_cons. simpl lowerFrom.
  rewrite lowerUnit_ofChar, IH. reflexivity.
Qed.

Lemma blank_narrow_ofChar (c : ascii) :
  JsString.blankNonWord (narrow (N_of_ascii c)) = JsString.blankNonWord c.
Proof. destruct c as [[] [] [] [] [] [] [] []]; reflexivity. Qed.

Lemma replaceNonWord_project_ofString (s : string) :
  JsString.replaceNonWord (project (ofString s)) = JsString.replaceNonWord s.
Proof.
  induction s as [|c s IH]; [reflexivity |].
  rewrite ofString_cons.
  change (JsString.replaceNonWord (project (N_of_ascii c :: ofString s)))
    with (String (JsString.blankNonWord (narrow (N_of_ascii c)))
                 (JsString.replaceNonWord (project (ofString s)))).
  rewrite blank_narrow_ofChar, IH. reflexivity.
Qed.

(** On a string of the range 0..255, [normalizeQuery] on code units is
    [normalizeQuery] on characters. *)
Lemma wide_normalizeQuery_ofString
      (lowerRest : text -> N -> text -> text) (s : string) :
  normalizeQuery lowerRest (ofString s)
  = ofString (RagSearchService.normalizeQuery s).
Proof.
  unfold normalizeQuery, toLowerCase.
  rewrite lowerFrom_ofString, finish_words, project_trim.
  rewrite wordsOf_replaceNonWord_trim, replaceNonWord_project_ofString.
  now rewrite normalizeQuery_words.
Qed.

Lemma unchanged_blankForms : blankForms unchanged.
Proof.
  intros before u after Ht. unfold unchanged.
  split; [discriminate |]. constructor; [| constructor].
  apply isWordChar_large.
  unfold tabled in Ht. apply orb_false_iff in Ht as [Ht _].
  apply orb_false_iff in Ht as [Ht _].
  apply orb_false_iff in Ht as [Ht _].
  apply N.ltb_ge in Ht. lia.
Qed.

Section Lowered.

Variable lowerRest : text -> N -> text -> text.
Hypothesis lowerRest_blank : blankForms lowerRest.

(** The fields of the lowered and blanked query are those of the images
    of its code units. *)
Lemma fields_images (q : text) :
  forall before m,
    JsString.fieldsFrom m
      (JsString.replaceNonWord (project (lowerFrom lowerRest before q)))
    = JsString.fieldsFrom m (images q).
Proof.
  induction q as [|u q IH]; intros before m; [reflexivity |].
  simpl lowerFrom. simpl images.
  rewrite project_app.
  unfold JsString.replaceNonWord. rewrite mapChars_append.
  fold (JsString.replaceNonWord (project (lowerUnit lowerRest before u q))).
  fold (JsString.replaceNonWord
          (project (lowerFrom lowerRest (before ++ [u]) q))).
  set (X := JsString.replaceNonWord
              (project (lowerFrom lowerRest (before ++ [u]) q))).
  assert (HX : forall m', JsString.fieldsFrom m' X
                          = JsString.fieldsFrom m' (images q))
    by (intros m'; apply IH).
  clearbody X. clear IH.
  unfold lowerUnit, image.
  destruct (isUpper u) eqn:Eup.
  { destruct (isWordChar u) eqn:Ew.
    - apply fields_word; [| apply HX].
      unit_facts Eup. unit_facts Ew.
      unfold isWordChar.
      repeat rewrite ?orb_true_iff, ?andb_true_iff, ?N.leb_le, ?N.eqb_eq.
      lia.
    - assert (E1 : (u =? 0x130)%N = false)
        by (apply N.eqb_neq; unit_facts Eup; lia).
      assert (E2 : (u =? 0x212a)%N = false)
        by (apply N.eqb_neq; unit_facts Eup; lia).
      rewrite E1, E2.
      apply fields_blank_run; [discriminate | | apply HX].
      constructor; [| constructor].
      apply isWordChar_large. unit_facts Eup.
      assert (Hn : ~ (65 <= u <= 90)%N).
      { intros Hr. assert (isWordChar u = true); [| congruence].
        unfold isWordChar.
        repeat rewrite ?orb_true_iff, ?andb_true_iff, ?N.leb_le, ?N.eqb_eq.
        lia. }
      lia. }
  destruct (N.eqb_spec u 0x130) as [-> | N1].
  { change (isWordChar 0x130) with false. cbv iota.
    change (JsString.replaceNonWord (project [0x69%N; 0x307%N]) ++ X)%string
      with (JsString.replaceNonWord (project [0x69%N])
            ++ (JsString.replaceNonWord (project [0x307%N]) ++ X))%string.
    change ("i " ++ images q)%string
      with (String (ascii_of_N 0x69) (" " ++ images q)).
    apply fields_word; [reflexivity |].
    apply fields_blank_run; [discriminate | | apply HX].
    constructor; [reflexivity | constructor]. }
  destruct (N.eqb_spec u 0x212a) as [-> | N2].
  { change (isWordChar 0x212a) with false. cbv iota.
    change ("k" ++ images q)%string
      with (String (ascii_of_N 0x6b) (images q)).
    apply fields_word; [reflexivity | apply HX]. }
  destruct (isWordChar u) eqn:Ew.
  { assert (Ht : tabled u = true).
    { apply isWordChar_small in Ew. unfold tabled.
      destruct (N.ltb_spec u 256); [reflexivity | lia]. }
    rewrite Ht. apply fields_word; [exact Ew | apply HX]. }
  destruct (tabled u) eqn:Et.
  - apply fields_blank_run; [discriminate | | apply HX].
    constructor; [exact Ew | constructor].
  - destruct (lowerRest_blank before u q Et) as [Hne Hall].
    apply fields_blank_run; [exact Hne | exact Hall | apply HX].
Qed.

Lemma words_images (q : text) (before : text) :
  JsString.wordsOf
    (JsString.replaceNonWord (project (lowerFrom lowerRest before q)))
  = JsString.wordsOf (images q).
Proof.
  unfold JsString.wordsOf, JsString.splitSpaces. now rewrite fields_images.
Qed.

(** [normalizeQuery] leaves the words of the images of the code units,
    separated by single spaces. *)
Lemma wide_normalizeQuery_words (q : text) :
  normalizeQuery lowerRest q
  = ofString (JsString.join " " (JsString.wordsOf (images q))).
Proof.
  unfold normalizeQuery. rewrite finish_words, project_trim.
  rewrite wordsOf_replaceNonWord_trim.
  unfold toLowerCase. now rewrite words_images.
Qed.

(** The store's [normalizeSearchTerm], which trims before it lowers,
    returns the same text. *)
Lemma wide_normalizeSearchTerm_words (q : text) :
  normalizeSearchTerm lowerRest q
  = ofString (JsString.join " " (JsString.wordsOf (images q))).
Proof.
  unfold normalizeSearchTerm. rewrite finish_words.
  unfold toLowerCase. now rewrite words_images, words_images_trim.
Qed.

End Lowered.

End WideFacts.
(** C10, as amended: with the query given by its UTF-16 code units,
    [normalizeQuery] (and the store's [normalizeSearchTerm]) returns
    the words of the text obtained by replacing each code unit by its
    image, separated by single spaces.  The image of an ASCII word
    character is its lower-case form; the image of any other code unit
    is a space, with two exceptions that come from [toLowerCase]
    running first: the Kelvin sign U+212A leaves [k], and U+0130 leaves
    [i] followed by a space.  Accented letters are blanked, so
    "probleme" written with e-grave comes out as the two tokens "probl"
    and "me".  On a string of the range 0..255 the normalization is the
    one on characters used in the other statements. *)
Theorem normalizeQuery_blanks_accented_letters
        (lowerRest : Utf16.text -> N -> Utf16.text -> Utf16.text)
        (q : Utf16.text) :
  Utf16.blankForms lowerRest ->
  Utf16.normalizeQuery lowerRest q
  = Utf16.ofString (JsString.join " " (JsString.wordsOf (Utf16.images q)))
  /\ Utf16.normalizeSearchTerm lowerRest q = Utf16.normalizeQuery lowerRest q
  /\ (forall s : string,
         Utf16.normalizeQuery lowerRest (Utf16.ofString s)
         = Utf16.ofString (RagSearchService.normalizeQuery s)
         /\ Database.normalizeSearchTerm s = RagSearchService.normalizeQuery s)
  /\ Forall (fun c => Utf16.image (N_of_ascii c) = " ")
            [Sample.e_acute; Sample.e_grave; Sample.a_grave]
  /\ Utf16.normalizeQuery lowerRest (Utf16.ofString Sample.probleme)
     = Utf16.ofString "probl me"
  /\ JsString.splitOn " " (RagSearchService.normalizeQuery Sample.probleme)
     = ["probl"; "me"].
Proof.
  intros HL.
  split; [now apply wide_normalizeQuery_words |].
  split.
  { now rewrite wide_normalizeSearchTerm_words, wide_normalizeQuery_words. }
  split.
  { intros s. split; [apply wide_normalizeQuery_ofString |].
    now rewrite normalizeSearchTerm_words, normalizeQuery_words. }
  split; [repeat constructor |].
  split; [now rewrite wide_normalizeQuery_ofString | reflexivity].
Qed.

Lemma normalizeQuery_blanks_accented_letters_witness :
  Utf16.normalizeQuery Utf16.unchanged Utf16.istanbul
  = Utf16.ofString "i stanbul".
Proof.
  rewrite (proj1 (normalizeQuery_blanks_accented_letters
                    Utf16.unchanged Utf16.istanbul unchanged_blankForms)).
  reflexivity.
Defined.

(** C10, counterexample: the Kelvin sign U+212A is neither an ASCII word
    character nor white space, and it is not replaced by a space:
    "20 K" written with it is normalized to "20 k", and the sign alone
    to "k". *)
Lemma normalizeQuery_keeps_kelvin_sign :
  Utf16.isWordChar 0x212a = false
  /\ Utf16.isSpace 0x212a = false
  /\ Utf16.normalizeQuery Utf16.unchanged [0x212a%N] = Utf16.ofString "k"
  /\ Utf16.normalizeQuery Utf16.unchanged Utf16.kelvins
     = Utf16.ofString "20 k".
Proof. repeat split. Qed.

(** ** The matcher *)

Section MatcherFacts.
Import JsString Js Faq ChatService Matching.

Lemma startsWith_append (p b : string) : startsWith (p ++ b) p = true.
Proof.
  induction p as [|c p IH]; simpl; [now destruct b |].
  now rewrite Ascii.eqb_refl.
Qed.

Lemma includes_startsWith (x p : string) :
  startsWith x p = true -> includes x p = true.
Proof. intros H. destruct x; cbn [includes]; now rewrite H. Qed.

Lemma includes_append_l (a x p : string) :
  includes x p = true -> includes (a ++ x) p = true.
Proof.
  intros H. induction a as [|c a IH]; simpl; [assumption |].
  rewrite IH. apply orb_true_r.
Qed.

Lemma includes_trim (s : string) : includes s (trim s) = true.
Proof.
  destruct (trim_split s) as (a & b & _ & _ & Hs).
  rewrite Hs at 1. apply includes_append_l.
  apply includes_startsWith, startsWith_append.
Qed.

Lemma keepWord_notEmpty (w : string) : keepWord w = true -> notEmpty w = true.
Proof. destruct w; [discriminate | reflexivity]. Qed.

Lemma filter_keepWord (l : list string) :
  filter keepWord (filter notEmpty l) = filter keepWord l.
Proof.
  induction l as [|x l IH]; simpl; [reflexivity |].
  destruct (notEmpty x) eqn:E; simpl; rewrite IH; [reflexivity |].
  destruct (keepWord x) eqn:K; [| reflexivity].
  apply keepWord_notEmpty in K. congruence.
Qed.

(** The query words do not depend on surrounding white space. *)
Lemma extractQueryWords_trim (s : string) :
  extractQueryWords (trim s) = extractQueryWords s.
Proof.
  unfold extractQueryWords. f_equal.
  rewrite <- (filter_keepWord (splitSpaces (replaceNonWord (trim s)))).
  rewrite <- (filter_keepWord (splitSpaces (replaceNonWord s))).
  f_equal. apply wordsOf_replaceNonWord_trim.
Qed.

Lemma calculateExactMatchScore_values (q question : string) :
  calculateExactMatchScore q question = 1.0%Q
  \/ calculateExactMatchScore q question = 0.9%Q
  \/ calculateExactMatchScore q question = 0%Q.
Proof.
  unfold calculateExactMatchScore.
  destruct (includes question q); [now left |].
  destruct (includes q question); [now right; left |].
  destruct (existsb _ keyPhrases); [now right; left | now right; right].
Qed.

Lemma lengthQ_nonneg {A : Type} (l : list A) : (0 <= lengthQ l)%Q.
Proof.
  unfold lengthQ. change 0%Q with (inject_Z 0). rewrite <- Zle_Qle. lia.
Qed.

Lemma lengthQ_cons {A : Type} (x : A) (l : list A) :
  (lengthQ (x :: l) == lengthQ l + 1)%Q.
Proof.
  unfold lengthQ. simpl List.length.
  rewrite Nat2Z.inj_succ, <- Z.add_1_r, inject_Z_plus. reflexivity.
Qed.

Lemma ratio_bounds (n d : Q) :
  (0 <= n)%Q -> (n <= d)%Q -> (0 < d)%Q ->
  (0 <= n / d)%Q /\ (n / d <= 1)%Q.
Proof.
  intros H0 H1 Hd. split.
  - apply Qle_shift_div_l; [assumption | lra].
  - apply Qle_shift_div_r; [assumption | lra].
Qed.

(** On query words that name no inherited property the semantic loop
    completes, adding at most one per word. *)
Lemma semanticMatches_bounds (questionWords : list string) :
  forall (queryWords : list string) (acc : Q),
    Forall (fun w => inherited w = false) queryWords ->
    exists m, semanticMatches queryWords questionWords acc = Ok m
              /\ (acc <= m)%Q /\ (m <= acc + lengthQ queryWords)%Q.
Proof.
  induction queryWords as [|w ws IH]; intros acc H; simpl.
  - exists acc. split; [reflexivity |].
    change (lengthQ (@nil string)) with 0%Q. lra.
  - inversion H as [|x l Hw Hws]; subst.
    pose proof (lengthQ_cons w ws) as Hlen.
    pose proof (lengthQ_nonneg ws) as Hpos.
    destruct (member w questionWords).
    + destruct (IH (acc + 1)%Q Hws) as (m & -> & H1 & H2).
      exists m. split; [reflexivity |]. lra.
    + unfold lookup. rewrite Hw.
      destruct (JsMap.get String.eqb w synonymMap) as [syns|].
      * destruct (existsb _ syns).
        -- destruct (IH (acc + 0.8)%Q Hws) as (m & -> & H1 & H2).
           exists m. split; [reflexivity |]. lra.
        -- destruct (IH acc Hws) as (m & -> & H1 & H2).
           exists m. split; [reflexivity |]. lra.
      * destruct (IH acc Hws) as (m & -> & H1 & H2).
        exists m. split; [reflexivity |]. lra.
Qed.

(** Every query word found in the question counts for one, and then no
    synonym is looked up. *)
Lemma semanticMatches_all (questionWords : list string) :
  forall (queryWords : list string) (acc : Q),
    Forall (fun w => member w questionWords = true) queryWords ->
    exists m, semanticMatches queryWords questionWords acc = Ok m
              /\ (m == acc + lengthQ queryWords)%Q.
Proof.
  induction queryWords as [|w ws IH]; intros acc H; simpl.
  - exists acc. split; [reflexivity |].
    change (lengthQ (@nil string)) with 0%Q. lra.
  - inversion H as [|x l Hw Hws]; subst. rewrite Hw.
    destruct (IH (acc + 1)%Q Hws) as (m & -> & Hm).
    exists m. split; [reflexivity |].
    rewrite Hm, (lengthQ_cons w ws). lra.
Qed.

Lemma member_self (ws : list string) :
  Forall (fun w => member w ws = true) ws.
Proof.
  apply Forall_forall. intros w Hw. unfold member.
  apply existsb_exists. exists w. split; [assumption | apply String.eqb_refl].
Qed.

Lemma lengthQ_positive {A : Type} (x : A) (l : list A) :
  (0 < lengthQ (x :: l))%Q.
Proof.
  pose proof (lengthQ_cons x l). pose proof (lengthQ_nonneg l). lra.
Qed.

Lemma calculateSemanticScore_bounds (queryWords : list string)
      (question : string) :
  Forall (fun w => inherited w = false) queryWords ->
  exists sem, calculateSemanticScore queryWords question = Ok sem
              /\ (0 <= sem)%Q /\ (sem <= 1)%Q.
Proof.
  intros H. unfold calculateSemanticScore.
  destruct queryWords as [|w ws].
  - exists 0%Q. split; [reflexivity | lra].
  - destruct (semanticMatches_bounds (extractQueryWords question)
                (w :: ws) 0 H) as (m & -> & H1 & H2).
    simpl bind. eexists. split; [reflexivity |].
    apply ratio_bounds; [assumption | lra | apply lengthQ_positive].
Qed.

Lemma calculateSemanticScore_same (w : string) (ws : list string)
      (question : string) :
  extractQueryWords question = w :: ws ->
  exists sem, calculateSemanticScore (w :: ws) question = Ok sem
              /\ (sem == 1)%Q.
Proof.
  intros E. unfold calculateSemanticScore. rewrite E.
  destruct (semanticMatches_all (w :: ws) (w :: ws) 0 (member_self _))
    as (m & -> & Hm).
  simpl bind. eexists. split; [reflexivity |].
  rewrite Hm. pose proof (lengthQ_positive w ws) as Hp. field. lra.
Qed.

Lemma calculatePartialMatchScore_bounds (q question : string) :
  (0 <= calculatePartialMatchScore q question)%Q
  /\ (calculatePartialMatchScore q question <= 1)%Q.
Proof.
  unfold calculatePartialMatchScore.
  destruct (splitSpaces q) as [|w ws] eqn:E; [split; lra |].
  apply ratio_bounds.
  - apply lengthQ_nonneg.
  - unfold lengthQ. rewrite <- Zle_Qle. apply Nat2Z.inj_le.
    apply filter_length_le.
  - apply lengthQ_positive.
Qed.

Lemma orderMatches_le (questionWords queryWords : list string) :
  orderMatches questionWords queryWords <= List.length queryWords - 1.
Proof.
  induction queryWords as [|w1 ws IH]; simpl; [lia |].
  destruct ws as [|w2 ws]; [simpl; lia |].
  simpl in IH. destruct (inOrder questionWords w1 w2); simpl; lia.
Qed.

Lemma calculateWordOrderScore_bounds (queryWords : list string)
      (question : string) :
  (0 <= calculateWordOrderScore queryWords question)%Q
  /\ (calculateWordOrderScore queryWords question <= 1)%Q.
Proof.
  unfold calculateWordOrderScore.
  destruct (List.length queryWords <? 2) eqn:E; [split; lra |].
  apply Nat.ltb_ge in E.
  apply ratio_bounds.
  - change 0%Q with (inject_Z 0). rewrite <- Zle_Qle. lia.
  - rewrite <- Zle_Qle. apply Nat2Z.inj_le. apply orderMatches_le.
  - change 0%Q with (inject_Z 0). rewrite <- Zlt_Qlt. lia.
Qed.

End MatcherFacts.

Section BestMatchFacts.
Import JsString Js Faq ChatService Matching.

Variable threshold : Q.
Variable q : string.
Variable faq : Row.

Let queryLower := trim (toLowerCase q).
Let queryWords := extractQueryWords queryLower.

Hypothesis plain_words : Forall (fun w => inherited w = false) queryWords.
Hypothesis relevance_nonneg : (0 <= dbRelevance faq)%Q.
Hypothesis threshold_low : (threshold <= 0.4)%Q.

Lemma exactFloor_low : (0.4 <= exactFloor queryWords faq)%Q.
Proof.
  unfold exactFloor. destruct queryWords; lra.
Qed.

Lemma getMatchType_exact (semanticScore partialScore : Q) :
  getMatchType 1.0 semanticScore partialScore = "exact".
Proof. reflexivity. Qed.

(** An entry that is not an exact match stays below the floor. *)
Lemma matchEntry_sound (e : option QaEntry) (best : Best) :
  Sound queryWords faq best ->
  exists best',
    matchEntry threshold queryLower queryWords faq e best = Ok best'
    /\ Sound queryWords faq best'
    /\ (snd best <= snd best')%Q.
Proof.
  intros Hs.
  assert (Hsame : exists best',
             Ok best = Ok best' /\ Sound queryWords faq best'
             /\ (snd best <= snd best')%Q)
    by (exists best; repeat split; [assumption | apply Qle_refl]).
  unfold matchEntry.
  destruct e as [e|]; [| exact Hsame].
  destruct (code e) as [c|]; [| exact Hsame].
  destruct (data e) as [d|]; [| exact Hsame].
  destruct (String.eqb c "app.faq_entry"); [| exact Hsame].
  set (question := toLowerCase match Faq.question d with
                               | Some x => x
                               | None => ""
                               end).
  destruct (calculateSemanticScore_bounds queryWords question plain_words)
    as (sem & Esem & Hsem0 & Hsem1).
  rewrite Esem. simpl bind.
  pose proof (calculatePartialMatchScore_bounds queryLower question)
    as [Hp0 Hp1].
  pose proof (calculateWordOrderScore_bounds queryWords question)
    as [Ho0 Ho1].
  set (ex := calculateExactMatchScore queryLower question) in *.
  set (part := calculatePartialMatchScore queryLower question) in *.
  set (ord := calculateWordOrderScore queryWords question) in *.
  fold (dbRelevance faq).
  set (final := (ex * 0.4 + sem * 0.3 + part * 0.2 + ord * 0.1
                 + dbRelevance faq * 0.1)%Q).
  destruct (negb (Qle_bool final (snd best)) && Qle_bool threshold final)
    eqn:Ecmp; [| exact Hsame].
  apply andb_true_iff in Ecmp as [Hgt _].
  apply negb_true_iff, not_Qle_bool in Hgt.
  eexists. split; [reflexivity |]. split; [| simpl; lra].
  unfold Sound. simpl. split; [reflexivity |]. split; [reflexivity |].
  unfold getMatchType.
  destruct (Qle_bool ex 0.8) eqn:Eex; [| now left].
  right.
  assert (Hex : ex = 0%Q).
  { destruct (calculateExactMatchScore_values queryLower question)
      as [H | [H | H]]; fold ex in H; rewrite H in Eex;
      [discriminate | discriminate | exact H]. }
  unfold final. rewrite Hex. unfold exactFloor.
  destruct queryWords as [|w ws] eqn:Eqw.
  - simpl in Esem. injection Esem as <-.
    assert (Hord : ord = 0%Q) by reflexivity.
    rewrite Hord. lra.
  - lra.
Qed.

(** The entry that asks the query is an exact match and reaches the
    floor. *)
Lemma matchEntry_asking (question : string) (answer : option string)
      (best : Best) :
  sameQuestion q question ->
  Sound queryWords faq best ->
  exists best',
    matchEntry threshold queryLower queryWords faq
               (entryAsking question answer) best = Ok best'
    /\ Sound queryWords faq best'
    /\ (exactFloor queryWords faq <= snd best')%Q.
Proof.
  intros Hq Hs. unfold matchEntry, entryAsking. simpl.
  set (lowered := toLowerCase question).
  assert (Hex : calculateExactMatchScore queryLower lowered = 1.0%Q).
  { unfold calculateExactMatchScore, queryLower.
    unfold sameQuestion in Hq. rewrite <- Hq. fold lowered.
    now rewrite includes_trim. }
  assert (Hwords : extractQueryWords lowered = queryWords).
  { unfold queryWords, queryLower. unfold sameQuestion in Hq.
    rewrite <- Hq. fold lowered. symmetry. apply extractQueryWords_trim. }
  pose proof (calculatePartialMatchScore_bounds queryLower lowered)
    as [Hp0 Hp1].
  pose proof (calculateWordOrderScore_bounds queryWords lowered)
    as [Ho0 Ho1].
  pose proof exactFloor_low as Hfloor.
  assert (Hsem : exists sem,
             calculateSemanticScore queryWords lowered = Ok sem
             /\ (exactFloor queryWords faq
                 <= 1.0 * 0.4 + sem * 0.3
                    + calculatePartialMatchScore queryLower lowered * 0.2
                    + calculateWordOrderScore queryWords lowered * 0.1
                    + dbRelevance faq * 0.1)%Q).
  { unfold exactFloor in *. destruct queryWords as [|w ws] eqn:Eqw.
    - exists 0%Q. split; [reflexivity | lra].
    - destruct (calculateSemanticScore_same w ws lowered Hwords)
        as (sem & Es & Hone).
      exists sem. split; [assumption |]. rewrite Hone. lra. }
  destruct Hsem as (sem & Esem & Hge).
  rewrite Esem, Hex. simpl bind. fold (dbRelevance faq).
  set (final := (1.0 * 0.4 + sem * 0.3
                 + calculatePartialMatchScore queryLower lowered * 0.2
                 + calculateWordOrderScore queryWords lowered * 0.1
                 + dbRelevance faq * 0.1)%Q) in *.
  assert (Hthr : Qle_bool threshold final = true)
    by (apply Qle_bool_iff; lra).
  rewrite Hthr, andb_true_r.
  destruct (Qle_bool final (snd best)) eqn:Ecmp; simpl.
  - apply Qle_bool_iff in Ecmp.
    exists best. split; [reflexivity |]. split; [assumption | lra].
  - eexists. split; [reflexivity |]. split; [| simpl; lra].
    unfold Sound. simpl. split; [reflexivity |]. split; [reflexivity |].
    now left.
Qed.

(** After the inner loop the search state is sound, and it has reached
    the floor as soon as one entry asks the query. *)
Lemma matchEntries_reach (question : string) (answer : option string) :
  sameQuestion q question ->
  forall (entries : list (option QaEntry)) (best : Best),
    Sound queryWords faq best ->
    (exactFloor queryWords faq <= snd best)%Q
    \/ In (entryAsking question answer) entries ->
    let result :=
      matchEntries threshold queryLower queryWords faq entries best in
    Sound queryWords faq result
    /\ (exactFloor queryWords faq <= snd result)%Q.
Proof.
  intros Hq. induction entries as [|e entries IH]; intros best Hs Hr; simpl.
  - destruct Hr as [Hr | []]. now split.
  - destruct Hr as [Hr | [He | Hin]].
    + destruct (matchEntry_sound e best Hs) as (best' & -> & Hs' & Hle).
      apply IH; [assumption |]. left. lra.
    + subst e.
      destruct (matchEntry_asking question answer best Hq Hs)
        as (best' & -> & Hs' & Hge).
      apply IH; [assumption |]. now left.
    + destruct (matchEntry_sound e best Hs) as (best' & -> & Hs' & Hle).
      apply IH; [assumption |]. now right.
Qed.

Lemma matchRow_entries (best : Best) :
  matchRow threshold queryLower queryWords best faq
  = matchEntries threshold queryLower queryWords faq
                 (entriesOf (qa_data faq)) best.
Proof.
  unfold matchRow, entriesOf. now destruct (qa_data faq).
Qed.

Lemma best_of_row (question : string) (answer : option string) :
  sameQuestion q question ->
  In (entryAsking question answer) (entriesOf (qa_data faq)) ->
  exists m,
    fst (matchRow threshold queryLower queryWords (None, 0%Q) faq) = Some m
    /\ m_faqId m = id faq
    /\ m_matchType m = "exact"
    /\ (exactFloor queryWords faq <= m_score m)%Q.
Proof.
  intros Hq Hin. rewrite matchRow_entries.
  destruct (matchEntries_reach question answer Hq
              (entriesOf (qa_data faq)) (None, 0%Q))
    as [Hs Hr]; [reflexivity | now right |].
  pose proof exactFloor_low as Hfloor.
  unfold Sound in Hs.
  destruct (matchEntries threshold queryLower queryWords faq
              (entriesOf (qa_data faq)) (None, 0%Q)) as [[m|] s];
    simpl in *.
  - destruct Hs as (-> & Hid & [Ht | Hlt]).
    + exists m. now repeat split.
    + lra.
  - subst s. lra.
Qed.

End BestMatchFacts.




(** With the threshold 0.6 that config.js sets by default, the same
    exact match is rejected. *)
Lemma exact_question_rejected_by_threshold :
  ChatService.findBestQAMatchEnhanced (Some 0.6%Q) "ou" [Sample.rowOf 1 "Ou"]
  = None.
Proof. reflexivity. Qed.

(** The query word "constructor" names a property that the synonym
    table of [getSynonyms] inherits: on the first entry that lacks the
    word the lookup returns a value without [some], the [TypeError]
    leaves the row's [try] block, and the entry that asks the query is
    never visited. *)
Lemma matcher_skips_row_on_inherited_word :
  let faq :=
    Faq.mkRow 3 None None None
              (Faq.QaList [Sample.entryOf "Bonjour" "answer";
                           Sample.entryOf "constructor" "answer"])
              Faq.NoDate None None in
  ChatService.findBestQAMatchEnhanced None "constructor" [faq] = None.
Proof. reflexivity. Qed.

(* ================================================================== *)
(** * Part III: further properties of the code                         *)
(* ================================================================== *)

(** ** Maps in insertion order *)

Section MapFacts.
Context {A : Type}.

Lemma get_set_same (k : string) (v : A) (m : list (string * A)) :
  JsMap.get String.eqb k (JsMap.set String.eqb k v m) = Some v.
Proof.
  induction m as [|[k' v'] m IH]; simpl.
  - now rewrite String.eqb_refl.
  - destruct (String.eqb k k') eqn:E; simpl; rewrite E; [reflexivity | exact IH].
Qed.

Lemma get_set_other (k k' : string) (v : A) (m : list (string * A)) :
  k' <> k ->
  JsMap.get String.eqb k' (JsMap.set String.eqb k v m)
  = JsMap.get String.eqb k' m.
Proof.
  intros Hne. induction m as [|[k0 v0] m IH]; simpl.
  - apply String.eqb_neq in Hne. now rewrite Hne.
  - destruct (String.eqb k k0) eqn:E; simpl.
    + apply String.eqb_eq in E. subst k0.
      apply String.eqb_neq in Hne. now rewrite Hne.
    + now rewrite IH.
Qed.

Lemma get_delete_other (k k' : string) (m : list (string * A)) :
  k' <> k ->
  JsMap.get String.eqb k' (JsMap.delete String.eqb k m)
  = JsMap.get String.eqb k' m.
Proof.
  intros Hne. induction m as [|[k0 v0] m IH]; simpl; [reflexivity |].
  destruct (String.eqb k k0) eqn:E; simpl.
  - apply String.eqb_eq in E. subst k0.
    apply String.eqb_neq in Hne. now rewrite Hne.
  - now rewrite IH.
Qed.

Lemma get_delete_same (k : string) (m : list (string * A)) :
  NoDup (map fst m) ->
  JsMap.get String.eqb k (JsMap.delete String.eqb k m) = None.
Proof.
  intros Hnd. apply get_absent. intros k' v Hin Heq. subst k'.
  apply (delete_keys k m Hnd). apply in_map_iff. now exists (k, v).
Qed.

Lemma get_Some_In (k : string) (v : A) (m : list (string * A)) :
  JsMap.get String.eqb k m = Some v -> In (k, v) m.
Proof.
  induction m as [|[k' v'] m IH]; simpl; [discriminate |].
  destruct (String.eqb k k') eqn:E.
  - apply String.eqb_eq in E. intros H. injection H as ->. subst. now left.
  - intros H. right. now apply IH.
Qed.

Lemma In_get_Some (k : string) (v : A) (m : list (string * A)) :
  NoDup (map fst m) -> In (k, v) m -> JsMap.get String.eqb k m = Some v.
Proof.
  induction m as [|[k' v'] m IH]; simpl; intros Hnd Hin; [contradiction |].
  inversion Hnd as [|x l Hnotin Hnd']; subst.
  destruct Hin as [H | H].
  - injection H as -> ->. now rewrite String.eqb_refl.
  - destruct (String.eqb k k') eqn:E.
    + apply String.eqb_eq in E. subst k'. exfalso. apply Hnotin.
      apply in_map_iff. now exists (k, v).
    + now apply IH.
Qed.

Lemma delete_absent (k : string) (m : list (string * A)) :
  ~ In k (map fst m) -> JsMap.delete String.eqb k m = m.
Proof.
  induction m as [|[k' v'] m IH]; simpl; intros H; [reflexivity |].
  destruct (String.eqb k k') eqn:E.
  - apply String.eqb_eq in E. subst. tauto.
  - rewrite IH; [reflexivity | tauto].
Qed.

Lemma delete_NoDup (k : string) (m : list (string * A)) :
  NoDup (map fst m) -> NoDup (map fst (JsMap.delete String.eqb k m)).
Proof.
  induction m as [|[k' v'] m IH]; simpl; intros Hnd; [constructor |].
  inversion Hnd as [|x l Hnotin Hnd']; subst.
  destruct (String.eqb k k'); [assumption |].
  simpl. constructor; [| now apply IH].
  intros H. apply Hnotin. eapply delete_other_keys. exact H.
Qed.

Lemma set_keys (k : string) (v : A) (m : list (string * A)) :
  map fst (JsMap.set String.eqb k v m)
  = if JsMap.has String.eqb k m then map fst m else map fst m ++ [k].
Proof.
  unfold JsMap.has. induction m as [|[k' v'] m IH]; simpl; [reflexivity |].
  destruct (String.eqb k k'); simpl; [reflexivity |].
  rewrite IH. now destruct (JsMap.get String.eqb k m).
Qed.

Lemma set_NoDup (k : string) (v : A) (m : list (string * A)) :
  NoDup (map fst m) -> NoDup (map fst (JsMap.set String.eqb k v m)).
Proof.
  intros Hnd. rewrite set_keys.
  destruct (JsMap.has String.eqb k m) eqn:E; [assumption |].
  apply Permutation_NoDup with (l := k :: map fst m).
  - apply Permutation_cons_append.
  - constructor; [| assumption].
    intros H. apply has_In in H. congruence.
Qed.

End MapFacts.

Section MapSync.
Context {A B : Type}.

(** Two maps with the same keys keep the same keys under the same
    deletion and the same insertion. *)
Lemma delete_sync (k : string) (m1 : list (string * A))
      (m2 : list (string * B)) :
  map fst m1 = map fst m2 ->
  map fst (JsMap.delete String.eqb k m1)
  = map fst (JsMap.delete String.eqb k m2).
Proof.
  revert m2. induction m1 as [|[k1 v1] m1 IH]; intros [|[k2 v2] m2] H;
    simpl in *; try discriminate; [reflexivity |].
  injection H as -> H.
  destruct (String.eqb k k2); [assumption |].
  simpl. now rewrite (IH m2).
Qed.

Lemma has_sync (k : string) (m1 : list (string * A))
      (m2 : list (string * B)) :
  map fst m1 = map fst m2 ->
  JsMap.has String.eqb k m1 = JsMap.has String.eqb k m2.
Proof.
  intros H.
  destruct (JsMap.has String.eqb k m1) eqn:E1,
           (JsMap.has String.eqb k m2) eqn:E2; try reflexivity.
  - apply has_In in E1. rewrite H in E1. apply has_In in E1. congruence.
  - apply has_In in E2. rewrite <- H in E2. apply has_In in E2. congruence.
Qed.

Lemma set_sync (k : string) (v1 : A) (v2 : B) (m1 : list (string * A))
      (m2 : list (string * B)) :
  map fst m1 = map fst m2 ->
  map fst (JsMap.set String.eqb k v1 m1)
  = map fst (JsMap.set String.eqb k v2 m2).
Proof.
  intros H. rewrite !set_keys, (has_sync k m1 m2 H), H. reflexivity.
Qed.

End MapSync.

(** ** The cache: its two maps stay in step *)

Section CacheShape.
Import CacheService.
Context {V : Type}.
Implicit Types c : CacheService.t V.

Lemma delete_cache (key : string) c :
  cache (fst (delete key c)) = JsMap.delete String.eqb key (cache c).
Proof.
  unfold delete. destruct (JsMap.has String.eqb key (cache c)) eqn:E; simpl.
  - reflexivity.
  - symmetry. apply delete_absent. intros H. apply has_In in H. congruence.
Qed.

Lemma delete_order (key : string) c :
  CacheMore.WellFormed c ->
  accessOrder (fst (delete key c))
  = JsMap.delete String.eqb key (accessOrder c).
Proof.
  intros [_ Hsync]. unfold delete.
  destruct (JsMap.has String.eqb key (cache c)) eqn:E; simpl.
  - reflexivity.
  - symmetry. apply delete_absent. rewrite Hsync.
    intros H. apply has_In in H. congruence.
Qed.

Lemma delete_limits (key : string) c :
  maxEntries (fst (delete key c)) = maxEntries c
  /\ ttl (fst (delete key c)) = ttl c.
Proof.
  unfold delete. now destruct (JsMap.has String.eqb key (cache c)).
Qed.

Lemma delete_wf (key : string) c :
  CacheMore.WellFormed c -> CacheMore.WellFormed (fst (delete key c)).
Proof.
  intros Hwf. pose proof Hwf as [Hnd Hsync]. split.
  - rewrite delete_cache. now apply delete_NoDup.
  - rewrite delete_order, delete_cache by assumption.
    now apply delete_sync.
Qed.

Lemma withStats_wf (f : Stats -> Stats) c :
  CacheMore.WellFormed c -> CacheMore.WellFormed (withStats V f c).
Proof. intros H. exact H. Qed.

Lemma evictOldest_wf (now : Z) c :
  CacheMore.WellFormed c -> CacheMore.WellFormed (evictOldest now c).
Proof.
  intros Hwf. unfold evictOldest.
  destruct (accessOrder c); [assumption |].
  destruct (findOldest _ None now) as [k|]; [| assumption].
  destruct (JsString.isEmpty k); [assumption |].
  apply withStats_wf. now apply delete_wf.
Qed.

Lemma set_wf (now : Z) (key : string) (v : V) (customTtl : option Z) c :
  CacheMore.WellFormed c ->
  CacheMore.WellFormed (set now key v customTtl c).
Proof.
  intros Hwf. unfold set.
  set (c1 := if Qle_bool (maxEntries c) (sizeQ c)
                && negb (JsMap.has String.eqb key (cache c))
             then evictOldest now c else c).
  assert (H1 : CacheMore.WellFormed c1).
  { unfold c1. destruct (_ && _); [now apply evictOldest_wf | assumption]. }
  destruct H1 as [Hnd Hsync]. split; simpl.
  - now apply set_NoDup.
  - now apply set_sync.
Qed.

Lemma set_present_keys {A : Type} (k : string) (v : A)
      (m : list (string * A)) :
  In k (map fst m) -> map fst (JsMap.set String.eqb k v m) = map fst m.
Proof.
  intros H. rewrite set_keys. apply has_In in H. now rewrite H.
Qed.

Lemma get_wf (now : Z) (key : string) c :
  CacheMore.WellFormed c -> CacheMore.WellFormed (fst (get now key c)).
Proof.
  intros Hwf. unfold get.
  destruct (JsMap.get String.eqb key (cache c)) as [e|] eqn:E.
  - destruct (now >? expires e)%Z; simpl.
    + apply withStats_wf. now apply delete_wf.
    + destruct Hwf as [Hnd Hsync]. split; simpl; [assumption |].
      rewrite set_present_keys; [assumption |].
      rewrite Hsync. apply get_Some_In in E.
      apply in_map_iff. now exists (key, e).
  - now apply withStats_wf.
Qed.

Lemma has_wf (now : Z) (key : string) c :
  CacheMore.WellFormed c ->
  CacheMore.WellFormed (fst (CacheMore.has now key c)).
Proof.
  intros Hwf. unfold CacheMore.has.
  destruct (JsMap.get String.eqb key (cache c)) as [e|]; [| assumption].
  destruct (now >? expires e)%Z; simpl; [now apply delete_wf | assumption].
Qed.

Lemma deletes_wf (ks : list string) c :
  CacheMore.WellFormed c ->
  CacheMore.WellFormed
    (fold_left (fun acc key => fst (delete key acc)) ks c).
Proof.
  revert c. induction ks as [|k ks IH]; intros c Hwf; simpl.
  - assumption.
  - apply IH. now apply delete_wf.
Qed.

Lemma cleanup_wf (now : Z) c :
  CacheMore.WellFormed c -> CacheMore.WellFormed (CacheMore.cleanup now c).
Proof. intros Hwf. now apply deletes_wf. Qed.

Lemma clear_wf c : CacheMore.WellFormed (fst (CacheMore.clear c)).
Proof. split; simpl; [constructor | reflexivity]. Qed.

Lemma create_wf (cfgMaxEntries : option Q) (cfgTtl : option Z) :
  CacheMore.WellFormed (@create V cfgMaxEntries cfgTtl).
Proof. split; simpl; [constructor | reflexivity]. Qed.

Lemma step_wf (now : Z) (op : CacheMore.Op V) c :
  CacheMore.WellFormed c -> CacheMore.WellFormed (CacheMore.step now op c).
Proof.
  intros Hwf. destruct op; simpl.
  - now apply set_wf.
  - now apply get_wf.
  - now apply has_wf.
  - now apply delete_wf.
  - now apply cleanup_wf.
  - apply clear_wf.
Qed.

Lemma run_wf (trace : list (Z * CacheMore.Op V)) c :
  CacheMore.WellFormed c -> CacheMore.WellFormed (CacheMore.run trace c).
Proof.
  revert c. induction trace as [|[now op] trace IH]; intros c Hwf; simpl.
  - assumption.
  - apply IH. now apply step_wf.
Qed.

(** X1. Whatever calls a cache has received since its construction
    ([set], [get], [has], [delete], [cleanup], [clear], at any clock
    readings), its entry map and its access-order map hold the same keys
    in the same order, each key once. *)
Theorem cache_maps_hold_same_keys
        (cfgMaxEntries : option Q) (cfgTtl : option Z)
        (trace : list (Z * CacheMore.Op V)) :
  let c := CacheMore.run trace (create cfgMaxEntries cfgTtl) in
  NoDup (map fst (cache c))
  /\ map fst (accessOrder c) = map fst (cache c).
Proof. apply run_wf, create_wf. Qed.

End CacheShape.

(** ** The cache: what its calls return *)

Section CacheBehaviour.
Import CacheService.
Context {V : Type}.
Implicit Types c : CacheService.t V.

Lemma get_after_set (now now' : Z) (key : string) (v : V)
      (customTtl : option Z) c :
  snd (get now' key (set now key v customTtl c))
  = if (now' >? now + CacheMore.effectiveTtl customTtl c)%Z
    then None else Some v.
Proof.
  unfold get, set. cbn [cache]. rewrite get_set_same. cbn [expires value].
  unfold CacheMore.effectiveTtl.
  now destruct (now' >? _)%Z.
Qed.

Lemma get_limits (now : Z) (key : string) c :
  ttl (fst (get now key c)) = ttl c.
Proof.
  unfold get. destruct (JsMap.get String.eqb key (cache c)) as [e|];
    [| reflexivity].
  destruct (now >? expires e)%Z; [| reflexivity].
  cbn [fst withStats ttl]. apply delete_limits.
Qed.

(** X2. A value stored with [set] is what [get] returns for the same key
    until its time to live has run out (the custom one if given and not
    zero, the cache's otherwise); read later than that, the key gives
    null.  This holds also when the [set] had to evict. *)
Theorem set_then_get (now now' : Z) (key : string) (v : V)
        (customTtl : option Z) c :
  snd (get now' key (set now key v customTtl c))
  = if (now' >? now + CacheMore.effectiveTtl customTtl c)%Z
    then None else Some v.
Proof. apply get_after_set. Qed.

(** X3. A [set] that does not evict (the key is already cached, or the
    cache is below its capacity) leaves every other key as it was: a
    [get] of another key returns what it returned before. *)
Theorem set_keeps_other_keys (now now' : Z) (key other : string) (v : V)
        (customTtl : option Z) c :
  other <> key ->
  (sizeQ c < maxEntries c)%Q \/ JsMap.has String.eqb key (cache c) = true ->
  snd (get now' other (set now key v customTtl c)) = snd (get now' other c).
Proof.
  intros Hne Hroom. unfold set.
  assert (Hc : Qle_bool (maxEntries c) (sizeQ c)
               && negb (JsMap.has String.eqb key (cache c)) = false).
  { destruct Hroom as [H | H].
    - apply not_Qle_bool in H. now rewrite H.
    - rewrite H. apply andb_false_r. }
  rewrite Hc. unfold get. cbn [cache].
  rewrite get_set_other by assumption.
  destruct (JsMap.get String.eqb other (cache c)) as [e|]; [| reflexivity].
  now destruct (now' >? expires e)%Z.
Qed.

(** X4. Reading an entry after its expiry time returns null, removes the
    entry from both maps and counts one miss and one delete; the other
    entries stay. *)
Theorem get_expired_removes (now : Z) (key : string) (e : Entry V) c :
  CacheMore.WellFormed c ->
  JsMap.get String.eqb key (cache c) = Some e ->
  (expires e < now)%Z ->
  let c' := fst (get now key c) in
  snd (get now key c) = None
  /\ JsMap.has String.eqb key (cache c') = false
  /\ JsMap.has String.eqb key (accessOrder c') = false
  /\ S (size c') = size c
  /\ (forall other, other <> key ->
        JsMap.get String.eqb other (cache c')
        = JsMap.get String.eqb other (cache c))
  /\ misses (stats c') = S (misses (stats c))
  /\ deletes (stats c') = S (deletes (stats c)).
Proof.
  intros Hwf Hget Hlt. pose proof Hwf as [Hnd Hsync].
  assert (Hin : In key (map fst (cache c))).
  { apply get_Some_In in Hget. apply in_map_iff. now exists (key, e). }
  assert (Hhas : JsMap.has String.eqb key (cache c) = true)
    by now apply has_In.
  assert (Hexp : (now >? expires e)%Z = true) by (apply Z.gtb_lt; lia).
  unfold get. rewrite Hget, Hexp. cbn [fst snd].
  unfold delete. rewrite Hhas. cbn [fst withStats cache accessOrder stats
                                    countMiss countDelete misses deletes].
  split; [reflexivity |].
  split.
  { unfold JsMap.has. now rewrite get_delete_same. }
  split.
  { unfold JsMap.has. rewrite get_delete_same; [reflexivity |].
    now rewrite Hsync. }
  split.
  { unfold size. cbn [cache]. now apply delete_length. }
  split; [| split; reflexivity].
  intros other Hne. now apply get_delete_other.
Qed.

(** X5. [delete] answers whether the key was cached; afterwards the key
    is in neither map, every other key keeps its entry, and the size has
    gone down by one exactly when the answer was true. *)
Theorem delete_removes_only_its_key (key : string) c :
  CacheMore.WellFormed c ->
  let c' := fst (delete key c) in
  snd (delete key c) = JsMap.has String.eqb key (cache c)
  /\ JsMap.get String.eqb key (cache c') = None
  /\ JsMap.get String.eqb key (accessOrder c') = None
  /\ (forall other, other <> key ->
        JsMap.get String.eqb other (cache c')
        = JsMap.get String.eqb other (cache c))
  /\ size c = (if snd (delete key c) then S (size c') else size c').
Proof.
  intros Hwf. pose proof Hwf as [Hnd Hsync]. cbn zeta.
  rewrite delete_order, delete_cache by assumption.
  split.
  { unfold delete. now destruct (JsMap.has String.eqb key (cache c)). }
  split; [now apply get_delete_same |].
  split; [apply get_delete_same; now rewrite Hsync |].
  split; [intros other Hne; now apply get_delete_other |].
  unfold delete, size.
  destruct (JsMap.has String.eqb key (cache c)) eqn:E; cbn [fst snd cache].
  - symmetry. apply delete_length. now apply has_In.
  - reflexivity.
Qed.

Lemma deletes_cache (ks : list string) c :
  cache (fold_left (fun acc key => fst (delete key acc)) ks c)
  = fold_left (fun m key => JsMap.delete String.eqb key m) ks (cache c).
Proof.
  revert c. induction ks as [|k ks IH]; intros c; simpl.
  - reflexivity.
  - now rewrite IH, delete_cache.
Qed.

Lemma deletes_skip_head {A : Type} (ks : list string) (k : string) (v : A)
      (m : list (string * A)) :
  ~ In k ks ->
  fold_left (fun m key => JsMap.delete String.eqb key m) ks ((k, v) :: m)
  = (k, v) :: fold_left (fun m key => JsMap.delete String.eqb key m) ks m.
Proof.
  revert m. induction ks as [|k0 ks IH]; intros m Hnot; simpl.
  - reflexivity.
  - destruct (String.eqb k0 k) eqn:E.
    + apply String.eqb_eq in E. subst. exfalso. apply Hnot. now left.
    + apply IH. intros H. apply Hnot. now right.
Qed.

Lemma deletes_filter {A : Type} (P : string * A -> bool)
      (m : list (string * A)) :
  NoDup (map fst m) ->
  fold_left (fun m key => JsMap.delete String.eqb key m)
            (map fst (filter P m)) m
  = filter (fun p => negb (P p)) m.
Proof.
  induction m as [|[k v] m IH]; intros Hnd; [reflexivity |].
  inversion Hnd as [|x l Hnotin Hnd']; subst.
  cbn [filter]. destruct (P (k, v)) eqn:E; cbn [negb map fst fold_left].
  - cbn [JsMap.delete]. rewrite String.eqb_refl. now apply IH.
  - rewrite deletes_skip_head.
    + now rewrite IH.
    + intros H. apply Hnotin. apply in_map_iff in H.
      destruct H as (p & Hp & Hin). apply filter_In in Hin.
      apply in_map_iff. exists p. tauto.
Qed.

Lemma filter_twice {A : Type} (f : A -> bool) (l : list A) :
  filter f (filter f l) = filter f l.
Proof.
  induction l as [|x l IH]; [reflexivity |].
  cbn [filter]. destruct (f x) eqn:E; [| exact IH].
  cbn [filter]. now rewrite E, IH.
Qed.

Lemma filter_disjoint {A : Type} (f g : A -> bool) (l : list A) :
  (forall x, f x = true -> g x = false) -> filter g (filter f l) = [].
Proof.
  intros H. induction l as [|x l IH]; [reflexivity |].
  cbn [filter]. destruct (f x) eqn:E; [| exact IH].
  cbn [filter]. now rewrite (H x E).
Qed.

(** X6. [cleanup] removes exactly the entries whose expiry time is before
    the clock reading and keeps the others in their order; the keys that
    [keys] reports are the same before and after, and nothing expired is
    left. *)
Theorem cleanup_removes_exactly_expired (now : Z) c :
  CacheMore.WellFormed c ->
  cache (CacheMore.cleanup now c)
  = filter (fun p => (now <=? expires (snd p))%Z) (cache c)
  /\ CacheMore.keys now (CacheMore.cleanup now c) = CacheMore.keys now c
  /\ CacheMore.expiredKeys now (CacheMore.cleanup now c) = [].
Proof.
  intros [Hnd _].
  assert (Hc : cache (CacheMore.cleanup now c)
               = filter (fun p => (now <=? expires (snd p))%Z) (cache c)).
  { unfold CacheMore.cleanup, CacheMore.expiredKeys.
    rewrite deletes_cache, deletes_filter by assumption.
    apply filter_ext. intros p. now rewrite Z.gtb_ltb, Z.leb_antisym. }
  split; [exact Hc |].
  unfold CacheMore.keys, CacheMore.expiredKeys. rewrite Hc. split.
  - now rewrite filter_twice.
  - rewrite filter_disjoint; [reflexivity |].
    intros p Hp. now rewrite Z.gtb_ltb, Z.ltb_antisym, Hp.
Qed.

(** X7. At one clock reading [has] answers true exactly when [get] would
    return a value, and both leave the same entries in the cache; unlike
    [get], [has] counts neither a hit nor a miss. *)
Theorem has_agrees_with_get (now : Z) (key : string) c :
  snd (CacheMore.has now key c)
  = (match snd (get now key c) with Some _ => true | None => false end)
  /\ cache (fst (CacheMore.has now key c)) = cache (fst (get now key c))
  /\ hits (stats (fst (CacheMore.has now key c))) = hits (stats c)
  /\ misses (stats (fst (CacheMore.has now key c))) = misses (stats c).
Proof.
  unfold CacheMore.has, get.
  destruct (JsMap.get String.eqb key (cache c)) as [e|] eqn:E.
  - destruct (now >? expires e)%Z; cbn [fst snd].
    + repeat split; unfold delete;
        now destruct (JsMap.has String.eqb key (cache c)).
    + repeat split.
  - repeat split.
Qed.

Lemma keys_live (now : Z) (key : string) c :
  CacheMore.WellFormed c ->
  In key (CacheMore.keys now c) <-> snd (CacheMore.has now key c) = true.
Proof.
  intros [Hnd _]. unfold CacheMore.keys, CacheMore.has. split.
  - intros H. apply in_map_iff in H. destruct H as ([k e] & Hk & Hin).
    simpl in Hk. subst k. apply filter_In in Hin. destruct Hin as [Hin Hlive].
    rewrite (In_get_Some key e (cache c) Hnd Hin).
    simpl in Hlive. rewrite Z.gtb_ltb, Z.ltb_antisym, Hlive. reflexivity.
  - destruct (JsMap.get String.eqb key (cache c)) as [e|] eqn:E;
      [| discriminate].
    destruct (now >? expires e)%Z eqn:Hexp; [discriminate |]. intros _.
    apply in_map_iff. exists (key, e). split; [reflexivity |].
    apply filter_In. split; [now apply get_Some_In |].
    simpl. rewrite Z.gtb_ltb, Z.ltb_antisym in Hexp.
    now destruct (now <=? expires e)%Z.
Qed.

(** X8. [keys] lists exactly the keys for which [has], asked at the same
    clock reading, answers true. *)
Theorem keys_are_the_live_keys (now : Z) (key : string) c :
  CacheMore.WellFormed c ->
  In key (CacheMore.keys now c) <-> snd (CacheMore.has now key c) = true.
Proof. apply keys_live. Qed.

Lemma get_result (now : Z) (key : string) c :
  snd (get now key c)
  = match JsMap.get String.eqb key (cache c) with
    | Some e => if (now >? expires e)%Z then None else Some (value e)
    | None => None
    end.
Proof.
  unfold get. destruct (JsMap.get String.eqb key (cache c)) as [e|];
    [| reflexivity].
  now destruct (now >? expires e)%Z.
Qed.

Lemma deletes_get_other {A : Type} (ks : list string) (k : string)
      (m : list (string * A)) :
  ~ In k ks ->
  JsMap.get String.eqb k
    (fold_left (fun m key => JsMap.delete String.eqb key m) ks m)
  = JsMap.get String.eqb k m.
Proof.
  revert m. induction ks as [|k0 ks IH]; intros m Hnot; simpl.
  - reflexivity.
  - rewrite IH by (intros H; apply Hnot; now right).
    apply get_delete_other. intros ->. apply Hnot. now left.
Qed.

Lemma deletes_get_same {A : Type} (ks : list string) (k : string)
      (m : list (string * A)) :
  NoDup (map fst m) -> In k ks ->
  JsMap.get String.eqb k
    (fold_left (fun m key => JsMap.delete String.eqb key m) ks m)
  = None.
Proof.
  revert m. induction ks as [|k0 ks IH]; intros m Hnd Hin; simpl.
  - destruct Hin.
  - destruct (in_dec string_dec k ks) as [H | H].
    + apply IH; [now apply delete_NoDup | assumption].
    + destruct Hin as [-> | Hin]; [| contradiction].
      rewrite deletes_get_other by assumption.
      now apply get_delete_same.
Qed.

Lemma faqKey_not_search (z : Z) :
  JsString.startsWith (CacheMore.faqKey z) "faq_search:" = false.
Proof. reflexivity. Qed.

(** X11. After [invalidateFaqCache], run at some clock reading, no key
    that begins with "faq_search:" gives a value any more, at that
    reading or later; neither does the key of the FAQ whose (non-zero)
    identifier was given; every other key keeps its entry. *)
Theorem invalidateFaqCache_clears_searches
        (now now' : Z) (faqId : option Z) c :
  CacheMore.WellFormed c ->
  (now <= now')%Z ->
  let c' := CacheMore.invalidateFaqCache now faqId c in
  (forall key, JsString.startsWith key "faq_search:" = true ->
               snd (get now' key c') = None)
  /\ (forall z, faqId = Some z -> z <> 0%Z ->
                snd (CacheMore.getCachedFaq now' z c') = None)
  /\ (forall key, JsString.startsWith key "faq_search:" = false ->
                  (forall z, faqId = Some z -> key <> CacheMore.faqKey z) ->
                  JsMap.get String.eqb key (cache c')
                  = JsMap.get String.eqb key (cache c)).
Proof.
  intros Hwf Hle. cbn zeta. unfold CacheMore.invalidateFaqCache.
  set (c1 := match faqId with
             | Some z => if (z =? 0)%Z then c
                         else fst (delete (CacheMore.faqKey z) c)
             | None => c
             end).
  assert (Hwf1 : CacheMore.WellFormed c1).
  { unfold c1. destruct faqId as [z|]; [| assumption].
    destruct (z =? 0)%Z; [assumption | now apply delete_wf]. }
  set (ks := filter (fun key => JsString.startsWith key "faq_search:")
                    (CacheMore.keys now c1)).
  pose proof Hwf1 as [Hnd1 _].
  split; [| split].
  - intros key Hkey. rewrite get_result, deletes_cache.
    destruct (in_dec string_dec key ks) as [Hin | Hout].
    + now rewrite deletes_get_same.
    + rewrite deletes_get_other by assumption.
      destruct (JsMap.get String.eqb key (cache c1)) as [e|] eqn:E;
        [| reflexivity].
      destruct (now' >? expires e)%Z eqn:Hexp; [reflexivity |].
      exfalso. apply Hout. apply filter_In. split; [| assumption].
      apply keys_live; [assumption |].
      unfold CacheMore.has. rewrite E.
      assert (Hnow : (now >? expires e)%Z = false).
      { rewrite Z.gtb_ltb in Hexp |- *.
        apply Z.ltb_ge in Hexp. apply Z.ltb_ge. lia. }
      now rewrite Hnow.
  - intros z -> Hz. unfold CacheMore.getCachedFaq.
    rewrite get_result, deletes_cache.
    rewrite deletes_get_other.
    + unfold c1. apply Z.eqb_neq in Hz. rewrite Hz.
      rewrite delete_cache, get_delete_same; [reflexivity |].
      now destruct Hwf.
    + intros H. apply filter_In in H. destruct H as [_ H].
      now rewrite faqKey_not_search in H.
  - intros key Hkey Hother. rewrite deletes_cache.
    rewrite deletes_get_other.
    + unfold c1. destruct faqId as [z|]; [| reflexivity].
      destruct (z =? 0)%Z; [reflexivity |].
      rewrite delete_cache. apply get_delete_other. now apply Hother.
    + intros H. apply filter_In in H. destruct H as [_ H]. congruence.
Qed.

End CacheBehaviour.

Lemma stocked_wf : CacheMore.WellFormed CacheSample.stocked.
Proof.
  split; [| reflexivity].
  vm_compute. repeat constructor; simpl; intuition discriminate.
Qed.

Lemma set_keeps_other_keys_witness :
  snd (CacheService.get 5 "b"
         (CacheService.set 3 "a" 11 None CacheSample.stocked))
  = snd (CacheService.get 5 "b" CacheSample.stocked).
Proof.
  apply (set_keeps_other_keys 3 5 "a" "b" 11 None CacheSample.stocked).
  - discriminate.
  - right. vm_compute. reflexivity.
Defined.

Lemma get_expired_removes_witness :
  snd (CacheService.get 500 "a" CacheSample.stocked) = None
  /\ JsMap.has String.eqb "a"
       (CacheService.cache
          (fst (CacheService.get 500 "a" CacheSample.stocked))) = false.
Proof.
  pose proof (get_expired_removes
                500 "a" (CacheService.mkEntry 10 101 1) CacheSample.stocked
                stocked_wf eq_refl eq_refl) as H.
  split; [exact (proj1 H) | exact (proj1 (proj2 H))].
Defined.

Lemma delete_removes_only_its_key_witness :
  snd (CacheService.delete "a" CacheSample.stocked) = true
  /\ JsMap.get String.eqb "a"
       (CacheService.cache
          (fst (CacheService.delete "a" CacheSample.stocked))) = None.
Proof.
  pose proof (delete_removes_only_its_key "a" CacheSample.stocked stocked_wf)
    as H.
  split; [exact (proj1 H) | exact (proj1 (proj2 H))].
Defined.

Lemma cleanup_removes_exactly_expired_witness :
  map fst (CacheService.cache (CacheMore.cleanup 102 CacheSample.stocked))
  = ["b"].
Proof.
  rewrite (proj1 (cleanup_removes_exactly_expired
                    102 CacheSample.stocked stocked_wf)).
  reflexivity.
Defined.

Lemma invalidateFaqCache_clears_searches_witness :
  snd (CacheService.get 5 "faq_search:prix:"
         (CacheMore.invalidateFaqCache 3 (Some 7%Z) CacheSample.searches))
  = None
  /\ snd (CacheMore.getCachedFaq 5 7
            (CacheMore.invalidateFaqCache 3 (Some 7%Z) CacheSample.searches))
     = None.
Proof.
  assert (Hwf : CacheMore.WellFormed CacheSample.searches).
  { split; [| reflexivity].
    vm_compute. repeat constructor; simpl; intuition discriminate. }
  assert (Hle : (3 <= 5)%Z) by lia.
  pose proof (invalidateFaqCache_clears_searches
                3 5 (Some 7%Z) CacheSample.searches Hwf Hle) as H.
  split.
  - apply (proj1 H). reflexivity.
  - apply (proj1 (proj2 H) 7%Z); [reflexivity | discriminate].
Defined.

Lemma keys_are_the_live_keys_witness :
  In "b" (CacheMore.keys 102 CacheSample.stocked).
Proof.
  apply (keys_are_the_live_keys 102 "b" CacheSample.stocked stocked_wf).
  reflexivity.
Defined.

(** ** The cache: eviction and capacity *)

Section CacheCapacity.
Import CacheService.
Context {V : Type}.
Implicit Types c : CacheService.t V.

(** With at least one entry, every entry last touched before the call and
    no empty key, [evictOldest] deletes an entry whose access time is the
    smallest. *)
Lemma evictOldest_picks (now : Z) c :
  accessOrder c <> [] ->
  (forall k t, In (k, t) (accessOrder c) -> (t < now)%Z /\ k <> "") ->
  exists k t,
    In (k, t) (accessOrder c)
    /\ (forall k' t', In (k', t') (accessOrder c) -> (t <= t')%Z)
    /\ evictOldest now c = withStats V countEviction (fst (delete k c)).
Proof.
  intros Hne Hold. unfold evictOldest.
  destruct (accessOrder c) as [|p order] eqn:Eo; [congruence |].
  rewrite <- Eo in *.
  destruct (findOldest_acc (accessOrder c) None now)
    as [[_ Hall] | (k & t & -> & Hin & Hlt & Hmin)].
  - exfalso. rewrite Eo in Hall, Hold. destruct p as [k t].
    specialize (Hall k t (or_introl eq_refl)).
    destruct (Hold k t (or_introl eq_refl)). lia.
  - exists k, t. split; [assumption |]. split; [assumption |].
    destruct (Hold k t Hin) as [_ Hk].
    destruct k; [congruence | reflexivity].
Qed.

(** X9. A [set] of a new key into a full cache, when every entry was last
    touched before the call and no key is the empty string, evicts one
    entry whose access time is the smallest of all: that key is gone, the
    new key holds the value, every other key keeps its entry, the size is
    unchanged and one eviction is counted. *)
Theorem set_at_capacity_evicts_least_recent
        (now : Z) (key : string) (v : V) (customTtl : option Z) c :
  CacheMore.WellFormed c ->
  (forall k t, In (k, t) (accessOrder c) -> (t < now)%Z /\ k <> "") ->
  (1 <= maxEntries c)%Q /\ (maxEntries c <= sizeQ c)%Q ->
  JsMap.has String.eqb key (cache c) = false ->
  let c' := set now key v customTtl c in
  exists victim t,
    In (victim, t) (accessOrder c)
    /\ (forall k' t', In (k', t') (accessOrder c) -> (t <= t')%Z)
    /\ JsMap.get String.eqb victim (cache c') = None
    /\ (exists e, JsMap.get String.eqb key (cache c') = Some e
                  /\ value e = v)
    /\ (forall other, other <> victim -> other <> key ->
          JsMap.get String.eqb other (cache c')
          = JsMap.get String.eqb other (cache c))
    /\ size c' = size c
    /\ evictions (stats c') = S (evictions (stats c)).
Proof.
  intros Hwf Hold [Hcap1 Hcap2] Hnew. pose proof Hwf as [Hnd Hsync].
  assert (Hne : accessOrder c <> []).
  { intros E.
    assert (Hsize : size c = 0).
    { unfold size. now rewrite <- (length_map fst), <- Hsync, E. }
    unfold sizeQ in Hcap2. rewrite Hsize in Hcap2. simpl in Hcap2.
    apply (Qlt_irrefl 0). apply Qlt_le_trans with 1%Q; [reflexivity |].
    now apply Qle_trans with (maxEntries c). }
  destruct (evictOldest_picks now c Hne Hold) as (k & t & Hin & Hmin & He).
  assert (Hk : In k (map fst (cache c))).
  { rewrite <- Hsync. apply in_map_iff. now exists (k, t). }
  assert (Hkey : k <> key).
  { intros ->. apply has_In in Hk. congruence. }
  assert (Ec : cache (evictOldest now c)
               = JsMap.delete String.eqb k (cache c)).
  { rewrite He. cbn [withStats cache]. apply delete_cache. }
  assert (Es : evictions (stats (evictOldest now c))
               = S (evictions (stats c))).
  { rewrite He. unfold delete. apply has_In in Hk. now rewrite Hk. }
  assert (Hfull : Qle_bool (maxEntries c) (sizeQ c) = true)
    by now apply Qle_bool_iff.
  exists k, t. split; [assumption |]. split; [assumption |].
  cbn zeta. unfold set. rewrite Hfull, Hnew. cbn [andb negb cache stats].
  rewrite Ec. split.
  { rewrite get_set_other by assumption. now apply get_delete_same. }
  split.
  { eexists. rewrite get_set_same. split; reflexivity. }
  split.
  { intros other Ho1 Ho2.
    rewrite get_set_other by assumption. now apply get_delete_other. }
  split.
  { unfold size. cbn [cache]. rewrite set_length_new.
    - now apply delete_length.
    - intros H. apply delete_other_keys in H. apply has_In in H. congruence. }
  cbn [countSet evictions]. exact Es.
Qed.

Lemma delete_In {A : Type} (k : string) (p : string * A)
      (m : list (string * A)) :
  In p (JsMap.delete String.eqb k m) -> In p m.
Proof.
  induction m as [|[k' v'] m IH]; simpl; [tauto |].
  destruct (String.eqb k k'); simpl; [tauto |].
  intros [H | H]; [now left | right; now apply IH].
Qed.

Lemma set_In {A : Type} (k : string) (v : A) (p : string * A)
      (m : list (string * A)) :
  In p (JsMap.set String.eqb k v m) -> p = (k, v) \/ In p m.
Proof.
  induction m as [|[k' v'] m IH]; simpl.
  - intros [H | []]. now left.
  - destruct (String.eqb k k') eqn:E; simpl.
    + apply String.eqb_eq in E. subst k'.
      intros [H | H]; [left; now symmetry | right; now right].
    + intros [H | H]; [right; now left |].
      destruct (IH H); [now left | right; now right].
Qed.

Lemma delete_length_le {A : Type} (k : string) (m : list (string * A)) :
  List.length (JsMap.delete String.eqb k m) <= List.length m.
Proof.
  induction m as [|[k' v'] m IH]; simpl; [lia |].
  destruct (String.eqb k k'); simpl; lia.
Qed.

Lemma set_length {A : Type} (k : string) (v : A) (m : list (string * A)) :
  List.length (JsMap.set String.eqb k v m)
  = if JsMap.has String.eqb k m then List.length m else S (List.length m).
Proof.
  rewrite <- (length_map fst), set_keys.
  destruct (JsMap.has String.eqb k m).
  - apply length_map.
  - rewrite length_app, length_map. simpl. lia.
Qed.

Lemma Bounded_later (last now : Z) c :
  (last <= now)%Z -> CacheMore.Bounded last c -> CacheMore.Bounded now c.
Proof.
  intros Hle (Hwf & Hsize & Hacc).
  split; [assumption |]. split; [assumption |].
  intros k t H. destruct (Hacc k t H). split; [lia | assumption].
Qed.

Lemma delete_bounded (last : Z) (key : string) c :
  CacheMore.Bounded last c -> CacheMore.Bounded last (fst (delete key c)).
Proof.
  intros (Hwf & Hsize & Hacc).
  destruct (delete_limits key c) as [Hmax _].
  split; [now apply delete_wf |]. unfold CacheMore.room. rewrite Hmax.
  split.
  - unfold size. rewrite delete_cache.
    pose proof (delete_length_le key (cache c)).
    unfold size, CacheMore.room in Hsize. lia.
  - intros k t Hin. rewrite delete_order in Hin by assumption.
    apply delete_In in Hin. now apply Hacc.
Qed.

Lemma deletes_bounded (last : Z) (ks : list string) c :
  CacheMore.Bounded last c ->
  CacheMore.Bounded last
    (fold_left (fun acc key => fst (delete key acc)) ks c).
Proof.
  revert c. induction ks as [|k ks IH]; intros c Hb; simpl.
  - assumption.
  - apply IH. now apply delete_bounded.
Qed.

Lemma deletes_limits (ks : list string) c :
  maxEntries (fold_left (fun acc key => fst (delete key acc)) ks c)
  = maxEntries c.
Proof.
  revert c. induction ks as [|k ks IH]; intros c; simpl.
  - reflexivity.
  - rewrite IH. apply delete_limits.
Qed.

Lemma evictOldest_limits (now : Z) c :
  maxEntries (evictOldest now c) = maxEntries c.
Proof.
  unfold evictOldest. destruct (accessOrder c); [reflexivity |].
  destruct (findOldest _ None now) as [k|]; [| reflexivity].
  destruct (JsString.isEmpty k); [reflexivity |].
  cbn [withStats maxEntries]. apply delete_limits.
Qed.

Lemma step_limits (now : Z) (op : CacheMore.Op V) c :
  maxEntries (CacheMore.step now op c) = maxEntries c.
Proof.
  destruct op; simpl.
  - unfold set. cbn [maxEntries].
    destruct (_ && _); [apply evictOldest_limits | reflexivity].
  - unfold get. destruct (JsMap.get String.eqb key (cache c)) as [e|];
      [| reflexivity].
    destruct (now >? expires e)%Z; [| reflexivity].
    cbn [fst withStats maxEntries]. apply delete_limits.
  - unfold CacheMore.has.
    destruct (JsMap.get String.eqb key (cache c)) as [e|]; [| reflexivity].
    destruct (now >? expires e)%Z; [| reflexivity].
    apply delete_limits.
  - apply delete_limits.
  - apply deletes_limits.
  - reflexivity.
Qed.

Lemma step_room (now : Z) (op : CacheMore.Op V) c :
  CacheMore.room (CacheMore.step now op c) = CacheMore.room c.
Proof. unfold CacheMore.room. now rewrite step_limits. Qed.

(** The access times after a [set]. *)
Lemma set_order_In (now : Z) (key : string) (v : V) (customTtl : option Z)
      c (k : string) (t : Z) :
  CacheMore.WellFormed c ->
  In (k, t) (accessOrder (set now key v customTtl c)) ->
  (k, t) = (key, now) \/ In (k, t) (accessOrder c).
Proof.
  intros Hwf Hin. unfold set in Hin. cbn [accessOrder] in Hin.
  apply set_In in Hin. destruct Hin as [H | H]; [now left | right].
  destruct (_ && _); [| exact H].
  revert H. unfold evictOldest.
  destruct (accessOrder c) as [|p order] eqn:Eo; [now rewrite Eo |].
  rewrite <- Eo.
  destruct (findOldest _ None now) as [k0|]; [| trivial].
  destruct (JsString.isEmpty k0); [trivial |].
  cbn [withStats accessOrder]. rewrite delete_order by assumption.
  apply delete_In.
Qed.

Lemma set_bounded (last now : Z) (key : string) (v : V)
      (customTtl : option Z) c :
  (last < now)%Z -> key <> "" ->
  CacheMore.Bounded last c ->
  CacheMore.Bounded now (set now key v customTtl c).
Proof.
  intros Hlt Hkey Hb. pose proof Hb as (Hwf & Hsize & Hacc).
  pose proof Hwf as [Hnd Hsync].
  split; [now apply set_wf |].
  split; cycle 1.
  { intros k t Hin. apply set_order_In in Hin; [| assumption].
    destruct Hin as [H | H].
    - injection H as -> ->. split; [lia | assumption].
    - destruct (Hacc k t H). split; [lia | assumption]. }
  change (set now key v customTtl c)
    with (CacheMore.step now (CacheMore.OpSet key v customTtl) c) at 2.
  rewrite step_room.
  destruct (JsMap.has String.eqb key (cache c)) eqn:Hhas.
  - (* the key is cached: no eviction *)
    unfold set. rewrite Hhas, andb_false_r.
    unfold size. cbn [cache]. rewrite set_length, Hhas. exact Hsize.
  - destruct (Qle_bool (maxEntries c) (sizeQ c)) eqn:Hfull.
    + destruct (accessOrder c) as [|p order] eqn:Eo.
      * (* full and empty: nothing to evict *)
        assert (Ec : cache c = []).
        { simpl in Hsync.
          destruct (cache c); [reflexivity | discriminate]. }
        unfold set. rewrite Hfull, Hhas. cbn [andb negb].
        unfold evictOldest. rewrite Eo.
        unfold size. cbn [cache]. rewrite Ec. simpl.
        unfold CacheMore.room. apply Nat.le_max_l.
      * (* full: one entry is evicted first *)
        rewrite <- Eo in *.
        assert (H1 : 1 <= size c).
        { unfold size. rewrite <- (length_map fst), <- Hsync, Eo. simpl. lia. }
        apply Qle_bool_iff in Hfull.
        assert (Hold : forall k t, In (k, t) (accessOrder c) ->
                                   (t < now)%Z /\ k <> "").
        { intros k t Hin. destruct (Hacc k t Hin).
          split; [lia | assumption]. }
        assert (Hnew : ~ In key (map fst (cache c))).
        { intros H. apply has_In in H. congruence. }
        destruct (set_evicts_least_recent
                    V now key v customTtl c Hsync Hnd Hold (conj H1 Hfull)
                    Hnew)
          as (k & t & _ & _ & _ & Hs & _).
        rewrite Hs. exact Hsize.
    + (* room left *)
      unfold set. rewrite Hfull, Hhas. cbn [andb].
      unfold sizeQ in Hfull. rewrite Qle_bool_count in Hfull.
      apply Nat.leb_gt in Hfull.
      unfold size. cbn [cache]. rewrite set_length, Hhas.
      unfold size in Hfull. unfold CacheMore.room. lia.
Qed.

Lemma get_bounded (last now : Z) (key : string) c :
  (last < now)%Z ->
  CacheMore.Bounded last c -> CacheMore.Bounded now (fst (get now key c)).
Proof.
  intros Hlt Hb. pose proof Hb as (Hwf & Hsize & Hacc).
  unfold get.
  destruct (JsMap.get String.eqb key (cache c)) as [e|] eqn:E.
  - destruct (now >? expires e)%Z; cbn [fst].
    + apply Bounded_later with (last := last); [lia |].
      exact (delete_bounded last key c Hb).
    + destruct Hwf as [Hnd Hsync].
      assert (Hk : In key (map fst (accessOrder c))).
      { rewrite Hsync. apply get_Some_In in E.
        apply in_map_iff. now exists (key, e). }
      split; [| split; [exact Hsize |]].
      * split; cbn [cache accessOrder]; [assumption |].
        now rewrite set_present_keys.
      * cbn [accessOrder]. intros k t Hin. apply set_In in Hin.
        destruct Hin as [H | H].
        -- injection H as -> ->. split; [lia |].
           apply in_map_iff in Hk. destruct Hk as ([k t] & Hk & Hin).
           simpl in Hk. subst k. now destruct (Hacc key t Hin).
        -- destruct (Hacc k t H). split; [lia | assumption].
  - apply Bounded_later with (last := last); [lia | exact Hb].
Qed.

Lemma step_bounded (last now : Z) (op : CacheMore.Op V) c :
  (last < now)%Z ->
  match op with CacheMore.OpSet key _ _ => key <> "" | _ => True end ->
  CacheMore.Bounded last c ->
  CacheMore.Bounded now (CacheMore.step now op c).
Proof.
  intros Hlt Hkey Hb. destruct op; cbn [CacheMore.step].
  - now apply set_bounded with (last := last).
  - now apply get_bounded with (last := last).
  - apply Bounded_later with (last := last); [lia |].
    unfold CacheMore.has.
    destruct (JsMap.get String.eqb key (cache c)) as [e|]; [| exact Hb].
    destruct (now >? expires e)%Z; [| exact Hb].
    now apply delete_bounded.
  - apply Bounded_later with (last := last); [lia |].
    now apply delete_bounded.
  - apply Bounded_later with (last := last); [lia |].
    now apply deletes_bounded.
  - split; [apply clear_wf |].
    split; [apply Nat.le_0_l | intros k t []].
Qed.

Lemma run_bounded (trace : list (Z * CacheMore.Op V)) :
  forall (last : Z) c,
    CacheMore.advancing last trace ->
    CacheMore.namedKeys trace ->
    CacheMore.Bounded last c ->
    size (CacheMore.run trace c) <= CacheMore.room c.
Proof.
  induction trace as [|[now op] trace IH]; intros last c Hadv Hkeys Hb.
  - simpl. now destruct Hb as (_ & Hsize & _).
  - simpl. destruct Hadv as [Hlt Hadv]. inversion Hkeys as [|p l Hk Hks]; subst.
    rewrite <- (step_room now op c).
    apply (IH now); [assumption | assumption |].
    now apply step_bounded with (last := last).
Qed.

(** X10. On a clock that advances between calls, and with no empty
    string used as a key of [set], a cache never holds more than n
    entries, for every whole number n that is at least 1 and at least
    its [maxEntries], whatever sequence of [set], [get], [has],
    [delete], [cleanup] and [clear] it receives after its construction.
    So the bound is [maxEntries] itself when that is a whole number
    from 1 on, [maxEntries] rounded up when it has a fraction, and one
    entry when it is below 1 (the constructor keeps every number but
    0). *)
Theorem cache_never_exceeds_capacity
        (cfgMaxEntries : option Q) (cfgTtl : option Z) (start : Z)
        (trace : list (Z * CacheMore.Op V)) (n : nat) :
  CacheMore.advancing start trace ->
  CacheMore.namedKeys trace ->
  1 <= n ->
  (maxEntries (@create V cfgMaxEntries cfgTtl) <= inject_Z (Z.of_nat n))%Q ->
  size (CacheMore.run trace (create cfgMaxEntries cfgTtl)) <= n.
Proof.
  intros Hadv Hkeys Hn Hmax.
  transitivity (CacheMore.room (@create V cfgMaxEntries cfgTtl)).
  - apply (run_bounded trace start); try assumption.
    split; [apply create_wf |].
    split; [apply Nat.le_0_l | intros k t []].
  - unfold CacheMore.room. apply Nat.max_lub; [exact Hn |].
    now apply ceilingCount_le.
Qed.

End CacheCapacity.

Lemma set_at_capacity_evicts_least_recent_witness :
  exists victim t,
    In (victim, t) (CacheService.accessOrder CacheSample.stocked)
    /\ JsMap.get String.eqb victim
         (CacheService.cache
            (CacheService.set 3 "c" 30 None CacheSample.stocked)) = None.
Proof.
  destruct (set_at_capacity_evicts_least_recent
              3 "c" 30 None CacheSample.stocked stocked_wf)
    as (victim & t & Hin & _ & Hgone & _).
  - intros k t H. vm_compute in H.
    destruct H as [H | [H | []]]; injection H as <- <-;
      (split; [reflexivity | discriminate]).
  - vm_compute. split; discriminate.
  - reflexivity.
  - now exists victim, t.
Defined.

Lemma cache_never_exceeds_capacity_witness :
  CacheService.size
    (CacheMore.run CacheSample.session
                   (CacheService.create (Some 2%Q) (Some 100%Z)))
  <= 2.
Proof.
  apply (cache_never_exceeds_capacity (Some 2%Q) (Some 100%Z) 0
                                      CacheSample.session 2).
  - vm_compute. intuition discriminate.
  - repeat constructor; discriminate.
  - lia.
  - vm_compute. discriminate.
Defined.

(** ** Ranking *)

Section RankingFacts.
Import Js Faq RagSearchService.

Import Ranking.

(** X12. The ranked candidates are numbered 1, 2, 3, ... in list order,
    there is one per aggregated FAQ, and a candidate with a smaller rank
    never has a smaller score. *)
Theorem rankCandidates_numbered_best_first (cs : list Candidate) :
  let ranked := rankCandidates cs in
  map rank ranked = seq 1 (List.length ranked)
  /\ List.length ranked = List.length (aggregateCandidates cs)
  /\ forall x y, In x ranked -> In y ranked -> rank x < rank y ->
                 (a_score (entry y) <= a_score (entry x))%Q.
Proof.
  cbn zeta. unfold rankCandidates. split; [| split].
  - rewrite withRanks_ranks, withRanks_length. reflexivity.
  - rewrite withRanks_length.
    symmetry. apply Permutation_length, sortByScore_perm.
  - apply withRanks_order, sortByScore_sorted.
Qed.

Lemma firstn_min {A : Type} (n : nat) (l : list A) :
  firstn (Nat.min n (List.length l)) l = firstn n l.
Proof.
  destruct (Nat.le_ge_cases n (List.length l)) as [H | H].
  - now rewrite Nat.min_l.
  - rewrite Nat.min_r by assumption.
    now rewrite firstn_all, (firstn_all2 l) by assumption.
Qed.

Lemma firstn_sorted {A : Type} (R : A -> A -> Prop) (n : nat) (l : list A) :
  StronglySorted R l -> StronglySorted R (firstn n l).
Proof.
  revert n. induction l as [|x l IH]; intros [|n] Hs; simpl;
    try constructor.
  - inversion Hs; subst. now apply IH.
  - inversion Hs as [|x' l' Hs' Hall]; subst.
    apply Forall_forall. intros y Hy.
    rewrite Forall_forall in Hall. apply Hall.
    clear - Hy. revert n Hy. induction l as [|z l IHl]; intros [|n] Hy;
      simpl in *; try tauto.
    destruct Hy as [-> | Hy]; [now left | right; now apply (IHl n)].
Qed.

(** In a list ranked best first, the members that reach the floor are
    the leading ones. *)
Lemma filter_floor_prefix (cfg : Config) (l : list Ranked) :
  StronglySorted aboveRanked l ->
  filter (aboveFloor cfg) l
  = firstn (List.length (filter (aboveFloor cfg) l)) l.
Proof.
  induction l as [|x l IH]; intros Hs; simpl; [reflexivity |].
  inversion Hs as [|x' l' Hs' Hall]; subst.
  destruct (aboveFloor cfg x) eqn:E; simpl.
  - f_equal. now apply IH.
  - assert (Hnone : filter (aboveFloor cfg) l = []).
    { unfold aboveFloor in E. apply not_Qle_bool in E.
      clear - Hall E. induction l as [|y l IHl]; [reflexivity |].
      inversion Hall as [|y' l' Hy Hall']; subst. simpl.
      assert (Ey : aboveFloor cfg y = false).
      { apply not_Qle_bool. unfold aboveRanked, above in Hy.
        eapply Qle_lt_trans; [exact Hy | exact E]. }
      rewrite Ey. now apply IHl. }
    now rewrite Hnone.
Qed.

(** X13. With a [topKResults] of at least 1, whenever [retrieve] returns
    a result, its top candidates are the first n ranked candidates for
    some n between 1 and the configured K: they start with the candidate
    of rank 1, whose score is the greatest of all ranked candidates, and
    skip nobody. *)
Theorem retrieve_topCandidates_leading
        (raw : RawConfig) (db : Store) (clock : nat -> Z)
        (c c' : CacheState) (q : string) (session : Session)
        (r : Retrieval) :
  (1 <= topKResults (configure raw))%Q ->
  retrieve (configure raw) db clock c q session = (c', Ok (Some r)) ->
  exists n best rest,
    1 <= n
    /\ (inject_Z (Z.of_nat n) <= topKResults (configure raw))%Q
    /\ n <= List.length (rankedCandidates r)
    /\ topCandidates r = firstn n (rankedCandidates r)
    /\ topCandidates r = best :: rest
    /\ rank best = 1
    /\ forall x, In x (rankedCandidates r) ->
                 (a_score (entry x) <= a_score (entry best))%Q.
Proof.
  intros HQ H.
  destruct (retrieve_some (configure raw) db clock c c' q session r H)
    as (cs & Hne & Hr & Ht).
  pose proof (floor_positive _ HQ) as HK.
  assert (HKQ : (0 <= topKResults (configure raw))%Q) by lra.
  pose proof (floor_below _ HKQ) as Hbelow.
  pose proof (rankCandidates_nonempty cs Hne) as Hranked.
  assert (Hsorted : StronglySorted aboveRanked
                                   (rankCandidates cs)).
  { apply withRanks_sorted, sortByScore_sorted. }
  assert (Hslice : forall l : list Ranked,
             sliceTo (topKResults (configure raw)) l
             = firstn (Z.to_nat (Qfloor (topKResults (configure raw)))) l).
  { intros l. now apply sliceTo_firstn. }
  set (K := Z.to_nat (Qfloor (topKResults (configure raw)))) in *.
  set (ranked := rankCandidates cs) in *.
  assert (Hn : exists n, 1 <= n <= K /\ n <= List.length ranked
                         /\ selectTop (configure raw) ranked
                            = firstn n ranked).
  { unfold selectTop. rewrite Hslice.
    destruct (filter (aboveFloor (configure raw)) (firstn K ranked))
      as [|t ts] eqn:F.
    - exists (Nat.min K (List.length ranked)).
      destruct ranked as [|r0 ranked0]; [congruence |].
      split; [simpl List.length; lia |].
      split; [lia | now rewrite firstn_min].
    - pose proof (filter_floor_prefix (configure raw) (firstn K ranked)
                    (firstn_sorted _ K ranked Hsorted)) as P.
      rewrite F in P.
      assert (Hlen : List.length (t :: ts) <= List.length (firstn K ranked)).
      { rewrite <- F. apply filter_length_le. }
      rewrite length_firstn in Hlen.
      exists (List.length (t :: ts)).
      split; [simpl List.length in *; lia |].
      split; [lia |].
      rewrite P at 1. rewrite firstn_firstn. f_equal. lia. }
  destruct Hn as (n & Hn1 & Hn2 & Hsel).
  destruct ranked as [|best others] eqn:Er; [congruence |].
  destruct n as [|n]; [lia |].
  exists (S n), best, (firstn n others).
  rewrite Hr, Ht, Hsel.
  split; [lia |]. split.
  { eapply Qle_trans; [| exact Hbelow].
    rewrite <- Zle_Qle. lia. }
  repeat split; try lia; try reflexivity.
  - unfold ranked, rankCandidates in Er.
    destruct (sortByScore (aggregateCandidates cs)); [discriminate |].
    simpl in Er. injection Er as <- _. reflexivity.
  - intros x [<- | Hx]; [apply Qle_refl |].
    inversion Hsorted as [|b l Hs Hall]; subst.
    rewrite Forall_forall in Hall. now apply Hall.
Qed.

End RankingFacts.

Lemma retrieve_topCandidates_leading_witness :
  exists c' r,
    RagSearchService.retrieve Sample.defaults Sample.healthy
                              (fun _ => 1000%Z) Sample.freshCache
                              "horaires" Sample.anonymous
    = (c', Js.Ok (Some r))
    /\ exists n best rest,
        1 <= n
        /\ (inject_Z (Z.of_nat n) <= 3)%Q
        /\ n <= List.length (RagSearchService.rankedCandidates r)
        /\ RagSearchService.topCandidates r
           = firstn n (RagSearchService.rankedCandidates r)
        /\ RagSearchService.topCandidates r = best :: rest
        /\ RagSearchService.rank best = 1
        /\ forall x, In x (RagSearchService.rankedCandidates r) ->
                     (RagSearchService.a_score (RagSearchService.entry x)
                      <= RagSearchService.a_score
                           (RagSearchService.entry best))%Q.
Proof.
  eexists. eexists.
  split; [vm_compute; reflexivity |].
  refine (retrieve_topCandidates_leading
            RagSearchService.emptyConfig Sample.healthy
            (fun _ => 1000%Z) Sample.freshCache _
            "horaires" Sample.anonymous _ _ _).
  - vm_compute. discriminate.
  - vm_compute. reflexivity.
Defined.

(** ** The cached store lookup and the fallback search *)

Section LookupFacts.
Import Js Faq RagSearchService.

Variable cfg : Config.

Lemma getCachedResults_hit (db : Store) (now : Z) (key q : string)
      (f : Filters) (cs : CacheService.t (list Row)) (rows : list Row) :
  snd (CacheService.get now key cs) = Some rows ->
  snd (getCachedResults cfg db now key q f (Some cs)) = Some rows.
Proof.
  unfold getCachedResults.
  destruct (CacheService.get now key cs) as [cs' hit]. simpl.
  intros ->. reflexivity.
Qed.

Lemma getCachedResults_miss (db : Store) (now : Z) (key q : string)
      (f : Filters) (cs : CacheService.t (list Row)) :
  snd (CacheService.get now key cs) = None ->
  snd (getCachedResults cfg db now key q f (Some cs))
  = match searchFaqs db q f with
    | Rows rs => Some rs
    | _ => None
    end.
Proof.
  unfold getCachedResults.
  destruct (CacheService.get now key cs) as [cs' hit]. simpl.
  intros ->. now destruct (searchFaqs db q f).
Qed.

(** X14. When [getCachedResults] finds nothing usable in the cache and
    the store answers with rows, it returns those rows and caches them:
    until the cache time to live has run out, the next call for the same
    key returns the same rows without regard to the store (which may have
    changed or be failing by then). *)
Theorem getCachedResults_reuses_answer
        (db db' : Store) (now now' : Z) (key q q' : string) (f f' : Filters)
        (cs : CacheService.t (list Row)) (rs : list Row) :
  snd (CacheService.get now key cs) = None ->
  searchFaqs db q f = Rows rs ->
  (now' <= now + CacheMore.effectiveTtl (Some (cacheTtl cfg)) cs)%Z ->
  let first := getCachedResults cfg db now key q f (Some cs) in
  snd first = Some rs
  /\ snd (getCachedResults cfg db' now' key q' f' (fst first)) = Some rs.
Proof.
  intros Hmiss Hstore Hlive. cbn zeta.
  pose proof (get_limits now key cs) as Httl.
  destruct (CacheService.get now key cs) as [cs' hit] eqn:G.
  simpl in Hmiss, Httl. subst hit.
  assert (Hfirst : getCachedResults cfg db now key q f (Some cs)
                   = (Some (CacheService.set now key rs
                              (Some (cacheTtl cfg)) cs'), Some rs)).
  { unfold getCachedResults. now rewrite G, Hstore. }
  rewrite Hfirst. cbn [fst snd]. split; [reflexivity |].
  apply getCachedResults_hit. rewrite get_after_set.
  assert (E : (now' >? now + CacheMore.effectiveTtl (Some (cacheTtl cfg)) cs')%Z
              = false).
  { unfold CacheMore.effectiveTtl in *. rewrite Httl.
    rewrite Z.gtb_ltb. apply Z.ltb_ge. exact Hlive. }
  now rewrite E.
Qed.

(** X15. A store call that throws or returns null is not cached: the
    call returns null, and the next call for the same key asks the store
    again and returns what the store answers then. *)
Theorem getCachedResults_failure_not_cached
        (db db' : Store) (now now' : Z) (key q q' : string) (f f' : Filters)
        (cs : CacheService.t (list Row)) :
  CacheMore.WellFormed cs ->
  snd (CacheService.get now key cs) = None ->
  (forall rs, searchFaqs db q f <> Rows rs) ->
  let first := getCachedResults cfg db now key q f (Some cs) in
  snd first = None
  /\ snd (getCachedResults cfg db' now' key q' f' (fst first))
     = match searchFaqs db' q' f' with
       | Rows rs => Some rs
       | _ => None
       end.
Proof.
  intros Hwf Hmiss Hfail. cbn zeta.
  assert (Hgone : JsMap.get String.eqb key
                    (CacheService.cache (fst (CacheService.get now key cs)))
                  = None).
  { rewrite get_result in Hmiss. unfold CacheService.get.
    destruct (JsMap.get String.eqb key (CacheService.cache cs)) as [e|] eqn:E.
    - destruct (now >? CacheService.expires e)%Z; [| discriminate].
      cbn [fst CacheService.withStats CacheService.cache].
      rewrite delete_cache. apply get_delete_same. now destruct Hwf.
    - exact E. }
  destruct (CacheService.get now key cs) as [cs' hit] eqn:G.
  simpl in Hmiss, Hgone. subst hit.
  assert (Hfirst : getCachedResults cfg db now key q f (Some cs)
                   = (Some cs', None)).
  { unfold getCachedResults. rewrite G.
    destruct (searchFaqs db q f) as [| |rs] eqn:S; try reflexivity.
    exfalso. now apply (Hfail rs). }
  rewrite Hfirst. cbn [fst snd]. split; [reflexivity |].
  apply getCachedResults_miss. rewrite get_result. now rewrite Hgone.
Qed.

Lemma strictEq_eq (a b : option string) : strictEq a b = true <-> a = b.
Proof.
  destruct a as [x|], b as [y|]; simpl; split; try congruence.
  - intros H. apply String.eqb_eq in H. now subst.
  - intros H. injection H as ->. apply String.eqb_refl.
Qed.

(** Two filter objects with the same limit have the same key exactly
    when they are equal. *)
Lemma sameKey_eq (a b : Filters) :
  f_limit a = f_limit b -> (sameKey a b = true <-> a = b).
Proof.
  intros Hl. unfold sameKey, optStrEqb.
  rewrite !andb_true_iff, !strictEq_eq.
  destruct a as [al ar ap alim], b as [bl br bp blim]; simpl in *.
  subst blim. split.
  - intros [[[-> ->] ->] _]. reflexivity.
  - intros H. injection H as -> -> ->. repeat split.
    destruct alim as [x|]; simpl; [| reflexivity].
    apply Qeq_bool_iff. reflexivity.
Qed.

Lemma pushFilters_cases (acc : list Filters) (v : Filters) :
  Forall (fun x => f_limit x = f_limit v) acc ->
  (In v acc /\ pushFilters acc v = acc)
  \/ (~ In v acc /\ pushFilters acc v = acc ++ [v]).
Proof.
  intros Hall. unfold pushFilters.
  destruct (existsb (sameKey v) acc) eqn:E.
  - left. split; [| reflexivity]. apply existsb_exists in E.
    destruct E as (x & Hx & Hs). rewrite Forall_forall in Hall.
    apply sameKey_eq in Hs; [now subst | symmetry; now apply Hall].
  - right. split; [| reflexivity]. intros Hin.
    assert (H : existsb (sameKey v) acc = true).
    { apply existsb_exists. exists v. split; [assumption |].
      now apply sameKey_eq. }
    congruence.
Qed.

End LookupFacts.

(** ** The fallback search *)

Ltac push_filters :=
  repeat match goal with
    | |- context [RagSearchService.pushFilters ?acc ?v] =>
        lazymatch acc with
        | context [RagSearchService.pushFilters] => fail
        | _ =>
            destruct (pushFilters_cases acc v ltac:(repeat constructor))
              as [[? ->] | [? ->]];
            [ try (exfalso; simpl in *; intuition congruence)
            | try (exfalso; simpl in *; intuition congruence) ];
            cbn [app]
        end
    end.

Section FallbackFacts.
Import Js Faq RagSearchService Fallback.

(** X16. The filter sets tried by the fallback search start with the
    normalised filters themselves and end with the limit alone; none is
    tried twice; there are at most five; each one keeps the limit and
    only drops filters, never adds or changes one. *)
Theorem buildFallbackFilterVariants_relaxes (f : Filters) :
  let n := normalizeFilters f in
  let vs := buildFallbackFilterVariants f in
  hd_error vs = Some n
  /\ last vs n = mkFilters None None None (f_limit n)
  /\ NoDup vs
  /\ List.length vs <= 5
  /\ Forall (relaxes n) vs.
Proof.
  destruct f as [[[|cl l]|] [[|cr r]|] [[|cp p]|] lim];
    cbv zeta; unfold buildFallbackFilterVariants, normalizeFilters, relaxes;
    cbn [f_languageCode f_rubrique f_productRef f_limit keepStr truthyStr
         JsString.isEmpty negb];
    push_filters;
    (split; [reflexivity |]);
    (split; [reflexivity |]);
    (split; [repeat constructor; simpl; intuition congruence |]);
    (split; [simpl; lia |]);
    repeat (apply Forall_cons; [simpl; repeat split; auto |]);
    apply Forall_nil.
Qed.

Lemma firstContent_first (db : Store) (q : string) (limit : Q)
      (vs : list Filters) :
  match firstContent db q limit vs with
  | Some rows =>
      exists pre v post,
        vs = pre ++ v :: post
        /\ Forall (silent db q limit) pre
        /\ answers db q limit v rows
  | None => Forall (silent db q limit) vs
  end.
Proof.
  induction vs as [|v vs IH]; simpl; [constructor |].
  fold (withLimit limit v).
  destruct (searchFaqContent db q (withLimit limit v)) as [| |rows] eqn:E.
  1, 2: assert (Hs : silent db q limit v)
    by (intros rows [_ H]; congruence).
  3: destruct rows as [|r rows].
  3: assert (Hs : silent db q limit v)
    by (intros rows [Hne H]; rewrite E in H; injection H as <-; congruence).
  1, 2, 3:
    destruct (firstContent db q limit vs) as [rows'|];
    [ destruct IH as (pre & v' & post & -> & Hpre & Hv);
      exists (v :: pre), v', post; repeat split;
      [ now constructor | apply Hv | apply Hv ]
    | now constructor ].
  exists [], v, vs. repeat split; [constructor | discriminate | exact E].
Qed.

(** X17. The fallback search asks the store with each relaxed filter
    set in turn, under a limit that never exceeds the configured
    fallback limit, and returns the rows of the first one for which the
    store has rows; it returns null exactly when every one of them
    throws or comes back without rows, and never an empty list. *)
Theorem searchFallback_first_answer
        (cfg : Config) (db : Store) (q : string) (f : Filters) :
  let limit := limitOverride cfg f in
  let vs := buildFallbackFilterVariants f in
  (limit <= fallbackLimit cfg)%Q
  /\ match searchFallback cfg db q f with
     | Some rows =>
         rows <> []
         /\ exists pre v post,
             vs = pre ++ v :: post
             /\ Forall (silent db q limit) pre
             /\ answers db q limit v rows
     | None => Forall (silent db q limit) vs
     end.
Proof.
  cbn zeta. split; [apply Q.le_min_r |].
  unfold searchFallback. fold (limitOverride cfg f).
  pose proof (firstContent_first db q (limitOverride cfg f)
                (buildFallbackFilterVariants f)) as H.
  destruct (firstContent db q (limitOverride cfg f)
              (buildFallbackFilterVariants f)) as [rows|]; [| exact H].
  split; [| exact H].
  destruct H as (_ & _ & _ & _ & _ & Hne & _). exact Hne.
Qed.

End FallbackFacts.

(** ** Synonym expansion *)

Section SynonymFacts.
Import JsString Js RagSearchService.

Lemma setAdd_spec (x : string) (l : list string) :
  NoDup l ->
  NoDup (setAdd x l) /\ forall v, In v (setAdd x l) <-> In v l \/ v = x.
Proof.
  intros Hnd. unfold setAdd. destruct (existsb (String.eqb x) l) eqn:E.
  - split; [assumption |]. intros v. split; [now left |].
    intros [H | ->]; [assumption |].
    apply existsb_exists in E. destruct E as (y & Hy & Hxy).
    apply String.eqb_eq in Hxy. now subst.
  - split.
    + apply Permutation_NoDup with (l := x :: l).
      * apply Permutation_cons_append.
      * constructor; [| assumption]. intros Hin.
        assert (H : existsb (String.eqb x) l = true).
        { apply existsb_exists. exists x. split; [assumption |].
          apply String.eqb_refl. }
        congruence.
    + intros v. rewrite in_app_iff. simpl. intuition.
Qed.

Lemma fold_setAdd_spec (g : string -> string) (xs acc : list string) :
  NoDup acc ->
  let out := fold_left (fun set x => setAdd (g x) set) xs acc in
  NoDup out
  /\ forall v, In v out <-> In v acc \/ exists x, In x xs /\ v = g x.
Proof.
  revert acc. induction xs as [|x xs IH]; intros acc Hnd; simpl.
  - split; [assumption |]. intros v. split; [now left |].
    intros [H | (x & [] & _)]. assumption.
  - destruct (setAdd_spec (g x) acc Hnd) as [Hnd' Hin'].
    destruct (IH (setAdd (g x) acc) Hnd') as [Hnd2 Hin2].
    split; [assumption |]. intros v. rewrite Hin2, Hin'. split.
    + intros [[H | ->] | (y & Hy & ->)].
      * now left.
      * right. exists x. split; [now left | reflexivity].
      * right. exists y. split; [now right | reflexivity].
    + intros [H | (y & [<- | Hy] & ->)].
      * left. now left.
      * left. now right.
      * right. now exists y.
Qed.

Lemma expandWords_spec (q : string) (words : list string) :
  forall acc, NoDup acc ->
    match expandWords q words acc with
    | Ok vs =>
        NoDup vs
        /\ (forall word, In word words ->
                         lookup synonymMap word <> InheritedValue)
        /\ forall v, In v vs <->
                     In v acc
                     \/ exists word syns syn,
                         In word words
                         /\ lookup synonymMap word = OwnArray syns
                         /\ In syn syns
                         /\ v = replaceFirst word syn q
    | TypeError =>
        exists word, In word words
                     /\ lookup synonymMap word = InheritedValue
    end.
Proof.
  induction words as [|word words IH]; intros acc Hnd; simpl.
  - split; [assumption |]. split; [intros w [] |].
    intros v. split; [now left |].
    intros [H | (w & _ & _ & [] & _)]. assumption.
  - destruct (lookup synonymMap word) as [syns| |] eqn:L.
    + destruct (fold_setAdd_spec (fun syn => replaceFirst word syn q)
                  syns acc Hnd) as [Hnd' Hin'].
      specialize (IH _ Hnd').
      destruct (expandWords q words _) as [vs|].
      * destruct IH as (Hnd2 & Hok & Hin2). split; [assumption |].
        split; [intros w [<- | Hw]; [congruence | now apply Hok] |].
        intros v. rewrite Hin2, Hin'. split.
        -- intros [[H | (syn & Hsyn & ->)] | (w & ss & syn & Hw & Hl & Hs & ->)].
           ++ now left.
           ++ right. exists word, syns, syn. auto.
           ++ right. exists w, ss, syn. auto.
        -- intros [H | (w & ss & syn & [<- | Hw] & Hl & Hs & ->)].
           ++ left. now left.
           ++ left. right. exists syn. rewrite L in Hl.
              injection Hl as ->. auto.
           ++ right. exists w, ss, syn. auto.
      * destruct IH as (w & Hw & Hl). exists w. auto.
    + exists word. auto.
    + specialize (IH acc Hnd).
      destruct (expandWords q words acc) as [vs|].
      * destruct IH as (Hnd2 & Hok & Hin2). split; [assumption |].
        split; [intros w [<- | Hw]; [congruence | now apply Hok] |].
        intros v. rewrite Hin2. split.
        -- intros [H | (w & ss & syn & Hw & Hl & Hs & ->)]; [now left |].
           right. exists w, ss, syn. auto.
        -- intros [H | (w & ss & syn & [<- | Hw] & Hl & Hs & ->)].
           ++ now left.
           ++ congruence.
           ++ right. exists w, ss, syn. auto.
      * destruct IH as (w & Hw & Hl). exists w. auto.
Qed.

Lemma lookup_inherited (word : string) :
  lookup synonymMap word = InheritedValue <-> inherited word = true.
Proof.
  unfold lookup. split.
  - destruct (JsMap.get String.eqb word synonymMap); [discriminate |].
    now destruct (inherited word).
  - intros H. rewrite H. unfold inherited in H.
    apply existsb_exists in H. destruct H as (k & Hk & E).
    apply String.eqb_eq in E. subst k.
    simpl in Hk.
    repeat (destruct Hk as [<- | Hk]; [reflexivity |]). destruct Hk.
Qed.

Lemma lookup_own (word : string) (syns : list string) :
  lookup synonymMap word = OwnArray syns
  <-> JsMap.get String.eqb word synonymMap = Some syns.
Proof.
  unfold lookup. destruct (JsMap.get String.eqb word synonymMap).
  - split; intros H; now injection H as ->.
  - destruct (inherited word); split; discriminate.
Qed.

(** X18. The synonym variants of a query are, without repetition, the
    query with the first occurrence of one of its words replaced by one
    of that word's synonyms, for every word (split at single spaces)
    listed in the synonym map and every synonym of it; the call raises a
    TypeError exactly when one of the words names a property inherited
    from Object.prototype. *)
Theorem expandSynonyms_variants (q : string) :
  match expandSynonyms q with
  | Ok vs =>
      NoDup vs
      /\ (forall word, In word (splitOn " " q) -> inherited word = false)
      /\ forall v, In v vs <->
                   exists word syns syn,
                     In word (splitOn " " q)
                     /\ JsMap.get String.eqb word synonymMap = Some syns
                     /\ In syn syns
                     /\ v = replaceFirst word syn q
  | TypeError =>
      exists word, In word (splitOn " " q) /\ inherited word = true
  end.
Proof.
  unfold expandSynonyms.
  pose proof (expandWords_spec q (splitOn " " q) [] (NoDup_nil _)) as H.
  destruct (expandWords q (splitOn " " q) []) as [vs|].
  - destruct H as (Hnd & Hok & Hin). split; [assumption |]. split.
    + intros w Hw. specialize (Hok w Hw). rewrite lookup_inherited in Hok.
      now destruct (inherited w).
    + intros v. rewrite Hin. split.
      * intros [[] | (w & ss & syn & Hw & Hl & Hs & ->)].
        exists w, ss, syn. rewrite <- lookup_own. auto.
      * intros (w & ss & syn & Hw & Hl & Hs & ->). right.
        exists w, ss, syn. rewrite lookup_own. auto.
  - destruct H as (w & Hw & Hl). apply lookup_inherited in Hl.
    now exists w.
Qed.

End SynonymFacts.

(** ** Normal forms of queries *)

Section NormalFormFacts.
Import JsString.

(** A word followed by anything: the word ends at the first field break
    of what follows. *)
Lemma fieldsFrom_word (w t : string) (m : bool) :
  noSpace w = true -> w <> "" ->
  fieldsFrom m (w ++ t)
  = (w ++ hd "" (fieldsFrom false t))%string :: tl (fieldsFrom false t).
Proof.
  revert m. induction w as [|c w IH]; intros m Hw Hne; [congruence |].
  unfold noSpace in Hw. simpl in Hw. apply andb_true_iff in Hw.
  destruct Hw as [Hc Hw]. apply negb_true_iff in Hc.
  simpl. rewrite Hc.
  destruct w as [|c' w'].
  - simpl. apply consHead_hd_tl, fieldsFrom_nonempty.
  - rewrite (IH false Hw) by discriminate. reflexivity.
Qed.

Lemma fieldsFrom_join (ws : list string) :
  ws <> [] ->
  Forall (fun w => noSpace w = true /\ notEmpty w = true) ws ->
  forall m, fieldsFrom m (join " " ws) = ws.
Proof.
  induction ws as [|w ws IH]; intros Hne Hall m; [congruence |].
  inversion Hall as [|w' ws' [Hns Hnz] Hall']; subst.
  assert (Hw : w <> "") by (destruct w; [discriminate | discriminate]).
  destruct ws as [|w2 ws].
  - simpl. rewrite <- (append_empty_r w) at 1.
    rewrite fieldsFrom_word by assumption. simpl.
    now rewrite append_empty_r.
  - change (join " " (w :: w2 :: ws))
      with (w ++ String " " (join " " (w2 :: ws)))%string.
    rewrite fieldsFrom_word by assumption.
    change (fieldsFrom false (String " " (join " " (w2 :: ws))))
      with ("" :: fieldsFrom true (join " " (w2 :: ws))).
    simpl hd. simpl tl. rewrite append_empty_r.
    rewrite IH; [reflexivity | discriminate | assumption].
Qed.

Lemma Forall_filter {A : Type} (P : A -> Prop) (f : A -> bool) (l : list A) :
  Forall P l -> Forall P (filter f l).
Proof.
  induction 1 as [|x l Hx _ IH]; simpl; [constructor |].
  destruct (f x); [now constructor | assumption].
Qed.

Lemma wordsOf_words (s : string) :
  Forall (fun w => noSpace w = true /\ notEmpty w = true) (wordsOf s).
Proof.
  unfold wordsOf, splitSpaces. apply Forall_forall. intros w Hw.
  apply filter_In in Hw. destruct Hw as [Hin Hne]. split; [| assumption].
  pose proof (fieldsFrom_noSpace s false) as H.
  rewrite Forall_forall in H. now apply H.
Qed.

(** The words of a text written as words separated by single spaces are
    those words. *)
Lemma wordsOf_join (ws : list string) :
  Forall (fun w => noSpace w = true /\ notEmpty w = true) ws ->
  wordsOf (join " " ws) = ws.
Proof.
  intros Hall. destruct ws as [|w ws]; [reflexivity |].
  unfold wordsOf, splitSpaces.
  rewrite fieldsFrom_join by (discriminate || assumption).
  apply filter_all. eapply Forall_impl; [| exact Hall]. now intros x [_ H].
Qed.

Lemma forallChars_append (p : ascii -> bool) (a b : string) :
  forallChars p (a ++ b) = forallChars p a && forallChars p b.
Proof.
  induction a as [|c a IH]; simpl; [reflexivity |].
  now rewrite IH, andb_assoc.
Qed.

Lemma forallChars_consHead (p : ascii -> bool) (c : ascii)
      (l : list string) :
  p c = true ->
  Forall (fun f => forallChars p f = true) l ->
  Forall (fun f => forallChars p f = true) (consHead c l).
Proof.
  intros Hc Hl. destruct l as [|f l]; simpl.
  - constructor; [simpl; now rewrite Hc | constructor].
  - inversion Hl; subst. constructor; [simpl; now rewrite Hc | assumption].
Qed.

Lemma fieldsFrom_chars (p : ascii -> bool) (s : string) :
  forallChars p s = true ->
  forall m, Forall (fun f => forallChars p f = true) (fieldsFrom m s).
Proof.
  induction s as [|c s IH]; intros Hs m; simpl.
  - constructor; [reflexivity | constructor].
  - simpl in Hs. apply andb_true_iff in Hs. destruct Hs as [Hc Hs].
    destruct (isSpace c).
    + destruct m; [now apply IH |].
      constructor; [reflexivity | now apply IH].
    + apply forallChars_consHead; [assumption | now apply IH].
Qed.

Lemma join_chars (p : ascii -> bool) (ws : list string) :
  p " "%char = true ->
  Forall (fun f => forallChars p f = true) ws ->
  forallChars p (join " " ws) = true.
Proof.
  intros Hsp. induction 1 as [|w ws Hw Hws IH]; [reflexivity |].
  destruct ws as [|w2 ws]; [exact Hw |].
  change (join " " (w :: w2 :: ws))
    with (w ++ String " " (join " " (w2 :: ws)))%string.
  rewrite forallChars_append, Hw. cbn [forallChars andb].
  now rewrite Hsp, IH.
Qed.

Lemma mapChars_fixed (g : ascii -> ascii) (s : string) :
  forallChars (fun c => Ascii.eqb (g c) c) s = true -> mapChars g s = s.
Proof.
  induction s as [|c s IH]; simpl; [reflexivity |].
  intros H. apply andb_true_iff in H. destruct H as [Hc Hs].
  apply Ascii.eqb_eq in Hc. now rewrite Hc, IH.
Qed.

Lemma mapChars_compose (g h : ascii -> ascii) (s : string) :
  mapChars g (mapChars h s) = mapChars (fun c => g (h c)) s.
Proof.
  induction s as [|c s IH]; simpl; [reflexivity | now rewrite IH].
Qed.

(** Lowering and blanking a character a second time changes nothing. *)
Lemma blank_lower_stable (c : ascii) :
  blankNonWord (lowerChar (blankNonWord (lowerChar c)))
  = blankNonWord (lowerChar c).
Proof. destruct c as [[] [] [] [] [] [] [] []]; reflexivity. Qed.

Lemma blanked_chars (s : string) :
  forallChars (fun c => Ascii.eqb (blankNonWord (lowerChar c)) c)
              (replaceNonWord (toLowerCase s)) = true.
Proof.
  unfold replaceNonWord, toLowerCase. rewrite mapChars_compose.
  induction s as [|c s IH]; simpl; [reflexivity |].
  rewrite IH, andb_true_r. apply Ascii.eqb_eq. apply blank_lower_stable.
Qed.

Lemma normalized_fixed (s : string) :
  replaceNonWord (toLowerCase
                    (join " " (wordsOf (replaceNonWord (toLowerCase s)))))
  = join " " (wordsOf (replaceNonWord (toLowerCase s))).
Proof.
  unfold replaceNonWord at 1. unfold toLowerCase at 1.
  rewrite mapChars_compose. apply mapChars_fixed.
  apply join_chars; [reflexivity |].
  unfold wordsOf, splitSpaces. apply Forall_filter.
  apply fieldsFrom_chars, blanked_chars.
Qed.

(** X19. Normalising a query twice gives the same text as normalising
    it once, for the retriever's [normalizeQuery] and for the store's
    [normalizeSearchTerm]; the normal form is made of non-empty words
    without white space, separated by single spaces. *)
Theorem normalizeQuery_idempotent (q : string) :
  RagSearchService.normalizeQuery (RagSearchService.normalizeQuery q)
  = RagSearchService.normalizeQuery q
  /\ Database.normalizeSearchTerm (Database.normalizeSearchTerm q)
     = Database.normalizeSearchTerm q
  /\ exists ws,
      RagSearchService.normalizeQuery q = join " " ws
      /\ Forall (fun w => noSpace w = true /\ notEmpty w = true) ws
      /\ wordsOf (RagSearchService.normalizeQuery q) = ws.
Proof.
  assert (H : RagSearchService.normalizeQuery
                (RagSearchService.normalizeQuery q)
              = RagSearchService.normalizeQuery q).
  { rewrite (normalizeQuery_words (RagSearchService.normalizeQuery q)).
    rewrite (normalizeQuery_words q).
    rewrite normalized_fixed. f_equal.
    apply wordsOf_join, wordsOf_words. }
  split; [exact H |]. split.
  - rewrite !normalizeSearchTerm_words. rewrite <- !normalizeQuery_words.
    exact H.
  - exists (wordsOf (replaceNonWord (toLowerCase q))).
    rewrite normalizeQuery_words.
    split; [reflexivity |]. split; [apply wordsOf_words |].
    apply wordsOf_join, wordsOf_words.
Qed.

End NormalFormFacts.

Lemma getCachedResults_reuses_answer_witness :
  let cs := CacheService.create None None in
  let filters := RagSearchService.mkFilters None None None (Some 12%Q) in
  let first :=
    RagSearchService.getCachedResults Sample.defaults Sample.healthy 1000
      "rag:horaires:" "horaires" filters (Some cs) in
  snd first = Some [Sample.openingHours]
  /\ snd (RagSearchService.getCachedResults Sample.defaults Outage.down 2000
            "rag:horaires:" "horaires" filters (fst first))
     = Some [Sample.openingHours].
Proof.
  apply (getCachedResults_reuses_answer
           Sample.defaults Sample.healthy Outage.down 1000 2000
           "rag:horaires:" "horaires" "horaires"
           (RagSearchService.mkFilters None None None (Some 12%Q))
           (RagSearchService.mkFilters None None None (Some 12%Q))
           (CacheService.create None None) [Sample.openingHours]).
  - reflexivity.
  - reflexivity.
  - vm_compute. discriminate.
Defined.

Lemma getCachedResults_failure_not_cached_witness :
  let cs := CacheService.create None None in
  let filters := RagSearchService.mkFilters None None None (Some 12%Q) in
  let first :=
    RagSearchService.getCachedResults Sample.defaults Outage.down 1000
      "rag:horaires:" "horaires" filters (Some cs) in
  snd first = None
  /\ snd (RagSearchService.getCachedResults Sample.defaults Sample.healthy
            2000 "rag:horaires:" "horaires" filters (fst first))
     = Some [Sample.openingHours].
Proof.
  apply (getCachedResults_failure_not_cached
           Sample.defaults Outage.down Sample.healthy 1000 2000
           "rag:horaires:" "horaires" "horaires"
           (RagSearchService.mkFilters None None None (Some 12%Q))
           (RagSearchService.mkFilters None None None (Some 12%Q))
           (CacheService.create None None)).
  - split; [constructor | reflexivity].
  - reflexivity.
  - intros rs. discriminate.
Defined.

(** ** The store's post-processing of the rows it found *)

Section DatabaseFacts.
Import Js Faq DatabaseSearch.

Variable normalizedSearch : string.
Variable searchWords : list string.

Lemma existsb_Zeqb (i : Z) (l : list Z) :
  existsb (Z.eqb i) l = true <-> In i l.
Proof.
  rewrite existsb_exists. split.
  - intros (j & Hj & E). apply Z.eqb_eq in E. now subst.
  - intros H. exists i. split; [assumption | apply Z.eqb_refl].
Qed.

Lemma uniqueResults_spec (rows : list Row) :
  forall seenIds,
    let out := uniqueResults normalizedSearch searchWords seenIds rows in
    NoDup (map id out)
    /\ (forall i, In i (map id out) <->
                  In i (map id rows) /\ ~ In i seenIds)
    /\ Forall (fun r =>
                 exists before row after,
                   rows = before ++ row :: after
                   /\ ~ In (id row) (map id before)
                   /\ ~ In (id row) seenIds
                   /\ r = withEnhanced row
                            (calculateEnhancedRelevance
                               row normalizedSearch searchWords))
              out.
Proof.
  induction rows as [|row rows IH]; intros seenIds; simpl.
  - split; [constructor |]. split; [intros i; tauto | constructor].
  - destruct (existsb (Z.eqb (id row)) seenIds) eqn:E.
    + apply existsb_Zeqb in E.
      destruct (IH seenIds) as (Hnd & Hin & Hall).
      split; [assumption |]. split.
      * intros i. rewrite Hin. split; [tauto |].
        intros [[<- | H] Hs]; tauto.
      * eapply Forall_impl; [| exact Hall].
        intros r (before & row0 & after & -> & Hb & Hs & ->).
        exists (row :: before), row0, after.
        split; [reflexivity |]. split; [| split; [assumption | reflexivity]].
        simpl. intros [H | H]; [| contradiction].
        apply Hs. now rewrite <- H.
    + assert (Hfresh : ~ In (id row) seenIds).
      { intros H. apply existsb_Zeqb in H. congruence. }
      destruct (IH (id row :: seenIds)) as (Hnd & Hin & Hall).
      split; [| split].
      * simpl. constructor; [| assumption].
        intros H. apply Hin in H. simpl in H. tauto.
      * intros i. simpl. rewrite Hin. simpl. split.
        -- intros [<- | [H1 H2]]; tauto.
        -- intros [[<- | H1] H2]; [now left |].
           destruct (Z.eq_dec (id row) i) as [<- | Hne]; [now left |].
           right. tauto.
      * constructor.
        -- exists [], row, rows. simpl. tauto.
        -- eapply Forall_impl; [| exact Hall].
           intros r (before & row0 & after & -> & Hb & Hs & ->).
           exists (row :: before), row0, after. simpl in *.
           split; [reflexivity |]. split; [tauto |]. split; [tauto |].
           reflexivity.
Qed.

Lemma insertByRelevance_perm (x : Row) (l : list Row) :
  Permutation (x :: l) (insertByRelevance x l).
Proof.
  induction l as [|y l IH]; simpl; [apply Permutation_refl |].
  destruct (Qle_bool (enhanced y) (enhanced x)); [apply Permutation_refl |].
  eapply perm_trans; [apply perm_swap |]. now apply perm_skip.
Qed.

Lemma insertByRelevance_sorted (x : Row) (l : list Row) :
  StronglySorted above l -> StronglySorted above (insertByRelevance x l).
Proof.
  induction l as [|y l IH]; intros Hs; simpl.
  - constructor; constructor.
  - inversion Hs as [|y' l' Hs' Hall]; subst.
    destruct (Qle_bool (enhanced y) (enhanced x)) eqn:E.
    + apply Qle_bool_iff in E. constructor; [assumption |].
      constructor; [exact E |].
      eapply Forall_impl; [| exact Hall].
      intros z Hz. unfold above in *. now apply Qle_trans with (enhanced y).
    + constructor; [now apply IH |].
      apply not_Qle_bool in E.
      apply Forall_forall. intros z Hz.
      apply (Permutation_in z (Permutation_sym (insertByRelevance_perm x l)))
        in Hz.
      destruct Hz as [<- | Hz].
      * unfold above. now apply Qlt_le_weak.
      * rewrite Forall_forall in Hall. now apply Hall.
Qed.

Lemma sortByRelevance_perm (l : list Row) :
  Permutation l (fold_right insertByRelevance [] l).
Proof.
  induction l as [|x l IH]; simpl; [constructor |].
  eapply perm_trans; [| apply insertByRelevance_perm]. now apply perm_skip.
Qed.

Lemma sortByRelevance_sorted (l : list Row) :
  StronglySorted above (fold_right insertByRelevance [] l).
Proof.
  induction l as [|x l IH]; simpl; [constructor |].
  now apply insertByRelevance_sorted.
Qed.

(** X20. [deduplicateAndScore] returns one row per identifier of its
    input: the first row carrying that identifier, with its enhanced
    relevance computed by [calculateEnhancedRelevance]; the rows come
    best first, no row scoring below a later one. *)
Theorem deduplicateAndScore_unique_best_first (rows : list Row) :
  let out := deduplicateAndScore rows normalizedSearch searchWords in
  NoDup (map id out)
  /\ (forall i, In i (map id out) <-> In i (map id rows))
  /\ Forall (firstOf rows normalizedSearch searchWords) out
  /\ StronglySorted above out.
Proof.
  cbn zeta. unfold deduplicateAndScore.
  destruct (uniqueResults_spec rows []) as (Hnd & Hin & Hall).
  pose proof (sortByRelevance_perm
                (uniqueResults normalizedSearch searchWords [] rows)) as P.
  split; [| split; [| split]].
  - eapply Permutation_NoDup; [| exact Hnd]. now apply Permutation_map.
  - intros i. split; intros H.
    + apply (Permutation_in i (Permutation_sym (Permutation_map id P))) in H.
      now apply Hin in H.
    + apply (Permutation_in i (Permutation_map id P)).
      apply Hin. split; [assumption | intros []].
  - apply Forall_forall. intros r Hr.
    apply (Permutation_in r (Permutation_sym P)) in Hr.
    rewrite Forall_forall in Hall.
    destruct (Hall r Hr) as (before & row & after & H1 & H2 & _ & H3).
    now exists before, row, after.
  - apply sortByRelevance_sorted.
Qed.

Lemma countQ_bounds (p : string -> bool) (l : list string) :
  (0 <= countQ p l)%Q /\ (countQ p l <= ChatService.lengthQ l)%Q.
Proof.
  unfold countQ, ChatService.lengthQ. split.
  - change 0%Q with (inject_Z 0). rewrite <- Zle_Qle. lia.
  - rewrite <- Zle_Qle. pose proof (filter_length_le p l). lia.
Qed.

Lemma wordMatch_bounds (questions answers : list string) (title : string)
      (acc : Q) (word : string) :
  (acc <= wordMatch questions answers title acc word)%Q
  /\ (wordMatch questions answers title acc word
      <= acc + (ChatService.lengthQ questions * 0.8
                + ChatService.lengthQ answers * 0.6 + 0.4))%Q.
Proof.
  unfold wordMatch.
  destruct (countQ_bounds (fun q => JsString.includes q word) questions).
  destruct (countQ_bounds (fun a => JsString.includes a word) answers).
  destruct (JsString.includes title word); split; lra.
Qed.

Lemma fold_wordMatch_bounds (questions answers : list string)
      (title : string) (words : list string) :
  forall acc,
    (acc <= fold_left (wordMatch questions answers title) words acc)%Q
    /\ (fold_left (wordMatch questions answers title) words acc
        <= acc + ChatService.lengthQ words
                 * (ChatService.lengthQ questions * 0.8
                    + ChatService.lengthQ answers * 0.6 + 0.4))%Q.
Proof.
  induction words as [|w words IH]; intros acc; simpl.
  - change (ChatService.lengthQ (@nil string)) with 0%Q. split; lra.
  - destruct (IH (wordMatch questions answers title acc w)) as [H1 H2].
    destruct (wordMatch_bounds questions answers title acc w) as [H3 H4].
    pose proof (lengthQ_cons w words) as Hl.
    pose proof (lengthQ_nonneg questions) as Hq.
    pose proof (lengthQ_nonneg answers) as Ha.
    set (B := (ChatService.lengthQ questions * 0.8
               + ChatService.lengthQ answers * 0.6 + 0.4)%Q) in *.
    split; [lra |].
    rewrite Hl. lra.
Qed.

Lemma loweredFields_length (field : QaData -> option string)
      (entries : list (option QaEntry)) :
  (ChatService.lengthQ (loweredFields field entries)
   <= ChatService.lengthQ entries)%Q.
Proof.
  unfold ChatService.lengthQ. rewrite <- Zle_Qle.
  apply inj_le. induction entries as [|e entries IH]; simpl; [lia |].
  rewrite length_app.
  destruct e as [[c [d|]]|]; simpl; try lia.
  destruct (field d) as [text|]; simpl; try lia.
  destruct (JsString.isEmpty text); simpl; lia.
Qed.

(** X21. The enhanced relevance of a row is never below its original
    relevance (taken as 0 when missing or zero); it is exactly that when
    the row's payload does not parse; otherwise it exceeds it by at most
    2 for the phrase plus, per search word, 0.8 per question, 0.6 per
    answer and 0.4 for the title. *)
Theorem calculateEnhancedRelevance_bounds (row : Row) :
  let base := orQ (relevance row) 0 in
  let entries := ChatService.lengthQ (payloadEntries (qa_data row)) in
  let enhancedScore :=
    calculateEnhancedRelevance row normalizedSearch searchWords in
  (base <= enhancedScore)%Q
  /\ (enhancedScore
      <= base + 2
         + ChatService.lengthQ searchWords
           * (entries * 0.8 + entries * 0.6 + 0.4))%Q
  /\ (qa_data row = QaMalformed -> enhancedScore = base).
Proof.
  cbn zeta. unfold calculateEnhancedRelevance.
  pose proof (lengthQ_nonneg searchWords) as Hw.
  assert (Hgen : forall payload,
    let title := JsString.toLowerCase
                   (match title row with Some t => t | None => "" end) in
    let questions := loweredFields question (payloadEntries payload) in
    let answers := loweredFields answer (payloadEntries payload) in
    let n := ChatService.lengthQ (payloadEntries payload) in
    let score1 :=
      if existsb (fun q => JsString.includes q normalizedSearch) questions
         || existsb (fun a => JsString.includes a normalizedSearch) answers
         || JsString.includes title normalizedSearch
      then (orQ (relevance row) 0 + 2.0)%Q else orQ (relevance row) 0 in
    (orQ (relevance row) 0
     <= score1 + fold_left (wordMatch questions answers title) searchWords 0)%Q
    /\ (score1 + fold_left (wordMatch questions answers title) searchWords 0
        <= orQ (relevance row) 0 + 2
           + ChatService.lengthQ searchWords * (n * 0.8 + n * 0.6 + 0.4))%Q).
  { intros payload title questions answers n score1.
    destruct (fold_wordMatch_bounds questions answers title searchWords 0)
      as [H1 H2].
    pose proof (loweredFields_length question (payloadEntries payload)) as Hq.
    pose proof (loweredFields_length answer (payloadEntries payload)) as Ha.
    fold questions in Hq. fold answers in Ha. fold n in Hq, Ha.
    assert (Hs : (orQ (relevance row) 0 <= score1)%Q
                 /\ (score1 <= orQ (relevance row) 0 + 2)%Q).
    { unfold score1. destruct (_ || _); split; lra. }
    assert (Hm : (ChatService.lengthQ searchWords
                  * (ChatService.lengthQ questions * 0.8
                     + ChatService.lengthQ answers * 0.6 + 0.4)
                  <= ChatService.lengthQ searchWords
                     * (n * 0.8 + n * 0.6 + 0.4))%Q).
    { assert (Hb : (ChatService.lengthQ questions * 0.8
                    + ChatService.lengthQ answers * 0.6 + 0.4
                    <= n * 0.8 + n * 0.6 + 0.4)%Q) by lra.
      nra. }
    split; lra. }
  destruct (qa_data row) as [|entries|entry] eqn:E.
  - split; [apply Qle_refl |]. split; [| reflexivity].
    change (ChatService.lengthQ (payloadEntries QaMalformed)) with 0%Q.
    pose proof (lengthQ_nonneg searchWords). nra.
  - destruct (Hgen (QaList entries)) as [H1 H2].
    split; [exact H1 |]. split; [exact H2 | discriminate].
  - destruct (Hgen (QaSingle entry)) as [H1 H2].
    split; [exact H1 |]. split; [exact H2 | discriminate].
Qed.

End DatabaseFacts.

(** ** The words extracted from a query *)

Section WordFacts.
Import JsString Stemmer.

Lemma forallChars_and (p r : ascii -> bool) (s : string) :
  forallChars (fun c => p c && r c) s
  = forallChars p s && forallChars r s.
Proof.
  induction s as [|c s IH]; simpl; [reflexivity |].
  rewrite IH. destruct (p c), (r c), (forallChars p s), (forallChars r s);
    reflexivity.
Qed.

Lemma forallChars_impl (p r : ascii -> bool) (s : string) :
  (forall c, p c = true -> r c = true) ->
  forallChars p s = true -> forallChars r s = true.
Proof.
  intros H. induction s as [|c s IH]; simpl; [reflexivity |].
  intros Hs. apply andb_true_iff in Hs. destruct Hs as [Hc Hs].
  now rewrite (H c Hc), IH.
Qed.

(** A stem keeps at least three characters of a word that has that many,
    and only characters of the word. *)
Lemma stemWith_shape (p : ascii -> bool) (table : list string)
      (word : string) :
  2 < String.length word ->
  forallChars p word = true ->
  3 <= String.length (stemWith table word)
  /\ forallChars p (stemWith table word) = true.
Proof.
  intros Hlen Hp.
  destruct (stemWith_spec table word)
    as [(before & suffix & after & stem & _ & _ & Hw & H3 & ->) | [_ ->]].
  - split; [assumption |].
    rewrite Hw, forallChars_append in Hp.
    now apply andb_true_iff in Hp.
  - split; [lia | assumption].
Qed.

Lemma blankNonWord_kind (c : ascii) :
  isWordChar (blankNonWord c) || isSpace (blankNonWord c) = true.
Proof. destruct c as [[] [] [] [] [] [] [] []]; reflexivity. Qed.

Lemma replaceNonWord_chars (s : string) :
  forallChars (fun c => isWordChar c || isSpace c) (replaceNonWord s) = true.
Proof.
  unfold replaceNonWord. induction s as [|c s IH]; simpl; [reflexivity |].
  now rewrite blankNonWord_kind, IH.
Qed.

Lemma word_chars (f : string) :
  noSpace f = true ->
  forallChars (fun c => isWordChar c || isSpace c) f = true ->
  forallChars isWordChar f = true.
Proof.
  unfold noSpace. induction f as [|c f IH]; simpl; [reflexivity |].
  intros H1 H2. apply andb_true_iff in H1, H2.
  destruct H1 as [Hc1 Hf1], H2 as [Hc2 Hf2].
  rewrite IH by assumption. destruct (isSpace c); [discriminate |].
  now rewrite orb_false_r in Hc2; rewrite Hc2.
Qed.

(** The pieces between white space of a blanked text are made of word
    characters. *)
Lemma splitSpaces_replaceNonWord (s : string) :
  Forall (fun f => forallChars isWordChar f = true)
         (splitSpaces (replaceNonWord s)).
Proof.
  unfold splitSpaces. apply Forall_forall. intros f Hf.
  pose proof (fieldsFrom_noSpace (replaceNonWord s) false) as H1.
  pose proof (fieldsFrom_chars _ _ (replaceNonWord_chars s) false) as H2.
  rewrite Forall_forall in H1, H2. apply word_chars; auto.
Qed.

Lemma splitOn_chars (p : ascii -> bool) (s : string) :
  forallChars (fun c => p c || Ascii.eqb c " ") s = true ->
  Forall (fun f => forallChars p f = true) (splitOn " " s).
Proof.
  induction s as [|c s IH]; simpl; intros H.
  - constructor; [reflexivity | constructor].
  - apply andb_true_iff in H. destruct H as [Hc Hs].
    destruct (Ascii.eqb c " ") eqn:E.
    + constructor; [reflexivity | now apply IH].
    + rewrite orb_false_r in Hc.
      apply forallChars_consHead; [assumption | now apply IH].
Qed.

Lemma normalized_chars (q : string) :
  forallChars (fun c => isWordChar c || Ascii.eqb c " ")
              (Database.normalizeSearchTerm q) = true.
Proof.
  rewrite normalizeSearchTerm_words. apply join_chars; [reflexivity |].
  unfold wordsOf. apply Forall_filter.
  eapply Forall_impl; [| apply splitSpaces_replaceNonWord].
  intros f Hf. eapply forallChars_impl; [| exact Hf].
  intros c Hc. now rewrite Hc.
Qed.

Lemma extractSearchWords_shape (q : string) :
  Forall (fun w => 3 <= String.length w /\ forallChars isWordChar w = true)
         (DatabaseSearch.extractSearchWords
            (Database.normalizeSearchTerm q)).
Proof.
  unfold DatabaseSearch.extractSearchWords. apply Forall_forall.
  intros w Hw. apply in_map_iff in Hw. destruct Hw as (t & <- & Ht).
  apply filter_In in Ht. destruct Ht as [Hin Hkeep].
  unfold DatabaseSearch.keepWord in Hkeep.
  apply andb_true_iff in Hkeep. destruct Hkeep as [Hlen _].
  apply Nat.ltb_lt in Hlen.
  pose proof (splitOn_chars isWordChar _ (normalized_chars q)) as H.
  rewrite Forall_forall in H.
  apply stemWith_shape; [assumption | now apply H].
Qed.

(** X22. Every word that [extractQueryWords] returns has at least three
    characters, all of them ASCII word characters, and there are no more
    of them than words in the query; the same holds of the words that
    [extractSearchWords] returns for a normalised search term. *)
Theorem extracted_words_shape (q : string) :
  Forall (fun w => 3 <= String.length w /\ forallChars isWordChar w = true)
         (ChatService.extractQueryWords q)
  /\ List.length (ChatService.extractQueryWords q)
     <= List.length (wordsOf (replaceNonWord q))
  /\ Forall (fun w => 3 <= String.length w /\ forallChars isWordChar w = true)
            (DatabaseSearch.extractSearchWords
               (Database.normalizeSearchTerm q)).
Proof.
  split; [| split].
  - unfold ChatService.extractQueryWords. apply Forall_forall.
    intros w Hw. apply in_map_iff in Hw. destruct Hw as (t & <- & Ht).
    apply filter_In in Ht. destruct Ht as [Hin Hkeep].
    unfold ChatService.keepWord in Hkeep.
    apply andb_true_iff in Hkeep. destruct Hkeep as [Hlen _].
    apply Nat.ltb_lt in Hlen.
    pose proof (splitSpaces_replaceNonWord q) as H.
    rewrite Forall_forall in H.
    apply stemWith_shape; [assumption | now apply H].
  - unfold ChatService.extractQueryWords. rewrite length_map.
    rewrite <- filter_keepWord. apply filter_length_le.
  - apply extractSearchWords_shape.
Qed.

End WordFacts.

(** ** The best match among several rows *)

Section BestOfRows.
Import JsString Js Faq ChatService Matching BestMatch.

Variable threshold : Q.
Variable queryLower : string.
Variable queryWords : list string.
Variable rows : list Row.

Lemma getMatchType_values (exactScore semanticScore partialScore : Q) :
  In (getMatchType exactScore semanticScore partialScore)
     ["exact"; "semantic"; "partial"; "weak"].
Proof.
  unfold getMatchType.
  destruct (Qle_bool exactScore 0.8); [| simpl; tauto].
  destruct (Qle_bool semanticScore 0.7); [| simpl; tauto].
  destruct (Qle_bool partialScore 0.6); simpl; tauto.
Qed.

(** One entry: the state stays sound, the best score does not go down,
    and a scored entry that qualifies is reached. *)
Lemma matchEntry_tracks (faq : Row) (e : option QaEntry) (best : Best) :
  In faq rows ->
  In e (entriesOf (qa_data faq)) ->
  Tracks threshold queryLower queryWords rows best ->
  match matchEntry threshold queryLower queryWords faq e best with
  | Ok best' =>
      Tracks threshold queryLower queryWords rows best'
      /\ (snd best <= snd best')%Q
      /\ forall entry d s,
          e = Some entry ->
          code entry = Some "app.faq_entry" -> data entry = Some d ->
          entryScore queryLower queryWords faq d = Ok s ->
          (threshold <= s)%Q -> (s <= snd best')%Q
  | TypeError =>
      exists entry d,
        e = Some entry /\ data entry = Some d
        /\ entryScore queryLower queryWords faq d = TypeError
  end.
Proof.
  intros Hfaq He Htr. unfold matchEntry.
  destruct e as [entry|]; [| split; [assumption |]; split;
                            [apply Qle_refl | discriminate]].
  destruct (code entry) as [c|] eqn:Ec;
    [| split; [assumption |]; split;
       [apply Qle_refl | intros ? ? ? H; injection H as <-; congruence]].
  destruct (data entry) as [d|] eqn:Ed;
    [| split; [assumption |]; split;
       [apply Qle_refl | intros ? ? ? H; injection H as <-; congruence]].
  destruct (String.eqb c "app.faq_entry") eqn:Ecode;
    [| split; [assumption |]; split;
       [apply Qle_refl |
        intros ? ? ? H; injection H as <-; intros Hc;
        rewrite Ec in Hc; injection Hc as ->; discriminate]].
  apply String.eqb_eq in Ecode. subst c.
  pose proof (eq_refl (entryScore queryLower queryWords faq d)) as Hscore.
  unfold entryScore at 2 in Hscore.
  destruct (calculateSemanticScore queryWords
              (toLowerCase match question d with
                           | Some q => q
                           | None => ""
                           end)) as [sem|] eqn:Esem.
  2: { exists entry, d. simpl in Hscore. auto. }
  cbn [bind] in Hscore |- *.
  match type of Hscore with _ = Ok ?x => set (final := x) in * end.
  destruct (negb (Qle_bool final (snd best)) && Qle_bool threshold final)
    eqn:Etake.
  - apply andb_true_iff in Etake. destruct Etake as [Hgt Hthr].
    apply negb_true_iff, not_Qle_bool in Hgt.
    apply Qle_bool_iff in Hthr.
    destruct Htr as [Hpos _].
    split; [| split].
    + split; cbn [fst snd m_score]; [lra |].
      split; [reflexivity |]. split; [lra |]. split; [assumption |].
      split; [| apply getMatchType_values].
      exists faq, d. cbn [m_faqId m_question m_answer m_score].
      split; [assumption |]. split; [now exists entry |].
      repeat split; assumption.
    + cbn [snd]. lra.
    + intros entry' d' s H. injection H as <-.
      intros _ Hd Hs _. rewrite Ed in Hd. injection Hd as <-.
      rewrite Hscore in Hs. injection Hs as <-. cbn [snd]. apply Qle_refl.
  - split; [assumption |]. split; [apply Qle_refl |].
    intros entry' d' s H. injection H as <-.
    intros _ Hd Hs Hthr. rewrite Ed in Hd. injection Hd as <-.
    rewrite Hscore in Hs. injection Hs as <-.
    apply andb_false_iff in Etake. destruct Etake as [H | H].
    + apply negb_false_iff, Qle_bool_iff in H. exact H.
    + apply not_Qle_bool in H. lra.
Qed.

(** No score computation raises. *)
Hypothesis scores_defined :
  forall faq d, entryScore queryLower queryWords faq d <> TypeError.

Lemma matchEntries_tracks (faq : Row) (entries : list (option QaEntry)) :
  In faq rows ->
  (forall e, In e entries -> In e (entriesOf (qa_data faq))) ->
  forall best,
    Tracks threshold queryLower queryWords rows best ->
    let best' :=
      matchEntries threshold queryLower queryWords faq entries best in
    Tracks threshold queryLower queryWords rows best'
    /\ (snd best <= snd best')%Q.
Proof.
  intros Hfaq. induction entries as [|e entries IH]; intros Hsub best Htr;
    simpl.
  - split; [assumption | apply Qle_refl].
  - pose proof (matchEntry_tracks faq e best Hfaq
                  (Hsub e (or_introl eq_refl)) Htr) as H.
    destruct (matchEntry threshold queryLower queryWords faq e best)
      as [best1|].
    + destruct H as (Htr1 & Hle1 & _).
      destruct (IH (fun x Hx => Hsub x (or_intror Hx)) best1 Htr1)
        as [Htr2 Hle2].
      split; [assumption | lra].
    + split; [assumption | apply Qle_refl].
Qed.

Lemma matchEntries_reaches (faq : Row) (entries : list (option QaEntry)) :
  In faq rows ->
  (forall e, In e entries -> In e (entriesOf (qa_data faq))) ->
  forall best,
    Tracks threshold queryLower queryWords rows best ->
    forall entry d s,
      In (Some entry) entries ->
      code entry = Some "app.faq_entry" -> data entry = Some d ->
      entryScore queryLower queryWords faq d = Ok s ->
      (threshold <= s)%Q ->
      (s <= snd (matchEntries threshold queryLower queryWords faq
                              entries best))%Q.
Proof.
  intros Hfaq. induction entries as [|e entries IH]; intros Hsub best Htr;
    simpl; [tauto |].
  intros entry d s Hin Hc Hd Hs Hthr.
  pose proof (matchEntry_tracks faq e best Hfaq
                (Hsub e (or_introl eq_refl)) Htr) as H.
  destruct (matchEntry threshold queryLower queryWords faq e best)
    as [best1|].
  - destruct H as (Htr1 & Hle1 & Hreach).
    assert (Hsub' : forall x, In x entries -> In x (entriesOf (qa_data faq)))
      by (intros x Hx; apply Hsub; now right).
    destruct Hin as [-> | Hin].
    + specialize (Hreach entry d s eq_refl Hc Hd Hs Hthr).
      destruct (matchEntries_tracks faq entries Hfaq Hsub' best1 Htr1)
        as [_ Hle2].
      cbn zeta in Hle2. lra.
    + now apply (IH Hsub' best1 Htr1 entry d s).
  - destruct H as (entry' & d' & _ & _ & Herr).
    exfalso. now apply (scores_defined faq d').
Qed.

Lemma matchRow_as_entries (best : Best) (faq : Row) :
  matchRow threshold queryLower queryWords best faq
  = matchEntries threshold queryLower queryWords faq
                 (entriesOf (qa_data faq)) best.
Proof. unfold matchRow, entriesOf. now destruct (qa_data faq). Qed.

Lemma rows_tracks (some : list Row) :
  (forall faq, In faq some -> In faq rows) ->
  forall best,
    Tracks threshold queryLower queryWords rows best ->
    let best' :=
      fold_left (matchRow threshold queryLower queryWords) some best in
    Tracks threshold queryLower queryWords rows best'
    /\ (snd best <= snd best')%Q.
Proof.
  induction some as [|faq some IH]; intros Hsub best Htr; simpl.
  - split; [assumption | apply Qle_refl].
  - assert (Hfaq : In faq rows) by (apply Hsub; now left).
    rewrite matchRow_as_entries.
    destruct (matchEntries_tracks faq (entriesOf (qa_data faq)) Hfaq
                (fun e H => H) best Htr) as [Htr1 Hle1].
    cbn zeta in Htr1, Hle1.
    destruct (IH (fun x Hx => Hsub x (or_intror Hx)) _ Htr1)
      as (Htr2 & Hle2).
    cbn zeta in Htr2, Hle2.
    split; [assumption | lra].
Qed.

Lemma rows_reaches (some : list Row) :
  (forall faq, In faq some -> In faq rows) ->
  forall best,
    Tracks threshold queryLower queryWords rows best ->
    forall faq d s,
      In faq some -> scored faq d ->
      entryScore queryLower queryWords faq d = Ok s ->
      (threshold <= s)%Q ->
      (s <= snd (fold_left (matchRow threshold queryLower queryWords)
                           some best))%Q.
Proof.
  induction some as [|faq some IH]; intros Hsub best Htr; simpl; [tauto |].
  assert (Hfaq : In faq rows) by (apply Hsub; now left).
  rewrite matchRow_as_entries.
  destruct (matchEntries_tracks faq (entriesOf (qa_data faq)) Hfaq
              (fun e H => H) best Htr) as [Htr1 Hle1].
  cbn zeta in Htr1, Hle1.
  assert (Hsub' : forall x, In x some -> In x rows)
    by (intros x Hx; apply Hsub; now right).
  intros faq' d s [<- | Hin] Hsc Hs Hthr.
  - destruct Hsc as (entry & He & Hc & Hd).
    pose proof (matchEntries_reaches faq (entriesOf (qa_data faq)) Hfaq
                  (fun e H => H) best Htr entry d s He Hc Hd Hs Hthr).
    destruct (rows_tracks some Hsub' _ Htr1) as [_ Hle2].
    cbn zeta in Hle2. lra.
  - now apply (IH Hsub' _ Htr1 faq' d s).
Qed.

End BestOfRows.

(** X23. A match returned by [findBestQAMatchEnhanced] reports an entry
    of one of the rows given, one with the code "app.faq_entry" and
    data: it carries that row's identifier, the entry's question and
    answer, and the entry's final score, which reaches the threshold
    (the configured one, 0.3 when it is missing or zero) and is
    positive; its match type is one of the four labels. *)
Theorem findBestQAMatchEnhanced_reports_an_entry
        (searchThreshold : option Q) (q : string) (rows : list Faq.Row)
        (m : ChatService.MatchResult) :
  ChatService.findBestQAMatchEnhanced searchThreshold q rows = Some m ->
  let queryLower := JsString.trim (JsString.toLowerCase q) in
  let queryWords := ChatService.extractQueryWords queryLower in
  BestMatch.reports queryLower queryWords rows m
  /\ (Js.orQ searchThreshold 0.3 <= ChatService.m_score m)%Q
  /\ (0 < ChatService.m_score m)%Q
  /\ In (ChatService.m_matchType m) ["exact"; "semantic"; "partial"; "weak"].
Proof.
  unfold ChatService.findBestQAMatchEnhanced. intros H. cbn zeta.
  set (queryLower := JsString.trim (JsString.toLowerCase q)) in *.
  set (queryWords := ChatService.extractQueryWords queryLower) in *.
  destruct (rows_tracks (Js.orQ searchThreshold 0.3) queryLower queryWords
              rows rows (fun faq Hin => Hin) (None, 0%Q))
    as [[_ Htr] _].
  { split; [apply Qle_refl | reflexivity]. }
  cbn zeta in Htr. rewrite H in Htr.
  destruct Htr as (_ & Hpos & Hthr & Hrep & Hty). auto.
Qed.


Lemma findBestQAMatchEnhanced_reports_an_entry_witness :
  exists m,
    ChatService.findBestQAMatchEnhanced
      None "Quels sont vos horaires ?" [Sample.openingHours] = Some m
    /\ (0 < ChatService.m_score m)%Q
    /\ In (ChatService.m_matchType m)
          ["exact"; "semantic"; "partial"; "weak"].
Proof.
  eexists. split; [vm_compute; reflexivity |].
  refine (proj2 (proj2 (findBestQAMatchEnhanced_reports_an_entry
                          None "Quels sont vos horaires ?"
                          [Sample.openingHours] _ _))).
  vm_compute. reflexivity.
Defined.




(** ** The earlier similarity measure *)

Section SimilarityFacts.
Import JsString ChatService TextSimilarity.

Lemma fold_nonneg {A : Type} (f : Q -> A -> Q) (l : list A) :
  (forall acc x, (0 <= acc)%Q -> (0 <= f acc x)%Q) ->
  forall acc, (0 <= acc)%Q -> (0 <= fold_left f l acc)%Q.
Proof.
  intros Hf. induction l as [|x l IH]; intros acc Hacc; simpl;
    [assumption |].
  apply IH. now apply Hf.
Qed.

Lemma ratio_nonneg {A : Type} (n : Q) (x : A) (l : list A) :
  (0 <= n)%Q -> (0 <= n / lengthQ (x :: l))%Q.
Proof.
  intros Hn. apply Qle_shift_div_l; [apply lengthQ_positive |].
  now rewrite Qmult_0_l.
Qed.

Lemma calculateExactMatches_nonneg (queryWords questionWords : list string) :
  (0 <= calculateExactMatches queryWords questionWords)%Q.
Proof.
  unfold calculateExactMatches.
  destruct queryWords as [|w ws]; [apply Qle_refl |].
  apply ratio_nonneg. apply fold_nonneg; [| apply Qle_refl].
  intros acc x Hacc. destruct (member x questionWords); lra.
Qed.

Lemma calculatePartialMatches_nonneg
      (queryWords questionWords : list string) :
  (0 <= calculatePartialMatches queryWords questionWords)%Q.
Proof.
  unfold calculatePartialMatches.
  destruct queryWords as [|w ws]; [apply Qle_refl |].
  apply ratio_nonneg. apply fold_nonneg; [| apply Qle_refl].
  intros acc x Hacc. destruct (existsb _ questionWords); lra.
Qed.

Lemma calculateSemanticMatches_nonneg
      (queryWords questionWords : list string) :
  (0 <= calculateSemanticMatches queryWords questionWords)%Q.
Proof.
  unfold calculateSemanticMatches.
  destruct queryWords as [|w ws]; [apply Qle_refl |].
  apply Q.min_glb; [| lra].
  apply ratio_nonneg. apply fold_nonneg; [| apply Qle_refl].
  intros acc x Hacc. apply fold_nonneg; [| assumption].
  intros acc' [key syns] Hacc'. unfold semanticStep.
  destruct (_ || _); [| assumption].
  destruct (_ || _); lra.
Qed.

Lemma positionLoop_nonneg (maxPosition : nat) (queryWords : list string)
      (questionWords : list string) :
  forall i acc, (0 <= acc)%Q ->
                (0 <= positionLoop maxPosition i queryWords
                                   questionWords acc)%Q.
Proof.
  induction questionWords as [|w rest IH]; intros i acc Hacc; simpl;
    [assumption |].
  apply IH. destruct (member w queryWords); [| assumption].
  assert (H : (0 <= inject_Z (Z.of_nat (maxPosition - i))
                    / inject_Z (Z.of_nat maxPosition))%Q).
  { destruct maxPosition as [|n].
    - simpl. unfold Qdiv, Qinv. simpl. rewrite Qmult_0_l. apply Qle_refl.
    - apply Qle_shift_div_l.
      + change 0%Q with (inject_Z 0). rewrite <- Zlt_Qlt. lia.
      + rewrite Qmult_0_l. change 0%Q with (inject_Z 0).
        rewrite <- Zle_Qle. lia. }
  lra.
Qed.

Lemma calculatePositionBonus_nonneg
      (queryWords questionWords : list string) :
  (0 <= calculatePositionBonus queryWords questionWords)%Q.
Proof.
  unfold calculatePositionBonus.
  destruct queryWords as [|w ws]; [apply Qle_refl |].
  apply ratio_nonneg. apply positionLoop_nonneg. apply Qle_refl.
Qed.

(** X26. [calculateTextSimilarity] returns a number between 0 and 1; it
    returns 0 when the query or the question is empty, and 1 when both
    are non-empty and equal up to case and surrounding white space. *)
Theorem calculateTextSimilarity_range (query question : string) :
  (0 <= calculateTextSimilarity query question)%Q
  /\ (calculateTextSimilarity query question <= 1)%Q
  /\ (query = "" \/ question = "" ->
      calculateTextSimilarity query question = 0%Q)
  /\ (query <> "" -> question <> "" ->
      trim (toLowerCase query) = trim (toLowerCase question) ->
      calculateTextSimilarity query question = 1.0%Q).
Proof.
  unfold calculateTextSimilarity.
  split; [| split; [| split]].
  - destruct (isEmpty query || isEmpty question); [apply Qle_refl |].
    destruct (String.eqb _ _); [lra |].
    destruct (_ || _); [lra |].
    destruct (normalizeText (trim (toLowerCase query))) as [|w ws];
      [apply Qle_refl |].
    destruct (normalizeText (trim (toLowerCase question))) as [|x xs];
      [apply Qle_refl |].
    cbv zeta. apply Q.min_glb; [| lra].
    pose proof (calculateExactMatches_nonneg (w :: ws) (x :: xs)).
    pose proof (calculatePartialMatches_nonneg (w :: ws) (x :: xs)).
    pose proof (calculateSemanticMatches_nonneg (w :: ws) (x :: xs)).
    pose proof (calculatePositionBonus_nonneg (w :: ws) (x :: xs)).
    lra.
  - destruct (isEmpty query || isEmpty question); [lra |].
    destruct (String.eqb _ _); [lra |].
    destruct (_ || _); [lra |].
    destruct (normalizeText (trim (toLowerCase query))) as [|w ws]; [lra |].
    destruct (normalizeText (trim (toLowerCase question))) as [|x xs];
      [lra |].
    cbv zeta. eapply Qle_trans; [apply Q.le_min_r | lra].
  - intros [-> | ->]; [reflexivity |].
    now rewrite orb_true_r.
  - intros Hq Hn Heq.
    destruct query; [congruence |]. destruct question; [congruence |].
    cbn [isEmpty orb]. rewrite Heq, String.eqb_refl. reflexivity.
Qed.

End SimilarityFacts.

(** ** The query as the chat service cleans it *)

Section ChatQueryFacts.
Import JsString ChatQuery.

Lemma stripMarks_split (s : string) :
  exists marks,
    forallChars isMark marks = true /\ s = (stripMarks s ++ marks)%string.
Proof.
  induction s as [|c s IH]; simpl.
  - now exists "".
  - destruct IH as (b & Hb & Hs).
    destruct (stripMarks s) as [|d t] eqn:E.
    + simpl in Hs. subst s. destruct (isMark c) eqn:Ec.
      * exists (String c b). simpl. rewrite Ec, Hb. now split.
      * exists b. now split.
    + exists b. split; [assumption |]. simpl. f_equal. exact Hs.
Qed.

Lemma stripMarks_last (s : string) :
  match lastChar (stripMarks s) with
  | Some c => isMark c = false
  | None => stripMarks s = ""
  end.
Proof.
  induction s as [|c s IH]; simpl; [reflexivity |].
  destruct (stripMarks s) as [|d t] eqn:E.
  - destruct (isMark c) eqn:Ec; simpl; [reflexivity | exact Ec].
  - change (lastChar (String c (String d t)))
      with (lastChar (String d t)).
    destruct (lastChar (String d t)); [exact IH | discriminate IH].
Qed.

Lemma stripMarks_unmarked (s : string) :
  match lastChar s with
  | Some c => isMark c = false
  | None => True
  end ->
  stripMarks s = s.
Proof.
  induction s as [|c s IH]; simpl; [reflexivity |].
  destruct s as [|d t].
  - simpl. intros ->. reflexivity.
  - intros H. rewrite (IH H). reflexivity.
Qed.

(** X27. The chat service's [normalizeQuery] returns the trimmed query,
    runs of white space replaced by one space, without the run of
    question marks, exclamation marks and full stops that ends it: the
    result never ends with one of these three, and a query that does not
    end with one is only trimmed and collapsed. *)
Theorem chat_normalizeQuery_strips_final_marks (query : string) :
  let cleaned := collapseSpaces (trim query) in
  (exists marks,
      forallChars isMark marks = true
      /\ cleaned = (normalizeQuery query ++ marks)%string)
  /\ match lastChar (normalizeQuery query) with
     | Some c => isMark c = false
     | None => normalizeQuery query = ""
     end
  /\ (match lastChar cleaned with
      | Some c => isMark c = false
      | None => True
      end -> normalizeQuery query = cleaned).
Proof.
  cbn zeta. unfold normalizeQuery. split; [apply stripMarks_split |].
  split; [apply stripMarks_last | apply stripMarks_unmarked].
Qed.

End ChatQueryFacts.

(** ** The filters of a retrieval *)

Section FilterFacts.
Import Js RagSearchService.

Variable cfg : Config.

Lemma pushVariant_filters (base : VariantFilters) (vs : list Variant)
      (q : string) (w : Q) (r : string) (fb : bool) :
  Forall (fun v => filters v = base) vs ->
  Forall (fun v => filters v = base) (pushVariant cfg vs q w r base fb).
Proof.
  intros H. unfold pushVariant.
  destruct (Qle_bool _ _); [assumption |].
  apply Forall_app. split; [assumption |].
  constructor; [reflexivity | constructor].
Qed.

Lemma pushSynonyms_filters (base : VariantFilters) (syns : list string) :
  forall index vs,
    Forall (fun v => filters v = base) vs ->
    Forall (fun v => filters v = base) (pushSynonyms cfg base index syns vs).
Proof.
  induction syns as [|s syns IH]; intros index vs H; simpl; [assumption |].
  apply IH. now apply pushVariant_filters.
Qed.

Lemma buildQueryVariants_filters (q : string) (session : Session)
      (vs : list Variant) :
  buildQueryVariants cfg q session = Ok vs ->
  Forall (fun v => filters v
                   = mkVariantFilters (languageCode session)
                                      (s_rubrique session)
                                      (productCode session))
         vs.
Proof.
  unfold buildQueryVariants.
  destruct (expandSynonyms q) as [syns|]; [| discriminate].
  simpl. intros H. injection H as <-.
  apply pushSynonyms_filters.
  destruct (s_rubrique session) as [rub|];
    destruct (productCode session) as [pc|]; simpl;
    repeat match goal with
           | |- context [if ?b then _ else _] => destruct b
           end;
    repeat apply pushVariant_filters; constructor.
Qed.

(** X28. Every variant of a retrieval is searched under the same
    filters, which depend on the session alone: the session's language,
    its category and its product code when they are non-empty, and the
    configured number of candidates per variant.  In particular the
    category "general" is passed on like any other. *)
Theorem buildFilters_same_for_every_variant
        (q : string) (session : Session) (vs : list Variant) :
  buildQueryVariants cfg q session = Ok vs ->
  Forall (fun v =>
            buildFilters cfg session v
            = mkFilters (languageCode session)
                        (keepStr (s_rubrique session))
                        (keepStr (productCode session))
                        (Some (maxCandidatesPerVariant cfg)))
         vs.
Proof.
  intros H. apply buildQueryVariants_filters in H.
  eapply Forall_impl; [| exact H].
  intros v Hv. unfold buildFilters, keepStr. rewrite Hv. simpl.
  destruct (truthyStr (s_rubrique session)),
           (truthyStr (productCode session)); reflexivity.
Qed.

End FilterFacts.

Lemma buildFilters_same_for_every_variant_witness :
  exists vs,
    RagSearchService.buildQueryVariants
      Sample.defaults "horaire"
      (RagSearchService.mkSession (Some "fr") (Some "general") None)
    = Js.Ok vs
    /\ Forall (fun v =>
                 RagSearchService.buildFilters
                   Sample.defaults
                   (RagSearchService.mkSession (Some "fr") (Some "general")
                                               None) v
                 = RagSearchService.mkFilters (Some "fr") (Some "general")
                                              None (Some 12%Q))
              vs.
Proof.
  eexists. split; [vm_compute; reflexivity |].
  refine (buildFilters_same_for_every_variant
            Sample.defaults "horaire"
            (RagSearchService.mkSession (Some "fr") (Some "general") None)
            _ _).
  vm_compute. reflexivity.
Defined.

(** ** The word pattern sent to the store *)

Section PatternFacts.
Import JsString DatabaseSearch.

Lemma wordChar_not_meta (c : ascii) :
  isWordChar c = true -> isRegexMeta c = false.
Proof.
  destruct c as [[] [] [] [] [] [] [] []]; vm_compute; congruence.
Qed.

Lemma escapeRegex_word (w : string) :
  forallChars isWordChar w = true -> escapeRegex w = w.
Proof.
  induction w as [|c w IH]; simpl; [reflexivity |].
  intros H. apply andb_true_iff in H. destruct H as [Hc Hw].
  now rewrite (wordChar_not_meta c Hc), IH.
Qed.

Lemma escapeRegex_words (ws : list string) :
  Forall (fun w => forallChars isWordChar w = true) ws ->
  map escapeRegex ws = ws.
Proof.
  induction 1 as [|w ws Hw _ IH]; simpl; [reflexivity |].
  now rewrite escapeRegex_word, IH.
Qed.

(** X29. Whatever the user typed, the word pattern built from the search
    words of the normalised term holds no character of the query that
    needs escaping: it is the never-matching pattern when there is no
    search word, and otherwise the search words themselves, made of
    ASCII word characters only, joined by bars between \b( and )\b. *)
Theorem buildWordRegex_of_search_words (q : string) :
  let words := extractSearchWords (Database.normalizeSearchTerm q) in
  Forall (fun w => forallChars isWordChar w = true) words
  /\ buildWordRegex words
     = match words with
       | [] => "(?!x)x"
       | _ => ("\b(" ++ join "|" words ++ ")\b")%string
       end.
Proof.
  cbn zeta.
  assert (H : Forall (fun w => forallChars isWordChar w = true)
                     (extractSearchWords (Database.normalizeSearchTerm q))).
  { eapply Forall_impl; [| apply extractSearchWords_shape].
    now intros w [_ Hw]. }
  split; [exact H |].
  unfold buildWordRegex. rewrite (escapeRegex_words _ H). reflexivity.
Qed.

End PatternFacts.

(** ** When retrieval raises *)

Section RaiseFacts.
Import JsString Js RagSearchService.

Lemma normalizeQuery_word_chars (q : string) (word : string) :
  In word (splitOn " " (normalizeQuery q)) ->
  mapChars (fun c => blankNonWord (lowerChar c)) word = word.
Proof.
  intros Hin. apply mapChars_fixed.
  assert (H : forallChars
                (fun c => Ascii.eqb (blankNonWord (lowerChar c)) c
                          || Ascii.eqb c " ")
                (normalizeQuery q) = true).
  { rewrite normalizeQuery_words. apply join_chars; [reflexivity |].
    unfold wordsOf, splitSpaces. apply Forall_filter.
    eapply Forall_impl; [| apply fieldsFrom_chars, blanked_chars].
    intros f Hf. eapply forallChars_impl; [| exact Hf].
    intros c Hc. cbv beta in Hc. now rewrite Hc. }
  pose proof (splitOn_chars _ _ H) as Hall.
  rewrite Forall_forall in Hall. now apply Hall.
Qed.

(** Among the names inherited from Object.prototype only two are written
    in lower case throughout. *)
Lemma inherited_lowercase (word : string) :
  inherited word = true ->
  mapChars (fun c => blankNonWord (lowerChar c)) word = word ->
  word = "constructor" \/ word = "__proto__".
Proof.
  intros Hinh Hlow. unfold inherited in Hinh.
  apply existsb_exists in Hinh. destruct Hinh as (k & Hk & E).
  apply String.eqb_eq in E. subst k. simpl in Hk.
  repeat (destruct Hk as [<- | Hk];
          [ first [ now left | now right | (vm_compute in Hlow; discriminate) ]
          |]).
  destruct Hk.
Qed.

(** X30. [retrieve] raises a TypeError exactly when the normalised query
    holds the word "constructor" or the word "__proto__" (between single
    spaces), whatever the store, the cache and the session are, and then
    leaves the cache as it was; for every other query it returns. *)
Theorem retrieve_raises_exactly_on_inherited_words
        (cfg : Config) (db : Store) (clock : nat -> Z) (c : CacheState)
        (q : string) (session : Session) :
  let words := splitOn " " (normalizeQuery q) in
  (In "constructor" words \/ In "__proto__" words ->
   retrieve cfg db clock c q session = (c, TypeError))
  /\ (~ (In "constructor" words \/ In "__proto__" words) ->
      exists c' r, retrieve cfg db clock c q session = (c', Ok r)).
Proof.
  cbn zeta. unfold retrieve, buildQueryVariants.
  pose proof (expandWords_spec (normalizeQuery q)
                (splitOn " " (normalizeQuery q)) [] (NoDup_nil _)) as H.
  unfold expandSynonyms.
  destruct (expandWords (normalizeQuery q) (splitOn " " (normalizeQuery q)) [])
    as [syns|].
  - destruct H as (_ & Hok & _). split.
    + intros Hin. exfalso.
      destruct Hin as [Hin | Hin]; apply (Hok _ Hin);
        apply lookup_inherited; reflexivity.
    + intros _. cbn [bind].
      destruct (collect cfg db clock session 0 _ c []) as [c1 candidates].
      destruct candidates; eexists; eexists; reflexivity.
  - destruct H as (word & Hin & Hl). apply lookup_inherited in Hl.
    split; [reflexivity |].
    intros Hnot. exfalso. apply Hnot.
    destruct (inherited_lowercase word Hl
                (normalizeQuery_word_chars q word Hin)) as [-> | ->];
      [now left | now right].
Qed.

End RaiseFacts.
